(** * SmartACE model-checking back end: a shallow embedding and its properties

    The development follows the sources of [libsolidity/modelcheck]:
    - [utils/KeyIterator.cpp]: the coordinate iterator of the harness;
    - [translation/Expression.cpp]: the expression converter;
    - [scheduler/MainFunction.cpp]: the generator of [run_model];
    - [harness/StateGenerator.cpp]: the declaration and the update of the
      call state;
    - [model/Block.h]: the modifier chain, as far as it is declared there.
    - [MainFunction_1.cpp]: the first pass of the early printer of the main
      function.
    Collaborators whose code is not among these sources are parameters of
    the embedding, or are modelled from the specification where a property
    needs them to run; the doc comments say which.
    The first part holds the definitions, the second part the properties. *)

From Stdlib Require Import String Ascii DecimalString.
From Stdlib Require Import List Arith Bool Lia ZArith.
From Stdlib Require Import Sorting.Sorted.
From Stdlib Require Import DecimalNat.
Import ListNotations.

Set Implicit Arguments.
Set Warnings "-register-all".

(* ====================================================================== *)
(** * Part I: definitions *)
(* ====================================================================== *)

(** ** The C++ run time *)

Module Std.

(** [std::to_string] on an unsigned integer. *)
Definition to_string (n : nat) : string :=
  NilEmpty.string_of_uint (Nat.to_uint n).

End Std.

Module Runtime.

(** The outcome of a call that may throw: the value, a [runtime_error]
    with its message, or a crash on a null pointer. *)
Inductive Result (A : Type) : Type :=
| Ok (a : A)
| Throw (what : string)
| Crash.
Arguments Ok {A} a.
Arguments Throw {A} what.
Arguments Crash {A}.

Definition bind (A B : Type) (c : Result A) (k : A -> Result B) : Result B :=
  match c with
  | Ok a => k a
  | Throw what => Throw what
  | Crash => Crash
  end.

Notation "x <- c ;; k" := (bind c (fun x => k))
  (at level 61, c at next level, right associativity).

End Runtime.

(** ** utils/KeyIterator.cpp *)

Module KeyIterator.

(** The object: three constants and the vector [m_indices]. The vector is
    only ever used as a stack ([push_back], [pop_back], [back]); it is
    kept with [back()] at the head of the list, and [indices] gives it in
    the order of the vector. All components stay below [M_WIDTH], so the
    [size_t] increments never wrap and [nat] is exact. *)
Record t := mk {
  M_WIDTH : nat;
  M_DEPTH : nat;
  M_WIDTH_OFFSET : nat;
  m_indices : list nat
}.

(** [KeyIterator(_width, _depth, _width_offset)] *)
Definition create (_width _depth _width_offset : nat) : t :=
  mk _width _depth _width_offset [].

(** [KeyIterator(_width, _depth)] *)
Definition create2 (_width _depth : nat) : t := create _width _depth 0.

Definition indices (it : t) : list nat := rev (m_indices it).

(** [suffix()]: ["_" + to_string(idx)] for each index, front to back. *)
Definition suffix_of (l : list nat) : string :=
  fold_left (fun s idx => (s ++ "_" ++ Std.to_string idx)%string) l ""%string.

Definition suffix (it : t) : string := suffix_of (indices it).

Definition is_full (it : t) : bool :=
  (0 <? M_DEPTH it) && (length (m_indices it) =? M_DEPTH it).

Definition size (it : t) : nat := length (m_indices it).

(** The [else] branch of [next()]:
    [++back; while (back == M_WIDTH) { pop_back; if (empty) break; ++back; }] *)
Fixpoint advance (width : nat) (stack : list nat) : list nat :=
  match stack with
  | [] => []
  | back :: rest =>
      if S back =? width then advance width rest else S back :: rest
  end.

Definition is_empty (stack : list nat) : bool :=
  match stack with [] => true | _ => false end.

(** [next()]: the returned flag and the iterator after the call. *)
Definition next (it : t) : bool * t :=
  if (M_WIDTH it =? 0) || (M_DEPTH it =? 0) || (M_WIDTH it <=? M_WIDTH_OFFSET it)
  then (false, it)
  else
    let stack :=
      if negb (is_full it) then M_WIDTH_OFFSET it :: m_indices it
      else advance (M_WIDTH it) (m_indices it) in
    (negb (is_empty stack),
     mk (M_WIDTH it) (M_DEPTH it) (M_WIDTH_OFFSET it) stack).

(** The loop of the callers, [do { body } while (indices.next());]. The
    fuel bounds the number of calls to [next]; [None] is a loop that is
    still running when the fuel is spent. *)
Fixpoint do_while (A : Type) (body : t -> list A) (fuel : nat) (it : t)
  : option (list A) :=
  match fuel with
  | 0 => None
  | S fuel' =>
      let (more, it') := next it in
      if more
      then option_map (app (body it)) (do_while body fuel' it')
      else Some (body it)
  end.

(** The index tuples at which the loop finds the iterator full. *)
Definition full_states (fuel : nat) (it : t) : option (list (list nat)) :=
  do_while (fun it => if is_full it then [indices it] else []) fuel it.

(** The iterator after [k] calls of [next]. *)
Fixpoint after (k : nat) (it : t) : t :=
  match k with
  | 0 => it
  | S k' => snd (next (after k' it))
  end.

(** The coordinate space, written down independently of the iterator: all
    tuples of length [depth] over [offset, width), first component being
    the most significant. *)
Fixpoint tuples (offset width depth : nat) : list (list nat) :=
  match depth with
  | 0 => [[]]
  | S depth' =>
      flat_map (fun x => map (cons x) (tuples offset width depth'))
               (seq offset (width - offset))
  end.

(** Lexicographic order on tuples. *)
Fixpoint lex_ltb (p q : list nat) : bool :=
  match p, q with
  | [], [] => false
  | [], _ :: _ => true
  | _ :: _, [] => false
  | x :: p', y :: q' => (x <? y) || ((x =? y) && lex_ltb p' q')
  end.

Definition lex_lt (p q : list nat) : Prop := lex_ltb p q = true.

(** Number of calls of [next] that the loop makes below a prefix which
    lacks [k] components. *)
Fixpoint calls (span k : nat) : nat :=
  match k with
  | 0 => 1
  | S k' => 1 + span * calls span k'
  end.

(** Fuel that lets the loop on a fresh iterator run to its end: one call
    if the first call of [next] already returns false. *)
Definition enough (width depth offset : nat) : nat :=
  if (width =? 0) || (depth =? 0) || (width <=? offset) then 1
  else calls (width - offset) depth.

End KeyIterator.

(** ** codegen: the target expression tree

    The classes of [codegen/Details.h] as they are built by the converters:
    one constructor per class, [CNull] for a null [CExprPtr]. *)

Module CodeGen.

Inductive CExpr : Type :=
| CNull
| CIdentifier (name : string) (is_pointer : bool)
| CIntLiteral (value : Z)
| CStringLiteral (value : string)
| CMemberAccess (expr : CExpr) (member : string)
| CReference (expr : CExpr)
| CDereference (expr : CExpr)
| CCast (expr : CExpr) (type : string)
| CUnaryOp (op : string) (expr : CExpr) (is_prefix : bool)
| CBinaryOp (lhs : CExpr) (op : string) (rhs : CExpr)
| CCond (cond tcase fcase : CExpr)
| CFuncCall (name : string) (args : list CExpr).

(** [Literals::ZERO] and [Literals::ONE] *)
Definition ZERO : CExpr := CIntLiteral 0.
Definition ONE : CExpr := CIntLiteral 1.

(** [expr->access(member)] and [expr->assign(rhs)] *)
Definition access (e : CExpr) (member : string) : CExpr := CMemberAccess e member.
Definition assign (e rhs : CExpr) : CExpr := CBinaryOp e "=" rhs.

(** The unwrapping access [(e).v] of a wrapped scalar. *)
Definition is_unwrap (e : CExpr) : bool :=
  match e with
  | CMemberAccess _ member => String.eqb member "v"
  | _ => false
  end.

End CodeGen.

(** ** The annotated source tree consumed by the converters *)

Module Solidity.

Inductive Category : Type :=
| Address | Integer | RationalNumber | StringLiteral | Bool | FixedPoint
| Array | FixedBytes | Contract | Struct | Function_ | Enum | Tuple
| Mapping | TypeType_ | Modifier | Magic | Module_ | InaccessibleDynamic.

(** [FunctionType::Kind] *)
Inductive Kind : Type :=
| Internal | External | BareCall | BareStaticCall
| DelegateCall | BareDelegateCall | BareCallCode
| Creation | Send | Transfer | KECCAK256 | Selfdestruct | Revert
| ECRecover | SHA256 | RIPEMD160
| Log0 | Log1 | Log2 | Log3 | Log4 | Event
| SetGas | SetValue | BlockHash | AddMod | MulMod
| ArrayPush | ByteArrayPush | ArrayPop | ObjectCreation
| Assert | Require
| ABIEncode | ABIEncodePacked | ABIEncodeWithSelector
| ABIEncodeWithSignature | ABIDecode
| GasLeft | MetaType | OtherKind.

(** The resolved type carried by every expression: one constructor per
    class of [Type], with the members that the converters read. *)
Inductive Type_ : Type :=
| AddressType (payable : bool)
| IntegerType (bits : nat) (isSigned : bool)
| RationalNumberType (integerType : option Type_)
| StringLiteralType
| BoolType
| FixedPointType
| ArrayType (baseType : Type_)
| FixedBytesType (numBytes : nat)
| ContractType (name : string)
| StructType (name : string)
| FunctionType (kind : Kind)
| EnumType (name : string)
| TupleType
| MappingType (keyType valueType : Type_)
| TypeType (actualType : Type_)
| ModifierType
| MagicType (name : string)
| ModuleType
| InaccessibleDynamicType.

Definition category (t : Type_) : Category :=
  match t with
  | AddressType _ => Address
  | IntegerType _ _ => Integer
  | RationalNumberType _ => RationalNumber
  | StringLiteralType => StringLiteral
  | BoolType => Bool
  | FixedPointType => FixedPoint
  | ArrayType _ => Array
  | FixedBytesType _ => FixedBytes
  | ContractType _ => Contract
  | StructType _ => Struct
  | FunctionType _ => Function_
  | EnumType _ => Enum
  | TupleType => Tuple
  | MappingType _ _ => Mapping
  | TypeType _ => TypeType_
  | ModifierType => Modifier
  | MagicType _ => Magic
  | ModuleType => Module_
  | InaccessibleDynamicType => InaccessibleDynamic
  end.

(** The operator and literal tokens of [Token]. *)
Inductive Token : Type :=
| Assign | AssignBitOr | AssignBitXor | AssignBitAnd | AssignShl | AssignSar
| AssignShr | AssignAdd | AssignSub | AssignMul | AssignDiv | AssignMod
| Comma | Or | And | BitOr | BitXor | BitAnd | SHL | SAR | SHR
| Add | Sub | Mul | Div | Mod | Exp
| Equal | NotEqual | LessThan | GreaterThan | LessThanOrEqual
| GreaterThanOrEqual
| Not | BitNot | Inc | Dec | Delete
| TrueLiteral | FalseLiteral | Number | StringLiteralToken | OtherToken.

Definition Token_eqb (a b : Token) : bool :=
  match a, b with
  | Assign, Assign | AssignBitOr, AssignBitOr | AssignBitXor, AssignBitXor
  | AssignBitAnd, AssignBitAnd | AssignShl, AssignShl | AssignSar, AssignSar
  | AssignShr, AssignShr | AssignAdd, AssignAdd | AssignSub, AssignSub
  | AssignMul, AssignMul | AssignDiv, AssignDiv | AssignMod, AssignMod
  | Comma, Comma | Or, Or | And, And | BitOr, BitOr | BitXor, BitXor
  | BitAnd, BitAnd | SHL, SHL | SAR, SAR | SHR, SHR
  | Add, Add | Sub, Sub | Mul, Mul | Div, Div | Mod, Mod | Exp, Exp
  | Equal, Equal | NotEqual, NotEqual | LessThan, LessThan
  | GreaterThan, GreaterThan | LessThanOrEqual, LessThanOrEqual
  | GreaterThanOrEqual, GreaterThanOrEqual
  | Not, Not | BitNot, BitNot | Inc, Inc | Dec, Dec | Delete, Delete
  | TrueLiteral, TrueLiteral | FalseLiteral, FalseLiteral | Number, Number
  | StringLiteralToken, StringLiteralToken | OtherToken, OtherToken => true
  | _, _ => false
  end.

Inductive SubDenomination : Type :=
| NoSub | Wei | Szabo | Finney | Ether
| Second | Minute | Hour | Day | Week | Year.

(** [FunctionCallAnnotation::kind] *)
Inductive FunctionCallKind : Type :=
| Unset | FunctionCallKind_FunctionCall | TypeConversion | StructConstructorCall.

(** An [Identifier] node: its name and its annotated type. *)
Record Identifier : Type := mkIdentifier {
  id_name : string;
  id_type : Type_
}.

(** The expression nodes for which the converter has a visitor, each with
    [annotation().type] first. *)
Inductive Expression : Type :=
| Conditional (type : Type_) (condition trueExpression falseExpression : Expression)
| Assignment (type : Type_) (leftHandSide : Expression)
             (assignmentOperator : Token) (rightHandSide : Expression)
| TupleExpression (type : Type_) (isInlineArray : bool) (components : list Expression)
| UnaryOperation (type : Type_) (getOperator : Token) (isPrefixOperation : bool)
                 (subExpression : Expression)
| BinaryOperation (type : Type_) (leftExpression : Expression)
                  (getOperator : Token) (rightExpression : Expression)
| FunctionCall (type : Type_) (kind : FunctionCallKind)
               (expression : Expression) (arguments : list Expression)
| MemberAccess (type : Type_) (expression : Expression) (memberName : string)
| IndexAccess (type : Type_) (baseExpression indexExpression : Expression)
| IdentifierExpr (id : Identifier)
| Literal (type : Type_) (token : Token) (value : string)
          (subDenomination : SubDenomination).

Definition annotation_type (e : Expression) : Type_ :=
  match e with
  | Conditional t _ _ _ | Assignment t _ _ _ | TupleExpression t _ _
  | UnaryOperation t _ _ _ | BinaryOperation t _ _ _ | FunctionCall t _ _ _
  | MemberAccess t _ _ | IndexAccess t _ _ | Literal t _ _ _ => t
  | IdentifierExpr id => id_type id
  end.

End Solidity.

(** ** translation/Expression.cpp *)

Module ExpressionConverter.
Import CodeGen Solidity Runtime.

(** [VarContext] of the scope resolver. *)
Inductive VarContext : Type := STRUCT | FUNCTION.

(** The flags of the converter that [ScopedSwap] sets for the extent of a
    visit. [m_subexpr] is threaded through the visitors as an argument
    and a result. *)
Record Flags : Type := mkFlags {
  m_find_ref : bool;
  m_lval : bool;
  m_last_assignment : option Identifier
}.

Definition set_find_ref (fl : Flags) (b : bool) : Flags :=
  mkFlags b (m_lval fl) (m_last_assignment fl).
Definition set_lval (fl : Flags) (b : bool) : Flags :=
  mkFlags (m_find_ref fl) b (m_last_assignment fl).
Definition set_last_assignment (fl : Flags) (id : option Identifier) : Flags :=
  mkFlags (m_find_ref fl) (m_lval fl) id.

(** The collaborators of the converter whose code lies outside the
    translated sources. Each field stands for the function of the same
    name; the converter is embedded over an arbitrary [Env].
    - [get_name], [is_pointer]: the [TypeConverter] [M_TYPES];
    - [resolve_identifier], [rewrite]: the [VariableScopeResolver];
    - [is_wrapped_type], [try_to_wrap]: [utils/Types], [utils/Function];
    - [friendlyName], [AssignmentToBinaryOp]: [TokenTraits];
    - [LValueSniffer_Identifier], [NodeSniffer_Identifier]: [utils/AST];
    - [magic_name]: [CallStateUtilities::parse_magic_type] followed by
      [get_name]; [memberValue]: [EnumType::memberValue], [None] when the
      [TypeType] wraps no [EnumType];
    - [balance_member], [address_member]: [ContractUtilities];
    - [read_number]: [istringstream >> long long]; [hash_string]:
      [std::hash<string>];
    - [struct_members]: the types of the members of the
      [StructDefinition] that an identifier refers to, [None] when it
      refers to no such definition;
    - [print_method], [print_contract_ctor]: the two call printers that
      rest on [FunctionCallAnalyzer], [FunctionSpecialization] and
      [CallState::compute_next_state_for]. They receive the flags, the
      call node and the incoming [m_subexpr]. *)
Record Env : Type := mkEnv {
  get_name : Expression -> string;
  is_pointer : Identifier -> bool;
  resolve_identifier : Identifier -> string;
  rewrite : string -> bool -> VarContext -> string;
  is_wrapped_type : Type_ -> bool;
  try_to_wrap : Type_ -> CExpr -> CExpr;
  friendlyName : Token -> string;
  AssignmentToBinaryOp : Token -> Token;
  LValueSniffer_Identifier : Expression -> option Identifier;
  NodeSniffer_Identifier : Expression -> bool -> option Identifier;
  magic_name : Type_ -> string -> string;
  memberValue : Type_ -> string -> option Z;
  balance_member : string;
  address_member : string;
  read_number : string -> Z;
  hash_string : string -> Z;
  struct_members : Identifier -> option (list Type_);
  print_method : Flags -> Expression -> CExpr -> Result CExpr;
  print_contract_ctor : Flags -> Expression -> CExpr -> Result CExpr
}.

Definition is_Contract (t : Type_) : bool :=
  match category t with Contract => true | _ => false end.

Definition is_FixedPoint (t : Type_) : bool :=
  match category t with FixedPoint => true | _ => false end.

(** The type behind a [RationalNumberType], as [print_cast] takes it:
    [integerType()], which may be null; any other type is itself. *)
Definition integer_of_rational (t : Type_) : option Type_ :=
  match t with
  | RationalNumberType integerType => integerType
  | _ => Some t
  end.

Section Converter.
Variable E : Env.

(** [literal_to_number]. The products are taken in [Z]; they are those
    of the [long long] arithmetic whenever that does not overflow. *)
Definition literal_to_number (value : string) (sub : SubDenomination) : Z :=
  let num := read_number E value in
  match sub with
  | Szabo => num * 1000000000000
  | Finney => num * 1000000000000000
  | Ether => num * 1000000000000000000
  | Minute => num * 60
  | Hour => num * 60 * 60
  | Day => num * 60 * 60 * 24
  | Week => num * 60 * 60 * 24 * 7
  | Year => num * 60 * 60 * 24 * 365
  | _ => num
  end%Z.

(** [visit(Identifier)] *)
Definition visit_Identifier (fl : Flags) (_node : Identifier) : CExpr :=
  let subexpr := CIdentifier (resolve_identifier E _node) (is_pointer E _node) in
  if m_find_ref fl then CReference subexpr
  else if is_wrapped_type E (id_type _node) then CMemberAccess subexpr "v"
  else subexpr.

(** [visit(Literal)] *)
Definition visit_Literal (token : Token) (value : string)
           (sub : SubDenomination) : Result CExpr :=
  match token with
  | TrueLiteral => Ok ONE
  | FalseLiteral => Ok ZERO
  | Number => Ok (CIntLiteral (literal_to_number value sub))
  | StringLiteralToken => Ok (CIntLiteral (hash_string E value))
  | _ => Throw "Literal type derived from unsupported token."
  end.

(** The visitors that descend are written over [visit_], the visitor
    for the sub-expressions; [visit] below closes the recursion. *)
Section Open.
Variable visit_ : Flags -> Expression -> CExpr -> Result CExpr.

(** [ExpressionConverter(_expr, ..., _is_ref).convert()]: a converter
    of its own, with [m_subexpr] and [m_last_assignment] null and
    [m_lval] unset. *)
Definition convert_with (_is_ref : bool) (_expr : Expression) : Result CExpr :=
  visit_ (mkFlags _is_ref false None) _expr CNull.

(** [CFuncCallBuilder::push(_expr, ..., _is_ref, _t)]: the expression is
    converted on its own and wrapped for the parameter type [_t], if
    one is given. *)
Definition push_with (_is_ref : bool) (_t : option Type_)
           (_expr : Expression) : Result CExpr :=
  r <- convert_with _is_ref _expr ;;
  Ok (match _t with Some t => try_to_wrap E t r | None => r end).

(** [generate_binary_op] *)
Definition generate_binary_op_with (fl : Flags) (_lhs : Expression)
           (_op : Token) (_rhs : Expression) (m_subexpr : CExpr)
  : Result CExpr :=
  subexpr1 <- visit_ fl _lhs m_subexpr ;;
  subexpr2 <- visit_ fl _rhs subexpr1 ;;
  let OP := friendlyName E _op in
  if Token_eqb _op SAR || Token_eqb _op SHR || Token_eqb _op Exp
  then Throw ("Unsupported binary operator:" ++ OP)
  else Ok (CBinaryOp subexpr1 OP subexpr2).

(** [generate_mapping_call], for the index access with the given base
    and index. [MAP_T] is the [dynamic_cast] of the base type, null
    when the base is no mapping. *)
Definition generate_mapping_call_with (_op _id : string)
           (baseExpression indexExpression : Expression) (_v : CExpr)
  : Result CExpr :=
  match annotation_type baseExpression with
  | MappingType KEY_T VALUE_T =>
      base <- push_with true None baseExpression ;;
      key <- push_with false (Some KEY_T) indexExpression ;;
      Ok (CFuncCall (_op ++ "_" ++ _id)
            ([base; key] ++
             match _v with
             | CNull => []
             | _ => [try_to_wrap E VALUE_T _v]
             end))
  | _ => Crash
  end.

(** [print_struct_ctor]: the arguments are pushed one by one, each for the
    type of the member of the same index. [members] is null when the
    identifier refers to no struct definition. *)
Fixpoint push_members (members : option (list Type_)) (args : list Expression)
  : Result (list CExpr) :=
  match args with
  | [] => Ok []
  | ARG :: args' =>
      match members with
      | Some (TYPE :: members') =>
          arg <- push_with false (Some TYPE) ARG ;;
          rest <- push_members (Some members') args' ;;
          Ok (arg :: rest)
      | _ => Crash
      end
  end.

Definition print_struct_ctor_with (expression : Expression)
           (arguments : list Expression) : Result CExpr :=
  match NodeSniffer_Identifier E expression false with
  | Some struct_ref =>
      args <- push_members (struct_members E struct_ref) arguments ;;
      Ok (CFuncCall ("Init_" ++ get_name E (IdentifierExpr struct_ref)) args)
  | None => Throw "Struct constructor called without identifier."
  end.

(** [print_cast]. [type] is the annotated type of the call. *)
Definition print_cast_with (fl : Flags) (type : Type_)
           (arguments : list Expression) (m_subexpr : CExpr) : Result CExpr :=
  match arguments with
  | [BASE_EXPR] =>
      match integer_of_rational (annotation_type BASE_EXPR) with
      | None => Throw "FixedPoint conversion is unsupported in solc."
      | Some base_type =>
          match integer_of_rational type with
          | None => Crash
          | Some cast_type =>
              if is_FixedPoint cast_type || is_FixedPoint base_type
              then Throw "FixedPoint conversion is unsupported in solc."
              else
                sub <- visit_ fl BASE_EXPR m_subexpr ;;
                match base_type with
                | AddressType _ =>
                    match cast_type with
                    | IntegerType _ isSigned =>
                        if isSigned then visit_ fl BASE_EXPR sub
                        else Ok (CCast sub "unsigned int")
                    | EnumType _ => Throw "Enums are not yet supported."
                    | AddressType _ => Ok sub
                    | _ => Throw "Unsupported address cast."
                    end
                | IntegerType _ base_signed =>
                    match cast_type with
                    | IntegerType _ cast_signed =>
                        if negb (Bool.eqb base_signed cast_signed) then
                          if cast_signed then Ok (CCast sub "int")
                          else Ok (CCast sub "unsigned int")
                        else Ok sub
                    | AddressType _ =>
                        if negb base_signed then Ok (CCast sub "int") else Ok sub
                    | EnumType _ => Throw "Enums are not yet supported."
                    | _ => Throw "Unsupported integer cast."
                    end
                | StringLiteralType => Throw "String conversion is unsupported."
                | FixedBytesType _ => Throw "Byte arrays are not yet supported."
                | BoolType =>
                    match cast_type with
                    | BoolType => Ok sub
                    | _ => Throw "Unsupported bool cast."
                    end
                | ArrayType _ => Throw "Arrays are not yet supported."
                | ContractType _ =>
                    match cast_type with
                    | ContractType _ =>
                        Throw "Contract/Contract casts unimplemented."
                    | AddressType _ =>
                        Ok (CMemberAccess (CMemberAccess sub (address_member E)) "v")
                    | _ => Throw "Unsupported Contract cast."
                    end
                | EnumType _ => Throw "Enums are not yet supported."
                | _ => Throw "Conversion applied to unexpected type."
                end
          end
      end
  | _ => Throw "Unable to typecast multiple values in one call."
  end.

(** [print_payment]. [pushed_DST] stands for the member access that
    [NodeSniffer<MemberAccess>] finds in the call: it is [None] if
    there is none, and else holds [builder.push(DST, ..., &ARG1_TYPE)]
    for the expression [DST] of that member access. *)
Definition ARG1_TYPE : Type_ := AddressType true.
Definition ARG2_TYPE : Type_ := IntegerType 256 false.

Definition print_payment_with (pushed_DST : option (Result CExpr))
           (args : list Expression) : Result CExpr :=
  match args with
  | [AMT] =>
      match pushed_DST with
      | Some pushed =>
          let src := CIdentifier "self" true in
          let bal := CMemberAccess src (balance_member E) in
          let balref := CReference bal in
          dst <- pushed ;;
          amt <- push_with false (Some ARG2_TYPE) AMT ;;
          Ok (CFuncCall "_pay" [balref; dst; amt])
      | None => Throw "Unable to extract address from payment call."
      end
  | _ => Throw "Payment calls require payment amount."
  end.

(** [print_assertion] *)
Definition print_assertion_with (_type : string) (_args : list Expression)
  : Result CExpr :=
  match _args with
  | [] => Throw "Assertion requires condition."
  | arg0 :: _ =>
      let RAW_TYPE := InaccessibleDynamicType in
      cond <- push_with false (Some RAW_TYPE) arg0 ;;
      Ok (CFuncCall _type [cond; ZERO])
  end.

(** [print_function]: the dispatch on the kind of the called function
    type. [_call] is the whole call node. *)
Definition print_function_with (fl : Flags) (_call : Expression)
           (expression : Expression) (pushed_DST : option (Result CExpr))
           (arguments : list Expression) (m_subexpr : CExpr)
  : Result CExpr :=
  match annotation_type expression with
  | FunctionType kind =>
      match kind with
      | Internal | External | BareCall | BareStaticCall =>
          print_method E fl _call m_subexpr
      | DelegateCall | BareDelegateCall | BareCallCode =>
          Throw "Delegate calls are unsupported."
      | Creation => print_contract_ctor E fl _call m_subexpr
      | Send | Transfer => print_payment_with pushed_DST arguments
      | KECCAK256 => Throw "KECCAK256 not yet supported."
      | Selfdestruct => Throw "Selfdestruct unsupported."
      | Revert => Throw "Revert not yet supported."
      | ECRecover => Throw "ECRecover not yet supported."
      | SHA256 => Throw "SHA256 not yet supported."
      | RIPEMD160 => Throw "RIPEMD160 not yet supported."
      | Log0 | Log1 | Log2 | Log3 | Log4 | Event =>
          Throw "Logging is not verified."
      | SetGas => Throw "`gas(<val>)` not yet supported."
      | SetValue => Throw "`value(<val>)` not yet supported."
      | BlockHash => Throw "`block.blockhash(<val>)` not yet supported."
      | AddMod => Throw "AddMod not yet supported."
      | MulMod => Throw "AddMod not yet supported."
      | ArrayPush | ByteArrayPush =>
          Throw "`<array>.push(<val>)` not yet supported."
      | ArrayPop => Throw "`<array>.pop()` not yet supported."
      | ObjectCreation => Throw "`new <array>` not yet supported."
      | Assert => print_assertion_with "sol_assert" arguments
      | Require => print_assertion_with "sol_require" arguments
      | ABIEncode => Throw "`abi.encode(...)` unsupported."
      | ABIEncodePacked => Throw "`abi.encodePacked(...)` unsupported."
      | ABIEncodeWithSelector =>
          Throw "`abi.encodeWithSelector(...)` unsupported."
      | ABIEncodeWithSignature =>
          Throw "`abi.encodeWithSignature(...)` unsupported."
      | ABIDecode => Throw "`abi.decode(...)` unsupported."
      | GasLeft => Throw "GasLeft not yet supported."
      | MetaType => Ok m_subexpr
      | OtherKind => Throw "Unexpected function call type."
      end
  | _ => Throw "Function encountered without type annotations."
  end.

(** [print_address_member] *)
Definition print_address_member (fl : Flags) (_node : Expression)
           (_member : string) : Result CExpr :=
  if String.eqb _member "balance" then
    match NodeSniffer_Identifier E _node true with
    | Some id =>
        if is_Contract (id_type id)
        then Ok (CMemberAccess (visit_Identifier fl id) (balance_member E))
        else Throw "Balance of arbitrary address not supported."
    | None => Throw "Balance of arbitrary address not supported."
    end
  else Throw ("Unrecognized Address member: " ++ _member).

(** [print_array_member] *)
Definition print_array_member (_member : string) : Result CExpr :=
  if String.eqb _member "length"
  then Throw "Array-like lengths not yet supported."
  else Throw ("Unrecognized Array-like member: " ++ _member).

(** [print_adt_member] *)
Definition print_adt_member_with (fl : Flags) (_node : Expression)
           (_member : string) (m_subexpr : CExpr) : Result CExpr :=
  sub <- visit_ fl _node m_subexpr ;;
  Ok (CMemberAccess sub (rewrite E _member false STRUCT)).

(** [print_magic_member] *)
Definition print_magic_member (_type : Type_) (_member : string) : CExpr :=
  CIdentifier (magic_name E _type _member) false.

(** [print_enum_member] *)
Definition print_enum_member (_type : Type_) (_member : string)
  : Result CExpr :=
  match memberValue E _type _member with
  | Some v => Ok (CIntLiteral v)
  | None => Throw "EnumValue lacks EnumType."
  end.

End Open.

(** The visitors. [m_subexpr] comes in as it was left by the visit
    before and goes out as the visitor leaves it.

    Two sniffers of [utils/AST] hand back a node that is visited in turn;
    they are written out where they are used, so that the recursion stays
    on sub-expressions. [LValueSniffer<IndexAccess>] finds the left-hand
    side itself if that is an index access ("the left-hand side sniffs to
    an [IndexAccess] on a map"), as in [a[1] = 2] and [c.m[1] = 2] of the
    tests, and nothing below a member access, as in [b[1].m += 2].
    [NodeSniffer<MemberAccess>] finds the called expression of a payment,
    [dst.transfer] or [(dst.send)]. *)
Fixpoint visit (fl : Flags) (_node : Expression) (m_subexpr : CExpr)
         {struct _node} : Result CExpr :=
  match _node with
  | Conditional _ condition trueExpression falseExpression =>
      subexpr1 <- visit fl condition m_subexpr ;;
      subexpr2 <- visit fl trueExpression subexpr1 ;;
      subexpr3 <- visit fl falseExpression subexpr2 ;;
      Ok (CCond subexpr1 subexpr2 subexpr3)

  | Assignment _ leftHandSide assignmentOperator rightHandSide =>
      let ID := LValueSniffer_Identifier E leftHandSide in
      if match ID with Some id => is_Contract (id_type id) | None => false end
      then visit (set_last_assignment fl ID) rightHandSide m_subexpr
      else
        let swap :=
          set_find_ref fl
            (match ID with Some id => is_pointer E id | None => false end) in
        rhs <- (if negb (Token_eqb assignmentOperator Assign)
                then generate_binary_op_with visit swap leftHandSide
                       (AssignmentToBinaryOp E assignmentOperator)
                       rightHandSide m_subexpr
                else visit swap rightHandSide m_subexpr) ;;
        (* LValueSniffer<IndexAccess>: the left-hand side is an index
           access. *)
        match leftHandSide with
        | IndexAccess _ baseExpression indexExpression =>
            generate_mapping_call_with visit "Write"
              (get_name E leftHandSide) baseExpression indexExpression rhs
        | _ =>
            lhs <- visit (set_lval fl true) leftHandSide rhs ;;
            Ok (CBinaryOp lhs "=" rhs)
        end

  | TupleExpression _ isInlineArray components =>
      if isInlineArray then Throw "Inline arrays not yet supported."
      else
        match components with
        | _ :: _ :: _ => Throw "Multivalue tuples not yet supported."
        | [component] => visit fl component m_subexpr
        | [] => Ok m_subexpr
        end

  | UnaryOperation _ getOperator IS_PREFIX subExpression =>
      sub <- visit fl subExpression m_subexpr ;;
      if Token_eqb getOperator Delete
      then Throw "Delete not yet supported."
      else Ok (CUnaryOp (friendlyName E getOperator) sub IS_PREFIX)

  | BinaryOperation _ LHS getOperator RHS =>
      generate_binary_op_with visit fl LHS getOperator RHS m_subexpr

  | FunctionCall type KIND expression arguments =>
      match KIND with
      | FunctionCallKind_FunctionCall =>
          (* NodeSniffer<MemberAccess>: the called expression is a
             member access, possibly in parentheses. *)
          let pushed_DST :=
            match expression with
            | MemberAccess _ DST _
            | TupleExpression _ _ [MemberAccess _ DST _] =>
                Some (push_with visit false (Some ARG1_TYPE) DST)
            | _ => None
            end in
          print_function_with visit fl _node expression pushed_DST
            arguments m_subexpr
      | TypeConversion =>
          print_cast_with visit fl type arguments m_subexpr
      | StructConstructorCall =>
          print_struct_ctor_with visit expression arguments
      | Unset => Throw "FunctionCall encountered of unknown kind."
      end

  | MemberAccess type expression memberName =>
      let EXPR_TYPE := annotation_type expression in
      let find_ref := set_find_ref fl false in
      r <- match category EXPR_TYPE with
           | Address =>
               sub <- print_address_member find_ref expression memberName ;;
               Ok (sub, false)
           | StringLiteral | Array | FixedBytes =>
               sub <- print_array_member memberName ;;
               Ok (sub, false)
           | Contract | Struct =>
               sub <- print_adt_member_with visit find_ref expression
                        memberName m_subexpr ;;
               Ok (sub, false)
           | Magic => Ok (print_magic_member EXPR_TYPE memberName, false)
           | TypeType_ =>
               sub <- print_enum_member EXPR_TYPE memberName ;;
               Ok (sub, true)
           | _ => Throw "MemberAccess applied to invalid type."
           end ;;
      let (sub, auto_unwrapped) := r in
      if m_find_ref fl then Ok (CReference sub)
      else if is_wrapped_type E type && negb auto_unwrapped
      then Ok (CMemberAccess sub "v")
      else Ok sub

  | IndexAccess type baseExpression indexExpression =>
      match category (annotation_type baseExpression) with
      | Mapping =>
          let MAP_NAME := get_name E _node in
          call <-
            (if m_find_ref fl then
               generate_mapping_call_with visit "Ref" MAP_NAME
                 baseExpression indexExpression CNull
             else if m_lval fl then
               ref <- generate_mapping_call_with visit "Ref" MAP_NAME
                        baseExpression indexExpression CNull ;;
               Ok (CDereference ref)
             else
               generate_mapping_call_with visit "Read" MAP_NAME
                 baseExpression indexExpression CNull) ;;
          if is_wrapped_type E type
          then Ok (CMemberAccess call "v")
          else Ok call
      | _ => Throw "IndexAccess applied to unsupported type."
      end

  | IdentifierExpr id => Ok (visit_Identifier fl id)

  | Literal _ token value sub => visit_Literal token value sub
  end.

Definition convert (_is_ref : bool) (_expr : Expression) : Result CExpr :=
  convert_with visit _is_ref _expr.

Definition push (_is_ref : bool) (_t : option Type_) (_expr : Expression)
  : Result CExpr :=
  push_with visit _is_ref _t _expr.

Definition generate_binary_op := generate_binary_op_with visit.
Definition generate_mapping_call := generate_mapping_call_with visit.
Definition print_payment := print_payment_with visit.
Definition print_assertion := print_assertion_with visit.
Definition print_function := print_function_with visit.
Definition print_adt_member := print_adt_member_with visit.
Definition print_cast := print_cast_with visit.
Definition print_struct_ctor := print_struct_ctor_with visit.

(** The shapes of the emitted code, for the statements below: the call
    that stands for a map access under the given flags, and the
    unwrapping of a value of the type [t]. *)
Definition mapping_access (fl : Flags) (name : string) (args : list CExpr)
  : CExpr :=
  if m_find_ref fl then CFuncCall ("Ref_" ++ name) args
  else if m_lval fl then CDereference (CFuncCall ("Ref_" ++ name) args)
  else CFuncCall ("Read_" ++ name) args.

Definition unwrapped (t : Type_) (e : CExpr) : CExpr :=
  if is_wrapped_type E t then CMemberAccess e "v" else e.

Definition unsupported_binary (op : Token) : bool :=
  Token_eqb op SAR || Token_eqb op SHR || Token_eqb op Exp.

End Converter.

End ExpressionConverter.

(** ** The analysis results of the unit tests

    [test/libsolidity/modelcheck/BlockConversionTests.cpp] runs the
    converter on small contracts. [env locals map_name] is an [Env] that
    answers as the analyses do there: identifiers named in [locals] are
    function parameters or locals ([func_user_<name>]), the others are state
    variables ([self->user_<name>]); none is held by pointer; integers,
    addresses and booleans are wrapped, by [Init_<type>]; every map is
    called [map_name]. It serves the worked examples only. *)

Module TestFixture.
Import CodeGen Solidity Runtime ExpressionConverter.

Definition ctype (t : Type_) : string :=
  match t with
  | AddressType _ => "sol_address_t"
  | IntegerType bits true => "sol_int" ++ Std.to_string bits ++ "_t"
  | IntegerType bits false => "sol_uint" ++ Std.to_string bits ++ "_t"
  | BoolType => "sol_bool_t"
  | _ => ""
  end.

Definition wrapped (t : Type_) : bool :=
  match category t with
  | Address | Integer | Bool => true
  | _ => false
  end.

Definition wrap (t : Type_) (e : CExpr) : CExpr :=
  if wrapped t then CFuncCall ("Init_" ++ ctype t) [e] else e.

Definition token_name (t : Token) : string :=
  match t with
  | Assign => "=" | AssignBitOr => "|=" | AssignBitXor => "^="
  | AssignBitAnd => "&=" | AssignShl => "<<=" | AssignSar => ">>="
  | AssignShr => ">>>=" | AssignAdd => "+=" | AssignSub => "-="
  | AssignMul => "*=" | AssignDiv => "/=" | AssignMod => "%="
  | Comma => "," | Or => "||" | And => "&&" | BitOr => "|" | BitXor => "^"
  | BitAnd => "&" | SHL => "<<" | SAR => ">>" | SHR => ">>>"
  | Add => "+" | Sub => "-" | Mul => "*" | Div => "/" | Mod => "%"
  | Exp => "**"
  | Equal => "==" | NotEqual => "!=" | LessThan => "<" | GreaterThan => ">"
  | LessThanOrEqual => "<=" | GreaterThanOrEqual => ">="
  | Not => "!" | BitNot => "~" | Inc => "++" | Dec => "--"
  | Delete => "delete"
  | TrueLiteral => "true" | FalseLiteral => "false"
  | Number => "Number" | StringLiteralToken => "StringLiteral"
  | OtherToken => ""
  end.

Definition to_binary_op (t : Token) : Token :=
  match t with
  | AssignBitOr => BitOr | AssignBitXor => BitXor | AssignBitAnd => BitAnd
  | AssignShl => SHL | AssignSar => SAR | AssignShr => SHR
  | AssignAdd => Add | AssignSub => Sub | AssignMul => Mul
  | AssignDiv => Div | AssignMod => Mod
  | _ => t
  end.

(** The identifier at the root of an expression. *)
Definition root_identifier (e : Expression) : option Identifier :=
  match e with
  | IdentifierExpr id => Some id
  | _ => None
  end.

Definition digit (c : ascii) : option Z :=
  let n := Z.of_nat (nat_of_ascii c) in
  if ((48 <=? n) && (n <=? 57))%Z then Some (n - 48)%Z else None.

Fixpoint read_digits (acc : Z) (s : string) : Z :=
  match s with
  | EmptyString => acc
  | String c s' =>
      match digit c with
      | Some d => read_digits (acc * 10 + d) s'
      | None => acc
      end
  end.

Definition outside (what : string)
  : Flags -> Expression -> CExpr -> Result CExpr :=
  fun _ _ _ => Throw what.

Definition env (locals : list string) (map_name : string) : Env :=
  {| get_name := fun _ => map_name;
     is_pointer := fun _ => false;
     resolve_identifier := fun id =>
       if existsb (String.eqb (id_name id)) locals
       then "func_user_" ++ id_name id
       else "self->user_" ++ id_name id;
     rewrite := fun name _ _ => "user_" ++ name;
     is_wrapped_type := wrapped;
     try_to_wrap := wrap;
     friendlyName := token_name;
     AssignmentToBinaryOp := to_binary_op;
     LValueSniffer_Identifier := root_identifier;
     NodeSniffer_Identifier := fun e _ => root_identifier e;
     magic_name := fun _ member => member;
     memberValue := fun _ _ => None;
     balance_member := "model_balance";
     address_member := "model_address";
     read_number := read_digits 0;
     hash_string := fun _ => 0%Z;
     struct_members := fun _ => None;
     print_method := outside "print_method";
     print_contract_ctor := outside "print_contract_ctor" |}%string.

(** The types and nodes of the test contracts. *)
Definition int256 : Type_ := IntegerType 256 true.
Definition uint256 : Type_ := IntegerType 256 false.
Definition rational : Type_ := RationalNumberType (Some (IntegerType 8 false)).
Definition number (digits : string) : Expression :=
  Literal rational Number digits NoSub.
Definition var (name : string) (t : Type_) : Expression :=
  IdentifierExpr (mkIdentifier name t).

(** [mapping(int => int) a; ... a[1]], of [map_assignment] *)
Definition a_1 : Expression :=
  IndexAccess int256 (var "a" (MappingType int256 int256)) (number "1").

(** [a[1] += 2] and [a[1] = 2] *)
Definition a_1_add_2 : Expression := Assignment int256 a_1 AssignAdd (number "2").
Definition a_1_is_2 : Expression := Assignment int256 a_1 Assign (number "2").

(** [function f() public returns (int a) { a = 5; }], of
    [named_function_retvars] *)
Definition a_is_5 : Expression :=
  Assignment int256 (var "a" int256) Assign (number "5").

(** [function f(address payable dst) public { dst.transfer(5);
    dst.send(10); }], of [payment_function_calls] *)
Definition dst : Expression := var "dst" (AddressType true).
Definition dst_transfer_5 : Expression :=
  FunctionCall TupleType FunctionCallKind_FunctionCall
    (MemberAccess (FunctionType Transfer) dst "transfer") [number "5"].
Definition dst_send_10 : Expression :=
  FunctionCall BoolType FunctionCallKind_FunctionCall
    (MemberAccess (FunctionType Send) dst "send") [number "10"].

(** [uint a; uint b; ... a >> b] *)
Definition a_sar_b : Expression :=
  BinaryOperation uint256 (var "a" uint256) SAR (var "b" uint256).

Definition top : Flags := mkFlags false false None.

End TestFixture.

(** ** codegen: the target statements *)

Module CodeGenStmt.
Import CodeGen.

(** The statement classes of [codegen/Details.h] as the generators build
    them; [CNullStmt] is a null [CStmtPtr]. A variable declaration without
    initial value has [init = CNull]. *)
Inductive CStmt : Type :=
| CNullStmt
| CVarDecl (type name : string) (is_pointer : bool) (init : CExpr)
| CExprStmt (expr : CExpr)
| CIf (cond : CExpr) (tcase fcase : CStmt)
| CBlock (stmts : list CStmt)
| CWhileLoop (body : CStmt) (cond : CExpr) (is_do_while : bool)
| CSwitch (cond : CExpr) (default_case : list CStmt)
          (cases : list (nat * list CStmt))
| CBreak
| CReturn (retval : CExpr).

Definition CBlockList : Type := list CStmt.

Record CFuncDef : Type := mkCFuncDef {
  fd_id : CStmt;
  fd_params : list CStmt;
  fd_body : CStmt
}.

(** A declared variable: [CVarDecl(type, name)] and its [id()]. *)
Record Var : Type := mkVar {
  var_type : string;
  var_name : string;
  var_is_pointer : bool
}.

Definition decl (v : Var) : CStmt :=
  CVarDecl (var_type v) (var_name v) (var_is_pointer v) CNull.

Definition id (v : Var) : CExpr := CIdentifier (var_name v) (var_is_pointer v).

(** [expr->stmt()] *)
Definition stmt (e : CExpr) : CStmt := CExprStmt e.

(** [CSwitch::size()] and [CSwitch::add_case(label, body)] on the list of
    cases of a switch. *)
Definition size (cases : list (nat * CBlockList)) : nat := length cases.

Definition add_case (cases : list (nat * CBlockList)) (label : nat)
           (body : CBlockList) : list (nat * CBlockList) :=
  cases ++ [(label, body)].

(** The cases are numbered from 0 in the order of their insertion. *)
Definition numbered (cases : list (nat * CBlockList)) : Prop :=
  map fst cases = seq 0 (length cases).

(** *** The control flow of an emitted switch

    Modelled from the spec: the meaning of an emitted [switch], which lies
    with the target compiler ("Switch on [next_call] to one case per (actor
    x exposed-function); the chosen case logs the call, ... and invokes the
    method"). As in C, control enters at the first case whose label is the
    value, or at the default label if no case has it; it runs the statements
    in their order, falls from the end of a case into the case after it, and
    from the last case into the default, which is taken to come after the
    cases; it leaves the switch at a [break]. Only a [break] that is itself
    a statement of the case counts: a case with no such statement is taken
    to fall through. *)

(** The statements of a case up to its first [break], and whether there is
    one. *)
Fixpoint until_break (body : CBlockList) : CBlockList * bool :=
  match body with
  | [] => ([], false)
  | CBreak :: _ => ([], true)
  | c :: body' =>
      let (run, broke) := until_break body' in (c :: run, broke)
  end.

(** The cases from the first one with the label [v] on. *)
Fixpoint enter (cases : list (nat * CBlockList)) (v : nat)
  : option (list (nat * CBlockList)) :=
  match cases with
  | [] => None
  | c :: cases' => if fst c =? v then Some cases else enter cases' v
  end.

(** The statements run from the start of the given cases on, and whether
    control comes to the default case. *)
Fixpoint flow (default_case : CBlockList) (cases : list (nat * CBlockList))
  : CBlockList * bool :=
  match cases with
  | [] => (default_case, true)
  | c :: cases' =>
      let (run, broke) := until_break (snd c) in
      if broke then (run, false)
      else let (more, in_default) := flow default_case cases' in
           (run ++ more, in_default)
  end.

(** The run of a switch on the value [v]. *)
Definition switch_run (default_case : CBlockList)
           (cases : list (nat * CBlockList)) (v : nat) : CBlockList * bool :=
  match enter cases v with
  | Some entered => flow default_case entered
  | None => (default_case, true)
  end.

End CodeGenStmt.

(** ** scheduler/MainFunction.cpp *)

Module MainFunctionGenerator.
Import CodeGen CodeGenStmt Runtime.

(** What [build_case] reads of a [FunctionSpecialization]: [name(0)], and
    of [func()] the name, [isPayable()], the types of the return
    parameters, and for each parameter its name, its type and the value
    that [m_nd_reg->val] for the argument builds for it. *)
Record Parameter_ : Type := mkParameter {
  param_name : string;
  param_type : string;
  param_nd : CExpr
}.

Record FunctionSpecialization : Type := mkSpec {
  spec_name0 : string;
  func_name : string;
  isPayable : bool;
  returnParameters : list string;
  parameters : list Parameter_
}.

(** An actor of [m_actors.inspect()]: its declaration and its
    specializations. *)
Record Actor : Type := mkActor {
  actor_decl : Var;
  specs : list FunctionSpecialization
}.

(** [MapData] with, of [entry], the number of key types and the value
    built by [m_nd_reg->val] for the value type and the message [MSG]. *)
Record MapData : Type := mkMapData {
  map_id : nat;
  path : CExpr;
  key_types_size : nat;
  value_nd : string -> CExpr;
  display : string
}.

(** The generator with the parts of its collaborators that [print_main]
    uses: the blocks pushed by the state generator, the actor model and the
    address space, the arguments pushed by [push_state_to], the statements
    of [LibVerify], and the range expression of the registry. *)
Record t : Type := mk {
  actors : list Actor;
  m_maps : list MapData;
  invar_type_is_universal : bool;
  addresses_count : nat;
  addresses_implicit_count : nat;
  stategen_declare : CBlockList;
  stategen_update_global : CBlockList;
  stategen_update_local : CBlockList;
  stategen_pay : CBlockList;
  actors_declare : CBlockList;
  map_constants : CBlockList;
  assign_addresses : CBlockList;
  initialize : CBlockList;
  push_state_to : list CExpr;
  add_require : CExpr -> string -> CStmt;
  add_require_nomsg : CExpr -> CStmt;
  log : string -> CStmt;
  nd_range : nat -> nat -> string -> CExpr
}.

Section Generator.
Variable G : t.
Local Open Scope string_scope.
Local Open Scope list_scope.

(** [log_call] *)
Definition log_call (_id : CExpr) (_call : FunctionSpecialization) : CStmt :=
  let names :=
    map (fun p => if String.eqb (param_name p) "" then "0" else param_name p)
        (parameters _call) in
  let id_text := match _id with CIdentifier n _ => n | _ => "" end in
  log G ("[Calling " ++ func_name _call ++ "(" ++ String.concat ", " names
         ++ ") on " ++ id_text ++ "]")%string.

(** The outputs declared for the return parameters after the first:
    [rv_<i>] for [i = 1 ..]. *)
Fixpoint outputs (i : nat) (rvs : list string) : list Var :=
  match rvs with
  | [] => []
  | type :: rvs' => mkVar type ("rv_" ++ Std.to_string i)%string false
                    :: outputs (S i) rvs'
  end.

(** The inputs declared for the parameters; unnamed ones are numbered
    [placeholder_<n>] and left without a value. *)
Fixpoint inputs (placeholder_count : nat) (args : list Parameter_)
  : list (Var * CExpr) :=
  match args with
  | [] => []
  | arg :: args' =>
      if String.eqb (param_name arg) ""
      then (mkVar (param_type arg)
                  ("placeholder_" ++ Std.to_string placeholder_count)%string
                  false, CNull)
           :: inputs (S placeholder_count) args'
      else (mkVar (param_type arg) ("arg_" ++ param_name arg)%string false,
            param_nd arg)
           :: inputs placeholder_count args'
  end.

(** [build_case] *)
Definition build_case (_spec : FunctionSpecialization) (_id : Var) : CBlockList :=
  let id_ := if var_is_pointer _id then id _id else CReference (id _id) in
  let outs := outputs 1 (tl (returnParameters _spec)) in
  let ins := inputs 0 (parameters _spec) in
  [log_call (id _id) _spec]
  ++ stategen_update_local G
  ++ (if isPayable _spec then stategen_pay G else [])
  ++ map decl outs
  ++ map (fun i => CVarDecl (var_type (fst i)) (var_name (fst i)) false (snd i)) ins
  ++ [stmt (CFuncCall (spec_name0 _spec)
              ([id_] ++ push_state_to G
               ++ map (fun o => CReference (id o)) outs
               ++ map (fun i => id (fst i)) ins));
      log G "[Call successful]";
      CBreak].

(** [apply_invariant] with [_assert = false], as [expand_interference]
    calls it. *)
Definition apply_invariant (_data : CExpr) (_map : MapData) : CStmt :=
  add_require_nomsg G
    (CFuncCall ("Inv_" ++ Std.to_string (map_id _map))%string [_data]).

(** [expand_interference] *)
Definition expand_interference : CBlockList :=
  flat_map
    (fun map =>
       let offset :=
         if negb (invar_type_is_universal G)
         then addresses_implicit_count G else 0 in
       let WIDTH := addresses_count G in
       let DEPTH := key_types_size map in
       let body (indices : KeyIterator.t) : CBlockList :=
         if KeyIterator.is_full indices then
           let FIELD := ("data" ++ KeyIterator.suffix indices)%string in
           let DATA := CMemberAccess (path map) FIELD in
           let MSG := (display map ++ "::" ++ KeyIterator.suffix indices)%string in
           let ND := value_nd map MSG in
           [stmt (assign DATA ND); apply_invariant DATA map]
         else [] in
       match KeyIterator.do_while body (KeyIterator.enough WIDTH DEPTH offset)
                                  (KeyIterator.create WIDTH DEPTH offset) with
       | Some block => block
       | None => []
       end)
    (m_maps G).

Definition next_case : Var := mkVar "uint8_t" "next_call" false.

Definition default_case : CBlockList :=
  [add_require G ZERO "Model failure, next_call out of bounds."].

(** The loop of [print_main] over the actors and their specializations: it
    threads the cases of the switch and [case_count]. *)
Definition add_actor (state : list (nat * CBlockList) * nat) (actor : Actor)
  : list (nat * CBlockList) * nat :=
  fold_left
    (fun state spec =>
       let call_body := build_case spec (actor_decl actor) in
       (add_case (fst state) (size (fst state)) call_body, snd state + 1))
    (specs actor) state.

Definition collect_cases : list (nat * CBlockList) * nat :=
  fold_left add_actor (actors G) ([], 0).

(** [print_main]: the function definition that is written to the stream,
    or the [runtime_error]. *)
Definition print_main : Result CFuncDef :=
  let (call_cases, case_count) := collect_cases in
  if (case_count =? 0)%nat
  then Throw "Bundle has no public or external calls."
  else
    let main :=
      stategen_declare G ++ actors_declare G ++ map_constants G
      ++ assign_addresses G ++ initialize G in
    let transactionals :=
      [stmt (CFuncCall "sol_on_transaction" []);
       CIf (CFuncCall "sol_is_using_reps" []) (CBlock expand_interference)
           CNullStmt]
      ++ stategen_update_global G
      ++ [decl next_case;
          stmt (assign (id next_case) (nd_range G 0 (size call_cases) "next_call"));
          CSwitch (id next_case) default_case call_cases] in
    let main :=
      main ++ [log G "[Entering transaction loop]";
               CWhileLoop (CBlock transactionals)
                          (CFuncCall "sol_continue" []) false] in
    Ok (mkCFuncDef (decl (mkVar "void" "run_model" false)) [] (CBlock main)).

(** The (actor, function) pairs of the model. *)
Definition pairs : list (Actor * FunctionSpecialization) :=
  flat_map (fun actor => map (pair actor) (specs actor)) (actors G).

(** The values that [next_call] can hold after its assignment: a value of
    [nd_range(0, n, ...)], that is one of [0 .. n - 1], stored in a
    [uint8_t]. *)
Definition next_call_value (v : nat) : nat := v mod 256.

(** The body of the transaction loop of an emitted [run_model], and the
    switch that ends it. *)
Definition loop_body (f : CFuncDef) : option CBlockList :=
  match fd_body f with
  | CBlock main =>
      match last main CNullStmt with
      | CWhileLoop (CBlock transactionals) _ _ => Some transactionals
      | _ => None
      end
  | _ => None
  end.

Definition switch_of (f : CFuncDef)
  : option (CBlockList * list (nat * CBlockList)) :=
  match loop_body f with
  | Some transactionals =>
      match last transactionals CNullStmt with
      | CSwitch _ default_ cases => Some (default_, cases)
      | _ => None
      end
  | None => None
  end.

End Generator.

End MainFunctionGenerator.


(** A small model for the worked examples of the harness: one actor
    [contract_0] with the two methods [f()] and [g(int a)]. *)
Module HarnessFixture.
Import CodeGen CodeGenStmt MainFunctionGenerator.
Local Open Scope string_scope.

Definition f : FunctionSpecialization := mkSpec "Method_A_Funcf" "f" false [] [].
Definition g : FunctionSpecialization :=
  mkSpec "Method_A_Funcg" "g" true []
    [mkParameter "a" "sol_int256_t"
       (CFuncCall "Init_sol_int256_t" [CFuncCall "nd_int256_t" [CStringLiteral "a"]])].

Definition contract_0 : Actor := mkActor (mkVar "struct A" "contract_0" false) [f; g].

Definition call (name : string) (args : list CExpr) : CStmt :=
  CExprStmt (CFuncCall name args).

(** [mapping(address => int) balances] of [contract_0]. *)
Definition balances : MapData :=
  mkMapData 0 (CMemberAccess (CIdentifier "contract_0" false) "user_balances")
            1 (fun msg => CFuncCall "nd_int256_t" [CStringLiteral msg])
            "A::balances".

Definition model (actors : list Actor) : MainFunctionGenerator.t :=
  {| actors := actors;
     m_maps := [balances];
     invar_type_is_universal := false;
     addresses_count := 3;
     addresses_implicit_count := 1;
     stategen_declare := [];
     stategen_update_global := [];
     stategen_update_local := [];
     stategen_pay := [];
     actors_declare := [];
     map_constants := [];
     assign_addresses := [];
     initialize := [];
     push_state_to := [];
     add_require := fun cond msg => call "sol_require" [cond; CStringLiteral msg];
     add_require_nomsg := fun cond => call "sol_require" [cond; ZERO];
     log := fun msg => call "sol_log" [CStringLiteral msg];
     nd_range := fun lo hi msg =>
       CFuncCall "nd_range"
         [CIntLiteral (Z.of_nat lo); CIntLiteral (Z.of_nat hi); CStringLiteral msg]
  |}.

End HarnessFixture.

(** ** harness/StateGenerator.cpp *)

Module StateGenerator.
Import CodeGen CodeGenStmt Solidity.
Local Open Scope string_scope.
Local Open Scope list_scope.

(** [CallStateUtilities::Field] *)
Inductive Field : Type := Sender | Value | Block | Timestamp | Paid | Origin.

(** An entry of [m_statedata.order()]. *)
Record FieldData : Type := mkField {
  field : Field;
  name : string;
  tname : string;
  type : Type_
}.

(** The generator: its flag, the order of the call state, and of the
    [MapIndexSummary] [m_addrdata] the number of contracts, the size of the
    address space and the address literals. *)
Record t : Type := mk {
  M_USE_LOCKSTEP_TIME : bool;
  order : list FieldData;
  contract_count : nat;
  size : nat;
  literals : list nat
}.

(** Modelled from the spec: [CallState::order()], whose class is outside
    the sources. "A fixed-shape record with the ordered fields [sender],
    [value], [blocknum], [timestamp], [paid], [origin]", "all wrapped
    scalars except [paid] which is a wrapped boolean". *)
Definition callstate_order : list FieldData :=
  [mkField Sender "sender" "sol_address_t" (AddressType true);
   mkField Value "value" "sol_uint256_t" (IntegerType 256 false);
   mkField Block "blocknum" "sol_uint256_t" (IntegerType 256 false);
   mkField Timestamp "timestamp" "sol_uint256_t" (IntegerType 256 false);
   mkField Paid "paid" "sol_bool_t" BoolType;
   mkField Origin "origin" "sol_address_t" (AddressType true)].

(** Modelled from the spec: the expressions built by
    [HarnessUtilities::range], [HarnessUtilities::increase] and
    [TypeConverter::raw_simple_nd], which are outside the sources: calls of
    the primitives of the verifier, [nd_range(lo, hi, msg)] for a value in
    [lo, hi), a call for a value that does not lie below the current one
    ("monotone non-decreasing", "strict" on demand), and [nd_<type>(msg)]
    for any value of a type. *)
Definition range (lo hi : nat) (msg : string) : CExpr :=
  CFuncCall "nd_range"
    [CIntLiteral (Z.of_nat lo); CIntLiteral (Z.of_nat hi); CStringLiteral msg].

Definition increase (curr : CExpr) (strict : bool) (msg : string) : CExpr :=
  CFuncCall "nd_increase"
    [curr; if strict then ONE else ZERO; CStringLiteral msg].

Definition raw_name (t : Type_) : string :=
  match t with
  | IntegerType bits true => "int" ++ Std.to_string bits ++ "_t"
  | IntegerType bits false => "uint" ++ Std.to_string bits ++ "_t"
  | BoolType => "uint8_t"
  | _ => "int32_t"
  end%string.

Definition raw_simple_nd (t : Type_) (msg : string) : CExpr :=
  CFuncCall ("nd_" ++ raw_name t)%string [CStringLiteral msg].

Definition M_STEPVAR : Var := mkVar "uint8_t" "take_step" false.

Section Generator.
Variable G : t.

(** The body of the loop of [declare] for one field. *)
Definition declare_field (fld : FieldData) : CBlockList :=
  let DECL := mkVar (tname fld) (name fld) false in
  decl DECL ::
  match field fld with
  | Block | Timestamp =>
      if M_USE_LOCKSTEP_TIME G then
        let nd := raw_simple_nd (type fld) (name fld) in
        [stmt (assign (access (id DECL) "v") nd)]
      else [stmt (assign (access (id DECL) "v") ZERO)]
  | Paid => [stmt (assign (access (id DECL) "v") ONE)]
  | _ => []
  end.

(** [declare] *)
Definition declare : CBlockList :=
  (if M_USE_LOCKSTEP_TIME G then [decl M_STEPVAR] else [])
  ++ flat_map declare_field (order G).

(** The lower bound of the senders: the first address after the
    contracts, and after address 0 if that is a literal. *)
Definition minaddr : nat :=
  contract_count G + (if existsb (Nat.eqb 0) (literals G) then 1 else 0).

(** The body of the loop of [update] for one field. The last branch of the
    source, for a field of no other kind, has no field to apply to. *)
Definition update_field (fld : FieldData) : CBlockList :=
  let state := CIdentifier (name fld) false in
  match field fld with
  | Paid => []
  | Origin => []
  | Block | Timestamp =>
      let step :=
        stmt (assign (access state "v")
                (increase (access state "v") (M_USE_LOCKSTEP_TIME G) (name fld))) in
      if M_USE_LOCKSTEP_TIME G
      then [CIf (id M_STEPVAR) (CBlock [step]) CNullStmt]
      else [step]
  | Value => [stmt (assign (access state "v") ZERO)]
  | Sender =>
      let maxaddr := size G in
      let ndaddr := range minaddr maxaddr (name fld) in
      [stmt (assign (access state "v") ndaddr)]
  end.

(** [update] *)
Definition update : CBlockList :=
  (if M_USE_LOCKSTEP_TIME G
   then [stmt (assign (id M_STEPVAR) (range 0 2 "take_step"))]
   else [])
  ++ flat_map update_field (order G).

(** [pay] *)
Definition pay : CBlockList :=
  let VAL_NAME := "value" in
  let VAL_TYPE := IntegerType 256 false in
  let nd := raw_simple_nd VAL_TYPE VAL_NAME in
  let state := CIdentifier VAL_NAME false in
  [stmt (assign (access state "v") nd)].

End Generator.

(** *** Running the emitted statements

    Modelled from the spec: the meaning of the emitted statements, which
    lies with the target compiler and the verifier ("the verifier exposes
    [require], [assert], [log], non-deterministic value, and address range
    primitives"). The variables of the harness hold integers: a store gives
    the value of [x], which for a wrapped variable is [x.v]. The
    non-deterministic primitives take their values from a list of choices;
    a choice that a primitive does not accept ends the run, as a failed
    [require] does: [nd_range(lo, hi)] accepts the values of [lo, hi), the
    increase of a value accepts what does not lie below it, or what lies
    above it when strict. *)
Definition Store : Type := string -> Z.

Definition set (s : Store) (x : string) (z : Z) : Store :=
  fun y => if String.eqb y x then z else s y.

Definition cell (e : CExpr) : option string :=
  match e with
  | CIdentifier x _ => Some x
  | CMemberAccess (CIdentifier x _) member =>
      if String.eqb member "v" then Some x else None
  | _ => None
  end.

Definition choose (accepts : Z -> bool) (nd : list Z) : option (Z * list Z) :=
  match nd with
  | v :: nd' => if accepts v then Some (v, nd') else None
  | [] => None
  end.

Fixpoint eval (e : CExpr) (s : Store) (nd : list Z) {struct e}
  : option (Z * list Z) :=
  match e with
  | CIntLiteral z => Some (z, nd)
  | CIdentifier x _ => Some (s x, nd)
  | CMemberAccess (CIdentifier x _) member =>
      if String.eqb member "v" then Some (s x, nd) else None
  | CFuncCall "nd_range" [CIntLiteral lo; CIntLiteral hi; CStringLiteral _] =>
      choose (fun v => (lo <=? v) && (v <? hi))%Z nd
  | CFuncCall "nd_increase" [curr; CIntLiteral strict; CStringLiteral _] =>
      match eval curr s nd with
      | Some (c, nd') =>
          choose (fun v => if (strict =? 0)%Z then (c <=? v)%Z else (c <? v)%Z) nd'
      | None => None
      end
  | CFuncCall _ [CStringLiteral _] => choose (fun _ => true) nd
  | _ => None
  end.

Fixpoint exec (c : CStmt) (s : Store) (nd : list Z) {struct c}
  : option (Store * list Z) :=
  match c with
  | CNullStmt => Some (s, nd)
  | CVarDecl _ x _ CNull => Some (s, nd)
  | CVarDecl _ x _ init =>
      match eval init s nd with
      | Some (z, nd') => Some (set s x z, nd')
      | None => None
      end
  | CExprStmt (CBinaryOp lhs "=" rhs) =>
      match cell lhs, eval rhs s nd with
      | Some x, Some (z, nd') => Some (set s x z, nd')
      | _, _ => None
      end
  | CIf cond tcase fcase =>
      match eval cond s nd with
      | Some (b, nd') => if (b =? 0)%Z then exec fcase s nd' else exec tcase s nd'
      | None => None
      end
  | CBlock stmts =>
      (fix run (l : list CStmt) (s : Store) (nd : list Z) :=
         match l with
         | [] => Some (s, nd)
         | c' :: l' =>
             match exec c' s nd with
             | Some (s', nd') => run l' s' nd'
             | None => None
             end
         end) stmts s nd
  | _ => None
  end.

Definition exec_block (l : CBlockList) (s : Store) (nd : list Z)
  : option (Store * list Z) :=
  exec (CBlock l) s nd.

(** [n] iterations of the emitted update, one after the other. *)
Fixpoint updates (G : t) (n : nat) (s : Store) (nd : list Z)
  : option (Store * list Z) :=
  match n with
  | 0 => Some (s, nd)
  | S n' =>
      match exec_block (update G) s nd with
      | Some (s', nd') => updates G n' s' nd'
      | None => None
      end
  end.

(** A generator over the call state of the specification. *)
Definition over_callstate (lockstep : bool) (contracts addresses : nat)
           (literals : list nat) : t :=
  mk lockstep callstate_order contracts addresses literals.

Definition zero : Store := fun _ => 0%Z.

End StateGenerator.

(** ** model/Block.h: the modifier chain

    [Block.h] declares [ModifierBlockConverter] and its [Factory]; their
    bodies are outside the translated sources. *)

Module ModifierBlockConverter.
Import CodeGen CodeGenStmt.
Local Open Scope string_scope.
Local Open Scope list_scope.

(** The statements of a modifier body. Expressions and conditions stand as
    the expression converter leaves them. *)
Inductive Statement : Type :=
| PlaceholderStatement
| Return
| ExpressionStatement (expr : CExpr)
| Block (stmts : list Statement)
| IfStatement (cond : CExpr) (tcase fcase : Statement)
| WhileStatement (cond : CExpr) (body : Statement).

(** A modifier invocation of a function: it resolves to a
    [ModifierDefinition], whose body is given, or it names the constructor
    of a base contract. *)
Record ModifierInvocation : Type := mkInvocation {
  invocation_name : string;
  definition : option (list Statement)
}.

(** A function: its modifier invocations, the type of its return value if
    it has one, and the arguments with which its chain is called. *)
Record FunctionDefinition : Type := mkFunction {
  modifiers : list ModifierInvocation;
  return_type : option string;
  chain_args : list CExpr
}.

(** Modelled from the spec: [ModifierBlockConverter::Factory], whose
    constructor is outside the sources. "Constructor-call pseudo-modifiers
    (modifier-invocation syntax naming a parent constructor) are filtered
    out during modifier discovery and do not produce wrappers." *)
Record Factory : Type := mkFactory {
  m_func : FunctionDefinition;
  m_name : string;
  m_filtered_mods : list (list Statement)
}.

Fixpoint filter_mods (l : list ModifierInvocation) : list (list Statement) :=
  match l with
  | [] => []
  | inv :: l' =>
      match definition inv with
      | Some body => body :: filter_mods l'
      | None => filter_mods l'
      end
  end.

Definition make (_func : FunctionDefinition) (_name : string) : Factory :=
  mkFactory _func _name (filter_mods (modifiers _func)).

(** [len()] and [empty()] *)
Definition len (F : Factory) : nat := length (m_filtered_mods F).
Definition empty (F : Factory) : bool :=
  match m_filtered_mods F with [] => true | _ => false end.

(** Modelled from the spec: the names of the chain,
    "[Method_C_Funcf(self,state,args)] -> [Method_C_Funcf_mod0(...)] ->
    [Method_C_Funcf_mod1(...)] -> [Method_C_Funcf_base(...)]". *)
Definition modifier_function (F : Factory) (i : nat) : string :=
  (m_name F ++ "_mod" ++ Std.to_string i)%string.

Definition base_function (F : Factory) : string := (m_name F ++ "_base")%string.

(** Modelled from the spec: [M_NEXT_CALL] of the [_i]-th converter, "the
    next modifier in the chain, which for the last modifier is the base
    body function". *)
Definition next_call (F : Factory) (_i : nat) : string :=
  if (S _i <? len F)%nat then modifier_function F (S _i) else base_function F.

(** The holder of the return value, [func_model_rv], when the function
    returns a value. *)
Definition m_rv (F : Factory) : option Var :=
  option_map (fun type => mkVar type "func_model_rv" false)
             (return_type (m_func F)).

(** Modelled from the spec: [endVisit(PlaceholderStatement)]: "the
    placeholder statement [_;] inside a modifier is lowered into a call to
    the next modifier in the chain"; with a return value the call is
    assigned to the holder. *)
Definition lower_placeholder (F : Factory) (next : string) : CExpr :=
  let call := CFuncCall next (chain_args (m_func F)) in
  match m_rv F with
  | Some rv => assign (id rv) call
  | None => call
  end.

(** Modelled from the spec: [visit(Return)] of the modifier converter:
    "return the holder". *)
Definition lower_return (F : Factory) : CStmt :=
  match m_rv F with
  | Some rv => CReturn (id rv)
  | None => CReturn CNull
  end.

(** The statements of a modifier body, lowered one by one. *)
Fixpoint lower (F : Factory) (next : string) (s : Statement) : CStmt :=
  match s with
  | PlaceholderStatement => stmt (lower_placeholder F next)
  | Return => lower_return F
  | ExpressionStatement e => stmt e
  | Block stmts => CBlock (map (lower F next) stmts)
  | IfStatement cond tcase fcase =>
      CIf cond (lower F next tcase) (lower F next fcase)
  | WhileStatement cond body => CWhileLoop (lower F next body) cond false
  end.

(** [enter]: the declaration of the holder. *)
Definition enter (F : Factory) : CBlockList :=
  match m_rv F with
  | Some rv => [decl rv]
  | None => []
  end.

(** [generate(_i, ...).convert()]: the body of the function of the [_i]-th
    modifier, if there is one. *)
Definition generate (F : Factory) (_i : nat) : option CStmt :=
  match nth_error (m_filtered_mods F) _i with
  | Some body =>
      Some (CBlock (enter F ++ map (lower F (next_call F _i)) body))
  | None => None
  end.

(** Modelled from the spec: the exported method. "For a function with no
    modifiers, the exported method is the base body. For a function with n
    modifiers, the exported method wraps the first modifier." *)
Inductive MethodBody : Type :=
| BaseBody
| Wraps (callee : string).

Definition exported_method (F : Factory) : string * MethodBody :=
  (m_name F, if empty F then BaseBody else Wraps (modifier_function F 0)).

(** The functions of the chain, in the order of the calls. *)
Definition chain (F : Factory) : list string :=
  if empty F then [m_name F]
  else m_name F :: map (modifier_function F) (seq 0 (len F))
       ++ [base_function F].

(** The expression statements of a modifier body in their order, [None]
    standing for a placeholder; and those of the lowered code. *)
Fixpoint source_events (s : Statement) : list (option CExpr) :=
  match s with
  | PlaceholderStatement => [None]
  | Return => []
  | ExpressionStatement e => [Some e]
  | Block stmts => flat_map source_events stmts
  | IfStatement _ tcase fcase => source_events tcase ++ source_events fcase
  | WhileStatement _ body => source_events body
  end.

Fixpoint target_events (c : CStmt) : list CExpr :=
  match c with
  | CExprStmt e => [e]
  | CBlock stmts => flat_map target_events stmts
  | CIf _ tcase fcase => target_events tcase ++ target_events fcase
  | CWhileLoop body _ _ => target_events body
  | _ => []
  end.

(** The function that a lowered placeholder calls. *)
Definition callee (e : CExpr) : option string :=
  match e with
  | CFuncCall f _ => Some f
  | CBinaryOp _ _ (CFuncCall f _) => Some f
  | _ => None
  end.

(** The modifiers [modA] and [modB] and the function [f] of the test
    [modifier_nesting]. *)
Definition modA : list Statement :=
  [PlaceholderStatement; PlaceholderStatement; Return].
Definition modB : list Statement := [PlaceholderStatement; Return].
Definition test_args : list CExpr :=
  [CIdentifier "self" true; CIdentifier "sender" false;
   CIdentifier "value" false; CIdentifier "blocknum" false;
   CIdentifier "timestamp" false; CFuncCall "Init_sol_bool_t" [ZERO];
   CIdentifier "origin" false].
Definition test_f : Factory :=
  make (mkFunction [mkInvocation "modA" (Some modA);
                    mkInvocation "modB" (Some modB)] None test_args)
       "Method_A_Funcf".

End ModifierBlockConverter.


(** ** translation/Expression.cpp: what the printers accept

    The calls and casts for which the printers have a branch that does not
    end in a [runtime_error]; they serve the statements about the failures
    of the converter. *)

Module ExpressionSupport.
Import CodeGen Solidity Runtime ExpressionConverter.

(** The pairs of an operand type and a target type for which [print_cast]
    has a branch that sets [m_subexpr]. *)
Definition cast_supported (base_type cast_type : Type_) : bool :=
  match base_type, cast_type with
  | AddressType _, IntegerType _ _ => true
  | AddressType _, AddressType _ => true
  | IntegerType _ _, IntegerType _ _ => true
  | IntegerType _ _, AddressType _ => true
  | BoolType, BoolType => true
  | ContractType _, AddressType _ => true
  | _, _ => false
  end.

(** The kinds of called function for which [print_function] has a printer. *)
Definition kind_supported (kind : Kind) : bool :=
  match kind with
  | Internal | External | BareCall | BareStaticCall
  | Creation | Send | Transfer | Assert | Require | MetaType => true
  | _ => false
  end.

(** The categories of base expression for which [visit(MemberAccess)] has
    a printer that can set [m_subexpr]. *)
Definition member_base_supported (c : Category) : bool :=
  match c with
  | Address | Contract | Struct | Magic | TypeType_ => true
  | _ => false
  end.

(** The expressions whose visitor builds a node of its own, whatever it
    finds in [m_subexpr]: all but the empty tuple and the [MetaType] call,
    which leave [m_subexpr] as it is, the calls that go to [print_method]
    and [print_contract_ctor], and what hands on the result of one of
    these: a tuple of one component, a cast, and the assignment to a
    contract variable. *)
Fixpoint builds_node (E : Env) (e : Expression) {struct e} : bool :=
  match e with
  | TupleExpression _ _ [component] => builds_node E component
  | TupleExpression _ _ _ => false
  | Assignment _ leftHandSide _ rightHandSide =>
      if match LValueSniffer_Identifier E leftHandSide with
         | Some id => is_Contract (id_type id)
         | None => false
         end
      then builds_node E rightHandSide
      else true
  | FunctionCall _ KIND expression arguments =>
      match KIND with
      | FunctionCallKind_FunctionCall =>
          match annotation_type expression with
          | FunctionType (Send | Transfer | Assert | Require) => true
          | _ => false
          end
      | TypeConversion =>
          match arguments with
          | [BASE_EXPR] => builds_node E BASE_EXPR
          | _ => false
          end
      | StructConstructorCall => true
      | Unset => false
      end
  | _ => true
  end.

(** The expressions that reach neither [print_method] nor
    [print_contract_ctor] with the flags of the converter: no call of an
    internal, external or bare function and no contract creation, but in
    the arguments that are pushed, which are converted by converters of
    their own. *)
Fixpoint no_printed_call (e : Expression) {struct e} : bool :=
  match e with
  | Conditional _ condition trueExpression falseExpression =>
      no_printed_call condition && no_printed_call trueExpression
      && no_printed_call falseExpression
  | Assignment _ leftHandSide _ rightHandSide =>
      no_printed_call leftHandSide && no_printed_call rightHandSide
  | TupleExpression _ _ [component] => no_printed_call component
  | UnaryOperation _ _ _ subExpression => no_printed_call subExpression
  | BinaryOperation _ leftExpression _ rightExpression =>
      no_printed_call leftExpression && no_printed_call rightExpression
  | FunctionCall _ KIND expression arguments =>
      match KIND with
      | FunctionCallKind_FunctionCall =>
          match annotation_type expression with
          | FunctionType (Internal | External | BareCall | BareStaticCall
                         | Creation) => false
          | _ => true
          end
      | TypeConversion =>
          match arguments with
          | [BASE_EXPR] => no_printed_call BASE_EXPR
          | _ => true
          end
      | _ => true
      end
  | MemberAccess _ expression _ => no_printed_call expression
  | _ => true
  end.

(** For the worked examples: an answer of [LValueSniffer<Identifier>],
    whose code is outside the sources. "Finds base identifier", says
    [visit(Assignment)] of it: the identifier at the root of the l-value,
    below its index and member accesses. The statements hold for every
    sniffer; this one serves their witnesses. *)
Fixpoint lvalue_root (e : Expression) {struct e} : option Identifier :=
  match e with
  | IdentifierExpr id => Some id
  | IndexAccess _ baseExpression _ => lvalue_root baseExpression
  | MemberAccess _ expression _ => lvalue_root expression
  | TupleExpression _ _ [component] => lvalue_root component
  | _ => None
  end.

(** An environment with that sniffer, in which the identifiers of the given
    names are storage pointers. *)
Definition with_lvalue_root (E : Env) (pointers : list string) : Env :=
  mkEnv (get_name E)
        (fun id => existsb (String.eqb (id_name id)) pointers)
        (resolve_identifier E) (rewrite E)
        (is_wrapped_type E) (try_to_wrap E) (friendlyName E)
        (AssignmentToBinaryOp E) lvalue_root
        (NodeSniffer_Identifier E) (magic_name E) (memberValue E)
        (balance_member E) (address_member E) (read_number E)
        (hash_string E) (struct_members E) (print_method E)
        (print_contract_ctor E).

(** An environment in which the identifiers refer to struct definitions
    with the given members; it serves the worked examples. *)
Definition with_struct_members (E : Env)
           (members : Identifier -> option (list Type_)) : Env :=
  mkEnv (get_name E) (is_pointer E) (resolve_identifier E) (rewrite E)
        (is_wrapped_type E) (try_to_wrap E) (friendlyName E)
        (AssignmentToBinaryOp E) (LValueSniffer_Identifier E)
        (NodeSniffer_Identifier E) (magic_name E) (memberValue E)
        (balance_member E) (address_member E) (read_number E)
        (hash_string E) members (print_method E) (print_contract_ctor E).

End ExpressionSupport.

(** ** scheduler/MainFunction.cpp: the maps of the model and their invariants *)

Module MapDiscovery.
Import CodeGen CodeGenStmt Runtime MainFunctionGenerator.
Local Open Scope string_scope.
Local Open Scope list_scope.

(** What [MapData] keeps of an entry of the map database: the number of
    its key types and the value built by [m_nd_reg->val] for its value
    type. *)
Record Entry : Type := mkEntry {
  key_types : nat;
  entry_value_nd : string -> CExpr
}.

(** A state variable or a field of a structure, as [identify_maps] asks
    about it: [find_structure] gives a record with its fields, or
    [map_db().resolve] gives an entry, or neither does. *)
Inductive VariableDeclaration : Type :=
| StructVariable (name : string) (fields : list VariableDeclaration)
| MapVariable (name : string) (entry : Entry)
| OtherVariable (name : string).

Definition decl_name (_decl : VariableDeclaration) : string :=
  match _decl with
  | StructVariable name _ | MapVariable name _ | OtherVariable name => name
  end.

(** An actor of [m_actors.inspect()] with its contract: the name of the
    contract and its state variables. *)
Record Deployed : Type := mkDeployed {
  deployed_decl : Var;
  contract_name : string;
  state_variables : list VariableDeclaration
}.

Section Discovery.
(** [VariableScopeResolver::rewrite] *)
Variable rewrite : string -> bool -> ExpressionConverter.VarContext -> string.

(** [identify_maps]: [m_maps] goes in and comes out. *)
Fixpoint identify_maps (_path : CExpr) (_display : string)
         (_decl : VariableDeclaration) (m_maps : list MapData)
         {struct _decl} : list MapData :=
  let NAME := rewrite (decl_name _decl) false ExpressionConverter.STRUCT in
  let _path := CMemberAccess _path NAME in
  let _display := (_display ++ "::" ++ decl_name _decl)%string in
  match _decl with
  | StructVariable _ fields =>
      (fix children (l : list VariableDeclaration) (m_maps : list MapData)
         : list MapData :=
         match l with
         | [] => m_maps
         | child :: l' =>
             children l' (identify_maps _path _display child m_maps)
         end) fields m_maps
  | MapVariable _ entry =>
      m_maps ++ [mkMapData (length m_maps) _path (key_types entry)
                           (entry_value_nd entry) _display]
  | OtherVariable _ => m_maps
  end.

(** The loops of the constructor: [m_maps] once every state variable of
    every actor has been looked at. *)
Definition identify_all (actors : list Deployed) : list MapData :=
  fold_left
    (fun m_maps actor =>
       fold_left
         (fun m_maps decl =>
            identify_maps (id (deployed_decl actor)) (contract_name actor)
                          decl m_maps)
         (state_variables actor) m_maps)
    actors [].

End Discovery.

(** The number of maps below a declaration. *)
Fixpoint count_maps (_decl : VariableDeclaration) : nat :=
  match _decl with
  | StructVariable _ fields =>
      (fix sum (l : list VariableDeclaration) : nat :=
         match l with
         | [] => 0
         | child :: l' => count_maps child + sum l'
         end) fields
  | MapVariable _ _ => 1
  | OtherVariable _ => 0
  end.

Section Invariants.
(** Of [map.entry->value_type]: whether its annotated type is a
    [StructType], and [get_simple_ctype] of the type. *)
Variable value_type_is_struct : MapData -> bool.
Variable get_simple_ctype : MapData -> string.

(** The definition that [print_invariants] writes for a map. *)
Definition invariant (map : MapData) : CFuncDef :=
  let id :=
    decl (mkVar "int" ("Inv_" ++ Std.to_string (map_id map))%string false) in
  let params := [decl (mkVar (get_simple_ctype map) "v" false)] in
  let body := CBlock [CReturn ONE] in
  mkCFuncDef id params body.

(** The loop of [print_invariants]: the definitions written to the stream,
    and how the loop ends. *)
Fixpoint print_invariants_loop (maps : list MapData)
  : list CFuncDef * Result unit :=
  match maps with
  | [] => ([], Ok tt)
  | map :: maps' =>
      if value_type_is_struct map
      then ([], Throw "Struct invariants are not yet supported.")
      else
        let (written, outcome) := print_invariants_loop maps' in
        (invariant map :: written, outcome)
  end.

(** [print_invariants]; the flag says whether the rule of the invariants
    is [InvarRule::None]. *)
Definition print_invariants (rule_is_none : bool) (m_maps : list MapData)
  : list CFuncDef * Result unit :=
  if rule_is_none then ([], Ok tt) else print_invariants_loop m_maps.

End Invariants.

(** A contract [A] for the worked examples: a map, a structure with a plain
    field and a map, and a plain variable. *)
Definition int_entry (keys : nat) : Entry :=
  mkEntry keys (fun msg => CFuncCall "nd_int256_t" [CStringLiteral msg]).

Definition example_actor : Deployed :=
  mkDeployed (mkVar "struct A" "contract_0" false) "A"
    [MapVariable "a" (int_entry 1);
     StructVariable "s" [OtherVariable "x"; MapVariable "m" (int_entry 2)];
     OtherVariable "y"].

End MapDiscovery.

(** ** harness/StateGenerator.cpp: the variables of the emitted blocks *)

Module BlockShape.
Import CodeGen CodeGenStmt.
Local Open Scope list_scope.

(** The variables that a statement declares, and those it assigns, in the
    order of the statements. *)
Fixpoint declared (c : CStmt) : list string :=
  match c with
  | CVarDecl _ name _ _ => [name]
  | CBlock stmts => flat_map declared stmts
  | _ => []
  end.

Fixpoint assigned (c : CStmt) : list string :=
  match c with
  | CExprStmt (CBinaryOp lhs "=" _) =>
      match StateGenerator.cell lhs with
      | Some x => [x]
      | None => []
      end
  | CIf _ tcase fcase => assigned tcase ++ assigned fcase
  | CBlock stmts => flat_map assigned stmts
  | _ => []
  end.

(** The fields that [update] writes: all but [paid] and [origin]. *)
Definition is_updated (fld : StateGenerator.FieldData) : bool :=
  match StateGenerator.field fld with
  | StateGenerator.Paid | StateGenerator.Origin => false
  | _ => true
  end.

(** The fields that [declare] gives a value. *)
Definition is_initialised (fld : StateGenerator.FieldData) : bool :=
  match StateGenerator.field fld with
  | StateGenerator.Block | StateGenerator.Timestamp | StateGenerator.Paid => true
  | _ => false
  end.

End BlockShape.


(** ** MainFunction_1.cpp: the first pass of the early main function printer

    The visitors write to [m_ostream] and count the functions in [i]; each
    is embedded as the text it writes and the counter it leaves. The nodes
    are given with the answers of [m_converter.translate]: the type of an
    argument, the type and the name of a contract. *)

Module MainFunction_1.
Local Open Scope list_scope.
Local Open Scope string_scope.

Record VariableDeclaration : Type := mkArg {
  translate_type : string;
  name : string
}.

Record FunctionDefinition : Type := mkFunctionDefinition {
  isConstructor : bool;
  parameters : list VariableDeclaration
}.

(** A contract with its functions, in the order of its sub-nodes. No other
    sub-node has a visitor. *)
Record ContractDefinition : Type := mkContract {
  translation_type : string;
  translation_name : string;
  definedFunctions : list FunctionDefinition
}.

(** The name under which [print_args] declares an argument:
    [i << "_" << arg.name()]. *)
Definition arg_id (i : nat) (arg : VariableDeclaration) : string :=
  Std.to_string i ++ "_" ++ name arg.

(** [print_args] *)
Fixpoint print_args (i : nat) (_args : list VariableDeclaration) : string :=
  match _args with
  | [] => ""
  | arg :: _args' =>
      (translate_type arg ++ " " ++ arg_id i arg ++ ";") ++ print_args i _args'
  end.

(** [visit(FunctionDefinition)]: the text and the counter; the visitor
    returns false, nothing below a function is visited. *)
Definition visit_FunctionDefinition (m_forward_declare : bool) (i : nat)
           (_node : FunctionDefinition) : string * nat :=
  if negb m_forward_declare && negb (isConstructor _node)
  then (print_args i (parameters _node), i + 1)
  else ("", i).

(** [visit(ContractDefinition)] *)
Definition visit_ContractDefinition (m_forward_declare : bool) : string :=
  "struct CallState"
  ++ (if negb m_forward_declare
      then "{" ++ "int sender;" ++ "unsigned int value;"
           ++ "unsigned int blocknum;" ++ "}"
      else "")
  ++ ";"
  ++ (if negb m_forward_declare then "int main(void)" ++ "{" else "").

(** [endVisit(ContractDefinition)] *)
Definition endVisit_ContractDefinition (m_forward_declare : bool)
           (_node : ContractDefinition) : string :=
  if negb m_forward_declare
  then translation_type _node ++ " contract;"
       ++ "struct CallState globalstate;"
       ++ "Ctor_" ++ translation_name _node ++ "(&contract,&globalstate);"
       ++ "struct CallState nextGS;"
       ++ "while (nd())"
       ++ "{"
  else "".

(** The functions of a contract, visited one after the other. *)
Fixpoint visit_functions (m_forward_declare : bool) (i : nat)
         (l : list FunctionDefinition) : string * nat :=
  match l with
  | [] => ("", i)
  | f :: l' =>
      let (text, i') := visit_FunctionDefinition m_forward_declare i f in
      let (rest, i'') := visit_functions m_forward_declare i' l' in
      (text ++ rest, i'')
  end.

(** [_node.accept(visitor)] on a contract: [visit], which returns true,
    then the sub-nodes, then [endVisit]. *)
Definition accept (m_forward_declare : bool) (i : nat)
           (_node : ContractDefinition) : string * nat :=
  let (body, i') :=
    visit_functions m_forward_declare i (definedFunctions _node) in
  (visit_ContractDefinition m_forward_declare ++ body
   ++ endVisit_ContractDefinition m_forward_declare _node, i').

(** [print], for a source unit given by its contracts. *)
Fixpoint print (m_forward_declare : bool) (i : nat)
         (m_ast : list ContractDefinition) : string * nat :=
  match m_ast with
  | [] => ("", i)
  | c :: m_ast' =>
      let (text, i') := accept m_forward_declare i c in
      let (rest, i'') := print m_forward_declare i' m_ast' in
      (text ++ rest, i'')
  end.

(** The functions for which arguments are declared. *)
Definition declaring (l : list FunctionDefinition) : list FunctionDefinition :=
  filter (fun f => negb (isConstructor f)) l.

(** A contract [A] with a constructor and the functions [f(int a)] and
    [g(int a, int b)]. *)
Definition example : ContractDefinition :=
  mkContract "struct A" "A"
    [mkFunctionDefinition true [mkArg "int" "x"];
     mkFunctionDefinition false [mkArg "int" "a"];
     mkFunctionDefinition false [mkArg "int" "a"; mkArg "int" "b"]].

End MainFunction_1.


(* ====================================================================== *)
(** * Part II: properties *)
(* ====================================================================== *)

(** ** KeyIterator *)

Section KeyIteratorFacts.
Import KeyIterator.

Variables W D O : nat.
Hypothesis depth_pos : 1 <= D.
Hypothesis offset_lt : O < W.

Let st (p : list nat) : t := mk W D O p.

Variable A : Type.
Variable g : list nat -> list A.

Let body (it : t) : list A := if is_full it then g (indices it) else [].

(** Outputs of the loop over all completions of the prefix [p]. *)
Let ext (k : nat) (p : list nat) : list A :=
  flat_map (fun q => g (rev p ++ q)) (tuples O W k).

(** What remains of the loop once the stack is [s]. *)
Let cont (f : nat) (s : list nat) : option (list A) :=
  match s with
  | [] => Some []
  | _ => do_while body f (st s)
  end.

Lemma guard_false :
  (W =? 0) || (D =? 0) || (W <=? O) = false.
Proof.
  destruct (Nat.eqb_spec W 0); [lia|].
  destruct (Nat.eqb_spec D 0); [lia|].
  destruct (Nat.leb_spec W O); [lia|]. reflexivity.
Qed.

Lemma do_while_step f p :
  do_while body (S f) (st p) =
  option_map (app (body (st p)))
    (cont f (if negb (is_full (st p)) then O :: p else advance W p)).
Proof.
  unfold cont, st. cbn [do_while]. unfold next.
  cbn [M_WIDTH M_DEPTH M_WIDTH_OFFSET m_indices].
  rewrite guard_false.
  destruct (if negb (is_full (mk W D O p)) then O :: p else advance W p);
    cbn [is_empty negb option_map].
  - now rewrite app_nil_r.
  - reflexivity.
Qed.

Lemma is_full_st p : is_full (st p) = (length p =? D).
Proof.
  unfold is_full, st; cbn [M_DEPTH m_indices].
  destruct (Nat.ltb_spec 0 D); [reflexivity | lia].
Qed.

Lemma option_map_app (a b : list A) (x : option (list A)) :
  option_map (app a) (option_map (app b) x) = option_map (app (a ++ b)) x.
Proof. destruct x; cbn; [now rewrite app_assoc | reflexivity]. Qed.

Lemma flat_map_flat_map (X Y Z : Type) (f : Y -> list Z) (h : X -> list Y) l :
  flat_map f (flat_map h l) = flat_map (fun x => flat_map f (h x)) l.
Proof.
  induction l as [|x l IH]; cbn; [reflexivity|].
  now rewrite flat_map_app, IH.
Qed.

Lemma flat_map_map (X Y Z : Type) (f : Y -> list Z) (c : X -> Y) l :
  flat_map f (map c l) = flat_map (fun x => f (c x)) l.
Proof. induction l as [|x l IH]; cbn; [reflexivity | now rewrite IH]. Qed.

Lemma ext_succ k p :
  ext (S k) p = flat_map (fun y => ext k (y :: p)) (seq O (W - O)).
Proof.
  unfold ext; cbn [tuples]. rewrite flat_map_flat_map.
  apply flat_map_ext; intros y. rewrite flat_map_map.
  apply flat_map_ext; intros q. cbn [rev]. now rewrite <- app_assoc.
Qed.

(** The loop below one prefix: it emits the outputs of every completion
    and leaves the stack advanced past the prefix. *)
Lemma do_while_prefix k : forall p f,
  length p + k = D ->
  do_while body (calls (W - O) k + f) (st p) =
  option_map (app (ext k p)) (cont f (advance W p)).
Proof.
  induction k as [|k IH]; intros p f Hlen.
  - cbn [calls Nat.add]. rewrite do_while_step.
    unfold body at 1. rewrite is_full_st.
    replace (length p =? D) with true by (symmetry; apply Nat.eqb_eq; lia).
    cbn [negb]. unfold ext; cbn [tuples flat_map indices st m_indices].
    now rewrite !app_nil_r.
  - cbn [calls Nat.add]. rewrite do_while_step.
    unfold body at 1. rewrite is_full_st.
    replace (length p =? D) with false by (symmetry; apply Nat.eqb_neq; lia).
    cbn [negb cont option_map app]. rewrite ext_succ.
    (* the sweep of the new component from [x] up to [W - 1] *)
    assert (sweep : forall m x, x + m = W -> 1 <= m ->
      do_while body (m * calls (W - O) k + f) (st (x :: p)) =
      option_map (app (flat_map (fun y => ext k (y :: p)) (seq x m)))
                 (cont f (advance W p))).
    { induction m as [|m IHm]; intros x Hx Hm; [lia|].
      cbn [Nat.mul]. rewrite <- Nat.add_assoc.
      rewrite IH by (cbn [length]; lia).
      cbn [advance seq flat_map].
      destruct (Nat.eqb_spec (S x) W) as [e|ne].
      - assert (m = 0) by lia; subst m. cbn [Nat.mul Nat.add seq flat_map].
        now rewrite app_nil_r.
      - cbn [cont]. rewrite IHm by lia.
        now rewrite option_map_app. }
    rewrite <- (sweep (W - O) O) by lia.
    now destruct (do_while _ _ _).
Qed.

(** The whole loop on a fresh iterator. *)
Lemma do_while_fresh :
  do_while body (calls (W - O) D) (create W D O) =
  Some (flat_map g (tuples O W D)).
Proof.
  rewrite <- (Nat.add_0_r (calls _ _)).
  change (create W D O) with (st []).
  rewrite do_while_prefix by reflexivity.
  cbn [advance cont option_map]. now rewrite app_nil_r.
Qed.

End KeyIteratorFacts.

Section TupleFacts.
Import KeyIterator.

Variables offset width : nat.

Lemma length_flat_map_const (X Y : Type) (f : X -> list Y) (c : nat) l :
  (forall x, length (f x) = c) -> length (flat_map f l) = length l * c.
Proof.
  intros Hc. induction l as [|x l IH]; cbn; [reflexivity|].
  now rewrite length_app, Hc, IH.
Qed.

Lemma tuples_length depth :
  length (tuples offset width depth) = (width - offset) ^ depth.
Proof.
  induction depth as [|d IH]; cbn [tuples Nat.pow]; [reflexivity|].
  rewrite length_flat_map_const with (c := (width - offset) ^ d).
  - now rewrite length_seq.
  - intros x. now rewrite length_map.
Qed.

Lemma tuples_In depth q :
  In q (tuples offset width depth) <->
  length q = depth /\ Forall (fun x => offset <= x < width) q.
Proof.
  revert q. induction depth as [|d IH]; intros q; cbn [tuples].
  - split.
    + intros [<-|[]]. split; [reflexivity | constructor].
    + intros [Hl _]. destruct q; [now left | discriminate].
  - rewrite in_flat_map. split.
    + intros (x & Hx & Hq). apply in_map_iff in Hq as (q' & <- & Hq').
      apply IH in Hq' as [Hl Hall]. apply in_seq in Hx.
      split; [cbn; now rewrite Hl | constructor; [lia | assumption]].
    + intros [Hl Hall]. destruct q as [|x q']; [discriminate|].
      inversion Hall; subst. exists x. split.
      * apply in_seq. lia.
      * apply in_map. apply IH. split; [now injection Hl | assumption].
Qed.

Lemma lex_lt_irrefl p : ~ lex_lt p p.
Proof.
  unfold lex_lt. induction p as [|x p IH]; cbn [lex_ltb]; [discriminate|].
  rewrite Nat.ltb_irrefl, Nat.eqb_refl. exact IH.
Qed.

Lemma StronglySorted_app (X : Type) (R : X -> X -> Prop) l1 l2 :
  StronglySorted R l1 -> StronglySorted R l2 ->
  (forall a b, In a l1 -> In b l2 -> R a b) ->
  StronglySorted R (l1 ++ l2).
Proof.
  induction 1 as [|a l1 Hs IH Ha]; intros H2 Hab; cbn; [assumption|].
  constructor.
  - apply IH; [assumption | intros; apply Hab; [now right | assumption]].
  - apply Forall_app. split; [assumption|].
    apply Forall_forall. intros b Hb. apply Hab; [now left | assumption].
Qed.

Lemma StronglySorted_cons_map x l :
  StronglySorted lex_lt l -> StronglySorted lex_lt (map (cons x) l).
Proof.
  induction 1 as [|q l Hs IH Hq]; cbn; constructor; [assumption|].
  rewrite Forall_map. revert Hq. apply Forall_impl. intros r Hr.
  unfold lex_lt in *. cbn [lex_ltb]. now rewrite Nat.eqb_refl, Hr, orb_true_r.
Qed.

Lemma StronglySorted_heads (h : nat -> list (list nat)) n : forall first,
  (forall x, StronglySorted lex_lt (h x)) ->
  (forall x q, In q (h x) -> exists q', q = x :: q') ->
  StronglySorted lex_lt (flat_map h (seq first n)).
Proof.
  induction n as [|n IH]; intros first Hs Hh; cbn; [constructor|].
  apply StronglySorted_app; [apply Hs | now apply IH |].
  intros a b Ha Hb. apply in_flat_map in Hb as (y & Hy & Hb).
  apply in_seq in Hy. apply Hh in Ha as (a' & ->). apply Hh in Hb as (b' & ->).
  unfold lex_lt; cbn [lex_ltb]. destruct (Nat.ltb_spec first y); [reflexivity | lia].
Qed.

Lemma tuples_sorted depth :
  StronglySorted lex_lt (tuples offset width depth).
Proof.
  induction depth as [|d IH]; cbn [tuples].
  - repeat constructor.
  - apply StronglySorted_heads.
    + intros x. now apply StronglySorted_cons_map.
    + intros x q Hq. apply in_map_iff in Hq as (q' & <- & _). now exists q'.
Qed.

Lemma StronglySorted_NoDup (X : Type) (R : X -> X -> Prop) l :
  (forall a, ~ R a a) -> StronglySorted R l -> NoDup l.
Proof.
  intros Hirr. induction 1 as [|a l Hs IH Ha]; constructor; [|assumption].
  intros Hin. rewrite Forall_forall in Ha. exact (Hirr a (Ha a Hin)).
Qed.

Lemma tuples_NoDup depth : NoDup (tuples offset width depth).
Proof.
  apply StronglySorted_NoDup with (R := lex_lt);
    [exact lex_lt_irrefl | apply tuples_sorted].
Qed.

End TupleFacts.

(** With the fuel [enough] the loop on a fresh iterator ends, whatever the
    width, the depth and the offset are; it visits the tuples of the
    coordinate space, which is empty in the degenerate cases. *)
Lemma do_while_enough (A : Type) (g : list nat -> list A) (w d o : nat) :
  KeyIterator.do_while
    (fun it => if KeyIterator.is_full it then g (KeyIterator.indices it) else [])
    (KeyIterator.enough w d o) (KeyIterator.create w d o)
  = Some (if (w =? 0) || (d =? 0) || (w <=? o) then []
          else flat_map g (KeyIterator.tuples o w d)).
Proof.
  unfold KeyIterator.enough.
  destruct ((w =? 0) || (d =? 0) || (w <=? o)) eqn:Hdeg.
  - cbn [KeyIterator.do_while]. unfold KeyIterator.next.
    cbn [KeyIterator.create KeyIterator.M_WIDTH KeyIterator.M_DEPTH
         KeyIterator.M_WIDTH_OFFSET].
    rewrite Hdeg. unfold KeyIterator.is_full.
    cbn [KeyIterator.m_indices KeyIterator.M_DEPTH length].
    destruct d; [reflexivity|]. now rewrite andb_false_r.
  - apply orb_false_elim in Hdeg as [Hdeg Ho].
    apply orb_false_elim in Hdeg as [Hw Hd].
    apply Nat.eqb_neq in Hd. apply Nat.leb_gt in Ho.
    apply do_while_fresh; lia.
Qed.

(** C9. For [1 <= d] and [o < w] the loop [do ... while (next())] on a fresh
    [KeyIterator(w, d, o)] stops after finitely many calls of [next] (at most
    [calls (w - o) d], all but the last returning true), and the states it
    finds full are, in this order, the tuples of [tuples o w d]: these are
    the [(w - o) ^ d] lists of length [d] with every component in [o, w),
    without repetition and in increasing lexicographic order. If [w = 0],
    [d = 0] or [w <= o], the first call of [next] returns false, and the
    iterator is never full however often [next] is called. *)
Theorem KeyIterator_next_enumerates (w d o : nat) :
  (1 <= d -> o < w ->
     KeyIterator.full_states (KeyIterator.calls (w - o) d)
                             (KeyIterator.create w d o)
       = Some (KeyIterator.tuples o w d)
     /\ length (KeyIterator.tuples o w d) = (w - o) ^ d
     /\ (forall q, In q (KeyIterator.tuples o w d) <->
                   length q = d /\ Forall (fun x => o <= x < w) q)
     /\ NoDup (KeyIterator.tuples o w d)
     /\ StronglySorted KeyIterator.lex_lt (KeyIterator.tuples o w d))
  /\
  (w = 0 \/ d = 0 \/ w <= o ->
     fst (KeyIterator.next (KeyIterator.create w d o)) = false
     /\ forall k, KeyIterator.is_full
                    (KeyIterator.after k (KeyIterator.create w d o)) = false).
Proof.
  split.
  - intros Hd Ho. split; [|split; [|split; [|split]]].
    + unfold KeyIterator.full_states.
      rewrite (do_while_fresh Hd Ho (fun q => [q])).
      f_equal. induction (KeyIterator.tuples o w d) as [|q l IH]; cbn;
        [reflexivity | now rewrite IH].
    + apply tuples_length.
    + intros q. apply tuples_In.
    + apply tuples_NoDup.
    + apply tuples_sorted.
  - intros Hdeg.
    assert (Hg : (w =? 0) || (d =? 0) || (w <=? o) = true).
    { destruct Hdeg as [->|[->|H]].
      - reflexivity.
      - now rewrite orb_true_r.
      - apply Nat.leb_le in H. rewrite H. now rewrite orb_true_r. }
    assert (Hn : KeyIterator.next (KeyIterator.create w d o)
                 = (false, KeyIterator.create w d o)).
    { unfold KeyIterator.next, KeyIterator.create; cbn. now rewrite Hg. }
    split; [now rewrite Hn|].
    assert (Hk : forall k, KeyIterator.after k (KeyIterator.create w d o)
                           = KeyIterator.create w d o).
    { induction k as [|k IH]; [reflexivity|].
      cbn [KeyIterator.after]. rewrite IH. now rewrite Hn. }
    intros k. rewrite Hk. unfold KeyIterator.is_full, KeyIterator.create; cbn.
    destruct d; [reflexivity|]. apply andb_false_r.
Qed.

Lemma KeyIterator_next_enumerates_witness :
  KeyIterator.full_states 7 (KeyIterator.create 3 2 1)
    = Some [[1; 1]; [1; 2]; [2; 1]; [2; 2]]
  /\ fst (KeyIterator.next (KeyIterator.create 2 3 2)) = false.
Proof.
  destruct (KeyIterator_next_enumerates 3 2 1) as [Hrun _].
  destruct (KeyIterator_next_enumerates 2 3 2) as [_ Hdeg].
  split.
  - exact (proj1 (Hrun ltac:(lia) ltac:(lia))).
  - exact (proj1 (Hdeg ltac:(lia))).
Defined.

(** ** ExpressionConverter *)

Section ExpressionConverterFacts.
Import CodeGen Solidity Runtime ExpressionConverter.
Local Open Scope string_scope.

Variable E : Env.

Lemma generate_mapping_call_Ok _op _id base idx KEY VAL b k v :
  annotation_type base = MappingType KEY VAL ->
  convert E true base = Ok b ->
  convert E false idx = Ok k ->
  generate_mapping_call E _op _id base idx v =
  Ok (CFuncCall (_op ++ "_" ++ _id)
        ([b; try_to_wrap E KEY k] ++
         match v with CNull => [] | _ => [try_to_wrap E VAL v] end)).
Proof.
  intros Hty Hb Hk.
  unfold generate_mapping_call, generate_mapping_call_with, push_with.
  unfold convert in Hb, Hk. now rewrite Hty, Hb, Hk.
Qed.

Lemma visit_IndexAccess fl type base idx sub KEY VAL b k :
  annotation_type base = MappingType KEY VAL ->
  convert E true base = Ok b ->
  convert E false idx = Ok k ->
  visit E fl (IndexAccess type base idx) sub =
  Ok (unwrapped E type
        (mapping_access fl (get_name E (IndexAccess type base idx))
           [b; try_to_wrap E KEY k])).
Proof.
  intros Hty Hb Hk.
  pose proof (fun op => @generate_mapping_call_Ok op
                (get_name E (IndexAccess type base idx))
                base idx KEY VAL b k CNull Hty Hb Hk) as Hcall.
  unfold generate_mapping_call in Hcall.
  cbn [visit]. rewrite Hty. cbn [category].
  unfold mapping_access, unwrapped.
  destruct (m_find_ref fl); [|destruct (m_lval fl)];
    rewrite Hcall; cbn [bind app];
    now destruct (is_wrapped_type E type).
Qed.

Lemma generate_binary_op_Ok fl l op r sub s1 s2 :
  visit E fl l sub = Ok s1 ->
  visit E fl r s1 = Ok s2 ->
  generate_binary_op E fl l op r sub =
  if unsupported_binary op
  then Throw ("Unsupported binary operator:" ++ friendlyName E op)
  else Ok (CBinaryOp s1 (friendlyName E op) s2).
Proof.
  intros H1 H2. unfold generate_binary_op, generate_binary_op_with.
  rewrite H1. cbn [bind]. rewrite H2. reflexivity.
Qed.

(** The equation of [visit(Assignment)] at an index access. *)
Lemma visit_Assignment_IndexAccess fl type_a type base idx op rhs sub :
  visit E fl (Assignment type_a (IndexAccess type base idx) op rhs) sub =
  let lhs := IndexAccess type base idx in
  let ID := LValueSniffer_Identifier E lhs in
  if match ID with Some id => is_Contract (id_type id) | None => false end
  then visit E (set_last_assignment fl ID) rhs sub
  else
    let swap :=
      set_find_ref fl
        (match ID with Some id => is_pointer E id | None => false end) in
    bind (if negb (Token_eqb op Assign)
          then generate_binary_op E swap lhs (AssignmentToBinaryOp E op) rhs sub
          else visit E swap rhs sub)
         (fun r => generate_mapping_call E "Write" (get_name E lhs) base idx r).
Proof. reflexivity. Qed.

End ExpressionConverterFacts.

Import CodeGen Solidity Runtime ExpressionConverter.
Local Open Scope string_scope.

(** The three forms of one access. An index access whose base has a
    mapping type is emitted in one of
    three forms, chosen by the flags: with [find_ref] the call
    [Ref_<map>(base, key)]; else with [lval] that call under a dereference;
    else [Read_<map>(base, key)]. Here [base] is the base converted as a
    reference and [key] the converted index, wrapped for the key type. If
    the type of the access is wrapped, [.v] is applied to the whole. *)
Theorem IndexAccess_on_mapping_three_forms
  (E : Env) (fl : Flags) (type : Type_) (base idx : Expression)
  (sub : CExpr) (KEY VAL : Type_) (b k : CExpr) :
  annotation_type base = MappingType KEY VAL ->
  convert E true base = Ok b ->
  convert E false idx = Ok k ->
  let name := get_name E (IndexAccess type base idx) in
  let args := [b; try_to_wrap E KEY k] in
  let emitted :=
    if m_find_ref fl then CFuncCall ("Ref_" ++ name) args
    else if m_lval fl then CDereference (CFuncCall ("Ref_" ++ name) args)
    else CFuncCall ("Read_" ++ name) args in
  visit E fl (IndexAccess type base idx) sub =
  Ok (if is_wrapped_type E type then CMemberAccess emitted "v" else emitted).
Proof.
  intros Hty Hb Hk. cbn zeta.
  exact (visit_IndexAccess E fl type base idx sub Hty Hb Hk).
Qed.

Lemma IndexAccess_on_mapping_three_forms_witness :
  visit (TestFixture.env [] "Map_2") TestFixture.top TestFixture.a_1 CNull =
  Ok (CMemberAccess
        (CFuncCall "Read_Map_2"
           [CReference (CIdentifier "self->user_a" false);
            CFuncCall "Init_sol_int256_t" [CIntLiteral 1]]) "v").
Proof.
  exact (@IndexAccess_on_mapping_three_forms
           (TestFixture.env [] "Map_2") TestFixture.top TestFixture.int256
           (TestFixture.var "a" (MappingType TestFixture.int256 TestFixture.int256))
           (TestFixture.number "1") CNull
           TestFixture.int256 TestFixture.int256
           (CReference (CIdentifier "self->user_a" false)) (CIntLiteral 1)
           eq_refl eq_refl eq_refl).
Defined.

(** A nested access, [arr1[10][10]]: the inner access is the base of the
    outer one and is converted as a reference, so the calls nest, each with
    its own key. (The test [read_only_index_access] expects one call that
    takes both keys.) *)
Example nested_index_access_nests_calls :
  let arr1 := TestFixture.var "arr1"
                (MappingType TestFixture.int256
                   (MappingType TestFixture.int256 TestFixture.int256)) in
  let inner := IndexAccess (MappingType TestFixture.int256 TestFixture.int256)
                           arr1 (TestFixture.number "10") in
  visit (TestFixture.env [] "Map") TestFixture.top
        (IndexAccess TestFixture.int256 inner (TestFixture.number "10")) CNull
  = Ok (CMemberAccess
          (CFuncCall "Read_Map"
             [CFuncCall "Ref_Map"
                [CReference (CIdentifier "self->user_arr1" false);
                 CFuncCall "Init_sol_int256_t" [CIntLiteral 10]];
              CFuncCall "Init_sol_int256_t" [CIntLiteral 10]]) "v").
Proof. reflexivity. Qed.

(** C1, as the sources have it. An index access on a map whose base is
    itself an index access on a map, [base[i][j]], is not emitted as one call
    that takes both keys, [Read_<map>(base, i, j)]: [generate_mapping_call]
    pushes the base expression, converted as a reference, and the one index
    of the access, so the inner access becomes the call [Ref_<map>(base, i)]
    and stands as the base of the outer call, in each of the three forms
    that the flags choose. *)
Theorem IndexAccess_on_nested_mapping_nests_calls
  (E : Env) (fl : Flags) (type : Type_) (base idx1 idx2 : Expression)
  (sub : CExpr) (KEY1 KEY2 VAL : Type_) (b k1 k2 : CExpr) :
  annotation_type base = MappingType KEY1 (MappingType KEY2 VAL) ->
  convert E true base = Ok b ->
  convert E false idx1 = Ok k1 ->
  convert E false idx2 = Ok k2 ->
  let inner := IndexAccess (MappingType KEY2 VAL) base idx1 in
  let outer := IndexAccess type inner idx2 in
  let key1 := try_to_wrap E KEY1 k1 in
  let key2 := try_to_wrap E KEY2 k2 in
  let ref := unwrapped E (MappingType KEY2 VAL)
               (CFuncCall ("Ref_" ++ get_name E inner) [b; key1]) in
  visit E fl outer sub
  = Ok (unwrapped E type (mapping_access fl (get_name E outer) [ref; key2]))
  /\ visit E fl outer sub
     <> Ok (unwrapped E type
              (mapping_access fl (get_name E outer) [b; key1; key2])).
Proof.
  intros Hty Hb Hk1 Hk2. cbn zeta.
  assert (Hinner :
    convert E true (IndexAccess (MappingType KEY2 VAL) base idx1)
    = Ok (unwrapped E (MappingType KEY2 VAL)
            (CFuncCall
               ("Ref_" ++ get_name E (IndexAccess (MappingType KEY2 VAL) base idx1))
               [b; try_to_wrap E KEY1 k1]))).
  { unfold convert, convert_with.
    now rewrite (visit_IndexAccess E _ _ base idx1 CNull Hty Hb Hk1). }
  assert (Hout :=
    visit_IndexAccess E fl type
      (IndexAccess (MappingType KEY2 VAL) base idx1) idx2 sub
      (eq_refl : annotation_type (IndexAccess (MappingType KEY2 VAL) base idx1)
                 = MappingType KEY2 VAL)
      Hinner Hk2).
  split; [exact Hout|].
  rewrite Hout. intros H. injection H as H.
  unfold unwrapped, mapping_access in H.
  destruct (is_wrapped_type E type), (m_find_ref fl), (m_lval fl);
    discriminate H.
Qed.

(** [arr1[10][10]] of the test [read_only_index_access], which expects
    [(Read_Map_2(&(self->user_arr1),Init_sol_int256_t(10),
    Init_sol_int256_t(10))).v]. *)
Lemma IndexAccess_on_nested_mapping_nests_calls_witness :
  let arr1 := TestFixture.var "arr1"
                (MappingType TestFixture.int256
                   (MappingType TestFixture.int256 TestFixture.int256)) in
  let inner := IndexAccess (MappingType TestFixture.int256 TestFixture.int256)
                           arr1 (TestFixture.number "10") in
  let outer := IndexAccess TestFixture.int256 inner (TestFixture.number "10") in
  visit (TestFixture.env [] "Map_2") TestFixture.top outer CNull
  = Ok (CMemberAccess
          (CFuncCall "Read_Map_2"
             [CFuncCall "Ref_Map_2"
                [CReference (CIdentifier "self->user_arr1" false);
                 CFuncCall "Init_sol_int256_t" [CIntLiteral 10]];
              CFuncCall "Init_sol_int256_t" [CIntLiteral 10]]) "v")
  /\ visit (TestFixture.env [] "Map_2") TestFixture.top outer CNull
     <> Ok (CMemberAccess
              (CFuncCall "Read_Map_2"
                 [CReference (CIdentifier "self->user_arr1" false);
                  CFuncCall "Init_sol_int256_t" [CIntLiteral 10];
                  CFuncCall "Init_sol_int256_t" [CIntLiteral 10]]) "v").
Proof.
  cbn zeta.
  exact (@IndexAccess_on_nested_mapping_nests_calls
           (TestFixture.env [] "Map_2") TestFixture.top TestFixture.int256
           (TestFixture.var "arr1"
              (MappingType TestFixture.int256
                 (MappingType TestFixture.int256 TestFixture.int256)))
           (TestFixture.number "10") (TestFixture.number "10") CNull
           TestFixture.int256 TestFixture.int256 TestFixture.int256
           (CReference (CIdentifier "self->user_arr1" false))
           (CIntLiteral 10) (CIntLiteral 10)
           eq_refl eq_refl eq_refl eq_refl).
Defined.

(** [a[1] = 2] of the test [map_assignment] and [dst.transfer(5)] of the
    test [payment_function_calls], as the tests expect them. *)
Example simple_map_assignment :
  visit (TestFixture.env [] "Map_2") TestFixture.top TestFixture.a_1_is_2 CNull
  = Ok (CFuncCall "Write_Map_2"
          [CReference (CIdentifier "self->user_a" false);
           CFuncCall "Init_sol_int256_t" [CIntLiteral 1];
           CFuncCall "Init_sol_int256_t" [CIntLiteral 2]]).
Proof. reflexivity. Qed.

Example transfer_is_emitted_as_pay :
  visit (TestFixture.env ["dst"] "Map_2") TestFixture.top
        TestFixture.dst_transfer_5 CNull
  = Ok (CFuncCall "_pay"
          [CReference (CMemberAccess (CIdentifier "self" true) "model_balance");
           CFuncCall "Init_sol_address_t"
             [CMemberAccess (CIdentifier "func_user_dst" false) "v"];
           CFuncCall "Init_sol_uint256_t" [CIntLiteral 5]]).
Proof. reflexivity. Qed.

Lemma Token_eqb_eq (a b : Token) : Token_eqb a b = true <-> a = b.
Proof.
  split.
  - destruct a, b; cbn; intros H; try reflexivity; discriminate H.
  - intros <-. now destruct a.
Qed.

(** The assignment to one access. An assignment whose left-hand side is an
    index access on a map is
    emitted as [Write_<map>(base, key, value)], the value being wrapped for
    the value type of the map. For a simple assignment the value is the
    converted right-hand side. For a compound assignment it is
    [(Read_<map>(base, key), unwrapped) op rhs] for the binary operator [op]
    of the assignment, unless [op] is one that the converter rejects. The
    identifier that [LValueSniffer<Identifier>] may find in the left-hand
    side is taken to be neither a contract nor held by pointer, and the
    assignment is not itself in an l-value position. *)
Theorem Assignment_to_mapping_emits_Write
  (E : Env) (fl : Flags) (type_a type : Type_) (base idx rhs : Expression)
  (op : Token) (sub : CExpr) (KEY VAL : Type_) (b k v : CExpr) :
  let lhs := IndexAccess type base idx in
  let name := get_name E lhs in
  let key := try_to_wrap E KEY k in
  let read := unwrapped E type (CFuncCall ("Read_" ++ name) [b; key]) in
  let binop := AssignmentToBinaryOp E op in
  annotation_type base = MappingType KEY VAL ->
  (forall id, LValueSniffer_Identifier E lhs = Some id ->
              is_Contract (id_type id) = false /\ is_pointer E id = false) ->
  m_lval fl = false ->
  convert E true base = Ok b ->
  convert E false idx = Ok k ->
  visit E (set_find_ref fl false) rhs
        (if Token_eqb op Assign then sub else read) = Ok v ->
  (op = Assign -> v <> CNull) ->
  visit E fl (Assignment type_a lhs op rhs) sub =
  if Token_eqb op Assign
  then Ok (CFuncCall ("Write_" ++ name) [b; key; try_to_wrap E VAL v])
  else if unsupported_binary binop
  then Throw ("Unsupported binary operator:" ++ friendlyName E binop)
  else Ok (CFuncCall ("Write_" ++ name)
             [b; key;
              try_to_wrap E VAL (CBinaryOp read (friendlyName E binop) v)]).
Proof.
  intros lhs name key read binop Hty Hid Hlval Hb Hk Hv Hnull.
  assert (Hflags :
    (match LValueSniffer_Identifier E lhs with
     | Some id => is_Contract (id_type id)
     | None => false
     end = false) /\
    set_find_ref fl
      (match LValueSniffer_Identifier E lhs with
       | Some id => is_pointer E id
       | None => false
       end) = set_find_ref fl false).
  { destruct (LValueSniffer_Identifier E lhs) as [id|]; [|now split].
    destruct (Hid id eq_refl) as [-> ->]. now split. }
  destruct Hflags as [Hc Hswap].
  assert (Hread : visit E (set_find_ref fl false) lhs sub = Ok read).
  { unfold lhs. rewrite (visit_IndexAccess E _ type base idx sub Hty Hb Hk).
    unfold mapping_access. cbn [set_find_ref m_find_ref m_lval].
    now rewrite Hlval. }
  pose proof (fun x => @generate_mapping_call_Ok E "Write" name
                base idx KEY VAL b k x Hty Hb Hk) as Hwrite.
  unfold lhs at 1. rewrite visit_Assignment_IndexAccess. cbn zeta.
  fold lhs. fold name. fold binop. rewrite Hc, Hswap.
  destruct (Token_eqb op Assign) eqn:Hop; cbn [negb].
  - rewrite Hv. cbn [bind]. rewrite Hwrite.
    apply Token_eqb_eq in Hop. specialize (Hnull Hop).
    destruct v; try reflexivity. now elim Hnull.
  - rewrite (generate_binary_op_Ok E _ lhs binop rhs sub Hread Hv).
    destruct (unsupported_binary binop); cbn [bind]; [reflexivity|].
    now rewrite Hwrite.
Qed.

Lemma Assignment_to_mapping_emits_Write_witness :
  visit (TestFixture.env [] "Map_2") TestFixture.top TestFixture.a_1_add_2 CNull =
  Ok (CFuncCall "Write_Map_2"
        [CReference (CIdentifier "self->user_a" false);
         CFuncCall "Init_sol_int256_t" [CIntLiteral 1];
         CFuncCall "Init_sol_int256_t"
           [CBinaryOp
              (CMemberAccess
                 (CFuncCall "Read_Map_2"
                    [CReference (CIdentifier "self->user_a" false);
                     CFuncCall "Init_sol_int256_t" [CIntLiteral 1]]) "v")
              "+" (CIntLiteral 2)]]).
Proof.
  refine (@Assignment_to_mapping_emits_Write
            (TestFixture.env [] "Map_2") TestFixture.top
            TestFixture.int256 TestFixture.int256
            (TestFixture.var "a" (MappingType TestFixture.int256 TestFixture.int256))
            (TestFixture.number "1") (TestFixture.number "2")
            AssignAdd CNull TestFixture.int256 TestFixture.int256
            (CReference (CIdentifier "self->user_a" false)) (CIntLiteral 1)
            (CIntLiteral 2)
            eq_refl _ eq_refl eq_refl eq_refl eq_refl _).
  - intros id H. discriminate H.
  - intros H. discriminate H.
Defined.

(** C2, as the sources have it. An assignment to a map is not always
    emitted as [Write_<map>(base, keys..., rhs)] with the [Read] expansion.
    - If the left-hand side is an index access on a map whose base is itself
      an index access on a map, [base[i][j] = rhs], the call takes the last
      key only, and its base is the call [Ref_<map>(base, i)] of the inner
      access: [Write_<map>(Ref_<map>(base, i), j, rhs)], not
      [Write_<map>(base, i, j, rhs)].
    - If the identifier that [LValueSniffer<Identifier>] finds in the
      left-hand side is held by pointer, [m_find_ref] is set while the
      right-hand side is built, so a compound assignment reads the left-hand
      side by [Ref_<map>(base, key)], not by [Read_<map>(base, key)]. *)
Theorem Assignment_to_mapping_nests_or_refs (E : Env) (fl : Flags) :
  (forall (type_a type : Type_) (base idx1 idx2 rhs : Expression)
          (sub : CExpr) (KEY1 KEY2 VAL : Type_) (b k1 k2 v : CExpr),
     let inner := IndexAccess (MappingType KEY2 VAL) base idx1 in
     let lhs := IndexAccess type inner idx2 in
     let ID := LValueSniffer_Identifier E lhs in
     let key1 := try_to_wrap E KEY1 k1 in
     let key2 := try_to_wrap E KEY2 k2 in
     let ref := unwrapped E (MappingType KEY2 VAL)
                  (CFuncCall ("Ref_" ++ get_name E inner) [b; key1]) in
     annotation_type base = MappingType KEY1 (MappingType KEY2 VAL) ->
     match ID with Some id => is_Contract (id_type id) | None => false end
     = false ->
     convert E true base = Ok b ->
     convert E false idx1 = Ok k1 ->
     convert E false idx2 = Ok k2 ->
     visit E (set_find_ref fl
                (match ID with Some id => is_pointer E id | None => false end))
           rhs sub = Ok v ->
     v <> CNull ->
     visit E fl (Assignment type_a lhs Assign rhs) sub
     = Ok (CFuncCall ("Write_" ++ get_name E lhs)
             [ref; key2; try_to_wrap E VAL v])
     /\ visit E fl (Assignment type_a lhs Assign rhs) sub
        <> Ok (CFuncCall ("Write_" ++ get_name E lhs)
                 [b; key1; key2; try_to_wrap E VAL v]))
  /\
  (forall (type_a type : Type_) (base idx rhs : Expression) (op : Token)
          (sub : CExpr) (KEY VAL : Type_) (b k v : CExpr) (id : Identifier),
     let lhs := IndexAccess type base idx in
     let name := get_name E lhs in
     let key := try_to_wrap E KEY k in
     let by_ref := unwrapped E type (CFuncCall ("Ref_" ++ name) [b; key]) in
     let binop := AssignmentToBinaryOp E op in
     annotation_type base = MappingType KEY VAL ->
     LValueSniffer_Identifier E lhs = Some id ->
     is_Contract (id_type id) = false ->
     is_pointer E id = true ->
     op <> Assign ->
     unsupported_binary binop = false ->
     convert E true base = Ok b ->
     convert E false idx = Ok k ->
     visit E (set_find_ref fl true) rhs by_ref = Ok v ->
     visit E fl (Assignment type_a lhs op rhs) sub
     = Ok (CFuncCall ("Write_" ++ name)
             [b; key;
              try_to_wrap E VAL (CBinaryOp by_ref (friendlyName E binop) v)])).
Proof.
  split.
  - intros type_a type base idx1 idx2 rhs sub KEY1 KEY2 VAL b k1 k2 v.
    cbn zeta. intros Hty HID Hb Hk1 Hk2 Hv Hnull.
    assert (Hinner :
      convert E true (IndexAccess (MappingType KEY2 VAL) base idx1)
      = Ok (unwrapped E (MappingType KEY2 VAL)
              (CFuncCall
                 ("Ref_" ++ get_name E (IndexAccess (MappingType KEY2 VAL) base idx1))
                 [b; try_to_wrap E KEY1 k1]))).
    { unfold convert, convert_with.
      now rewrite (visit_IndexAccess E _ _ base idx1 CNull Hty Hb Hk1). }
    assert (Hout :
      visit E fl
        (Assignment type_a
           (IndexAccess type (IndexAccess (MappingType KEY2 VAL) base idx1) idx2)
           Assign rhs) sub
      = Ok (CFuncCall
              ("Write_" ++ get_name E
                 (IndexAccess type
                    (IndexAccess (MappingType KEY2 VAL) base idx1) idx2))
              [unwrapped E (MappingType KEY2 VAL)
                 (CFuncCall
                    ("Ref_" ++ get_name E
                       (IndexAccess (MappingType KEY2 VAL) base idx1))
                    [b; try_to_wrap E KEY1 k1]);
               try_to_wrap E KEY2 k2; try_to_wrap E VAL v])).
    { rewrite visit_Assignment_IndexAccess. cbn zeta. rewrite HID.
      cbn [Token_eqb negb]. rewrite Hv. cbn [bind].
      rewrite (@generate_mapping_call_Ok E "Write" _
                 (IndexAccess (MappingType KEY2 VAL) base idx1) idx2
                 KEY2 VAL _ k2 v eq_refl Hinner Hk2).
      destruct v; try reflexivity. now elim Hnull. }
    split; [exact Hout|]. rewrite Hout. intros H. discriminate H.
  - intros type_a type base idx rhs op sub KEY VAL b k v id.
    cbn zeta. intros Hty HID Hc Hp Hop Hsup Hb Hk Hv.
    rewrite visit_Assignment_IndexAccess. cbn zeta. rewrite HID, Hc, Hp.
    assert (Hneq : Token_eqb op Assign = false).
    { destruct (Token_eqb op Assign) eqn:Heq; [|reflexivity].
      apply Token_eqb_eq in Heq. now elim Hop. }
    rewrite Hneq. cbn [negb].
    assert (Hread :
      visit E (set_find_ref fl true) (IndexAccess type base idx) sub
      = Ok (unwrapped E type
              (CFuncCall ("Ref_" ++ get_name E (IndexAccess type base idx))
                 [b; try_to_wrap E KEY k]))).
    { now rewrite (visit_IndexAccess E _ type base idx sub Hty Hb Hk). }
    rewrite (generate_binary_op_Ok E _ _ (AssignmentToBinaryOp E op) _ _
               Hread Hv).
    rewrite Hsup. cbn [bind].
    now rewrite (@generate_mapping_call_Ok E "Write" _ base idx KEY VAL b k
                   _ Hty Hb Hk).
Qed.

(** [d[1][2] = 3] of the test [map_assignment], which expects
    [Write_Map_4(&(self->user_d),Init_sol_int256_t(1),Init_sol_int256_t(2),
    Init_sol_int256_t(3))]; and [r[1] += 2] for a storage pointer [r] to a
    map. *)
Lemma Assignment_to_mapping_nests_or_refs_witness :
  let E := ExpressionSupport.with_lvalue_root (TestFixture.env ["r"] "Map_4") ["r"] in
  let d := TestFixture.var "d"
             (MappingType TestFixture.int256
                (MappingType TestFixture.int256 TestFixture.int256)) in
  let d_1 := IndexAccess (MappingType TestFixture.int256 TestFixture.int256)
                         d (TestFixture.number "1") in
  let d_1_2 := IndexAccess TestFixture.int256 d_1 (TestFixture.number "2") in
  let r := TestFixture.var "r"
             (MappingType TestFixture.int256 TestFixture.int256) in
  let r_1 := IndexAccess TestFixture.int256 r (TestFixture.number "1") in
  visit E TestFixture.top
        (Assignment TestFixture.int256 d_1_2 Assign (TestFixture.number "3")) CNull
  = Ok (CFuncCall "Write_Map_4"
          [CFuncCall "Ref_Map_4"
             [CReference (CIdentifier "self->user_d" false);
              CFuncCall "Init_sol_int256_t" [CIntLiteral 1]];
           CFuncCall "Init_sol_int256_t" [CIntLiteral 2];
           CFuncCall "Init_sol_int256_t" [CIntLiteral 3]])
  /\ visit E TestFixture.top
           (Assignment TestFixture.int256 r_1 AssignAdd (TestFixture.number "2"))
           CNull
     = Ok (CFuncCall "Write_Map_4"
             [CReference (CIdentifier "func_user_r" true);
              CFuncCall "Init_sol_int256_t" [CIntLiteral 1];
              CFuncCall "Init_sol_int256_t"
                [CBinaryOp
                   (CMemberAccess
                      (CFuncCall "Ref_Map_4"
                         [CReference (CIdentifier "func_user_r" true);
                          CFuncCall "Init_sol_int256_t" [CIntLiteral 1]]) "v")
                   "+" (CIntLiteral 2)]]).
Proof.
  cbn zeta.
  destruct (Assignment_to_mapping_nests_or_refs
              (ExpressionSupport.with_lvalue_root
                 (TestFixture.env ["r"] "Map_4") ["r"])
              TestFixture.top) as [Hnest Href].
  split.
  - refine (proj1 (Hnest TestFixture.int256 TestFixture.int256
                     (TestFixture.var "d"
                        (MappingType TestFixture.int256
                           (MappingType TestFixture.int256 TestFixture.int256)))
                     (TestFixture.number "1") (TestFixture.number "2")
                     (TestFixture.number "3") CNull
                     TestFixture.int256 TestFixture.int256 TestFixture.int256
                     (CReference (CIdentifier "self->user_d" false))
                     (CIntLiteral 1) (CIntLiteral 2) (CIntLiteral 3)
                     eq_refl eq_refl eq_refl eq_refl eq_refl eq_refl _)).
    discriminate.
  - refine (Href TestFixture.int256 TestFixture.int256
              (TestFixture.var "r"
                 (MappingType TestFixture.int256 TestFixture.int256))
              (TestFixture.number "1") (TestFixture.number "2") AssignAdd CNull
              TestFixture.int256 TestFixture.int256
              (CReference (CIdentifier "func_user_r" true))
              (CIntLiteral 1) (CIntLiteral 2)
              (mkIdentifier "r" (MappingType TestFixture.int256 TestFixture.int256))
              eq_refl eq_refl eq_refl eq_refl _ eq_refl eq_refl eq_refl eq_refl).
    discriminate.
Defined.

(** C3, as the sources have it: an identifier in l-value position keeps its
    [.v]. In [a = 5] of the test [named_function_retvars] the left-hand side
    [a], of the wrapped type [int], is visited with the l-value flag set and
    comes out as [(func_user_a).v]; the statement is emitted as
    [((func_user_a).v)=(5)]. *)
Lemma lvalue_identifier_keeps_unwrap :
  visit (TestFixture.env ["a"] "Map_2") (mkFlags false true None)
        (TestFixture.var "a" TestFixture.int256) CNull
    = Ok (CMemberAccess (CIdentifier "func_user_a" false) "v")
  /\ is_unwrap (CMemberAccess (CIdentifier "func_user_a" false) "v") = true
  /\ visit (TestFixture.env ["a"] "Map_2") TestFixture.top TestFixture.a_is_5 CNull
    = Ok (CBinaryOp (CMemberAccess (CIdentifier "func_user_a" false) "v")
                    "=" (CIntLiteral 5)).
Proof. repeat split. Qed.

Lemma bind_Ok_inv (A B : Type) (c : Result A) (k : A -> Result B) (b : B) :
  bind c k = Ok b -> exists a, c = Ok a /\ k a = Ok b.
Proof.
  destruct c as [a| |]; cbn; intros H; try discriminate H. now exists a.
Qed.

(** C3, amended. For an identifier, a member access (other than on a type
    name) and an index access on a map, each of a wrapped type: the emitted
    expression is the unwrapping [(...).v] exactly when [find_ref] is unset
    (for the index access: always), whatever the l-value flag is. With
    [find_ref] set, identifiers and member accesses come out as references,
    without [.v]. *)
Theorem wrapped_access_unwraps_unless_find_ref
  (E : Env) (fl : Flags) (sub : CExpr) :
  (forall id, is_wrapped_type E (id_type id) = true ->
     exists out, visit E fl (IdentifierExpr id) sub = Ok out
                 /\ is_unwrap out = negb (m_find_ref fl))
  /\
  (forall type e member out,
     is_wrapped_type E type = true ->
     category (annotation_type e) <> TypeType_ ->
     visit E fl (MemberAccess type e member) sub = Ok out ->
     is_unwrap out = negb (m_find_ref fl))
  /\
  (forall type base idx out,
     is_wrapped_type E type = true ->
     visit E fl (IndexAccess type base idx) sub = Ok out ->
     is_unwrap out = true).
Proof.
  split; [|split].
  - intros id Hw. eexists. split; [reflexivity|].
    unfold visit_Identifier. rewrite Hw. now destruct (m_find_ref fl).
  - intros type e member out Hw Hcat Hv. cbn [visit] in Hv.
    apply bind_Ok_inv in Hv as ([s auto] & Hr & Hout).
    assert (Hauto : auto = false).
    { destruct (category (annotation_type e)); try discriminate Hr;
        try (apply bind_Ok_inv in Hr as (x & _ & Hr));
        try (now injection Hr); now elim Hcat. }
    subst auto. rewrite Hw in Hout. cbn [andb negb] in Hout.
    destruct (m_find_ref fl); injection Hout as <-; reflexivity.
  - intros type base idx out Hw Hv. cbn [visit] in Hv.
    destruct (category (annotation_type base)); try discriminate Hv.
    apply bind_Ok_inv in Hv as (call & _ & Hout).
    rewrite Hw in Hout. now injection Hout as <-.
Qed.

Lemma wrapped_access_unwraps_unless_find_ref_witness :
  exists out,
    visit (TestFixture.env ["a"] "Map_2") (mkFlags false true None)
          (TestFixture.var "a" TestFixture.int256) CNull = Ok out
    /\ is_unwrap out = true.
Proof.
  exact (proj1 (wrapped_access_unwraps_unless_find_ref
                  (TestFixture.env ["a"] "Map_2") (mkFlags false true None) CNull)
               (mkIdentifier "a" TestFixture.int256) eq_refl).
Defined.

(** C5, at [dst.send(10)] of the test [payment_function_calls]: the call is
    emitted as [_pay(...)], as for [transfer]; the test expects
    [_pay_use_rv(...)] with these arguments. *)
Theorem send_is_emitted_as_pay :
  visit (TestFixture.env ["dst"] "Map_2") TestFixture.top
        TestFixture.dst_send_10 CNull
  = Ok (CFuncCall "_pay"
          [CReference (CMemberAccess (CIdentifier "self" true) "model_balance");
           CFuncCall "Init_sol_address_t"
             [CMemberAccess (CIdentifier "func_user_dst" false) "v"];
           CFuncCall "Init_sol_uint256_t" [CIntLiteral 10]]).
Proof. reflexivity. Qed.

(** What [print_payment] does for both kinds: exactly one argument is
    required, and the call that is built is always named [_pay]. *)
Lemma print_payment_emits_pay (E : Env) pushed args out :
  print_payment E pushed args = Ok out ->
  exists amount dst amt,
    args = [amount] /\ pushed = Some (Ok dst) /\
    push E false (Some ARG2_TYPE) amount = Ok amt /\
    out = CFuncCall "_pay"
            [CReference (CMemberAccess (CIdentifier "self" true) (balance_member E));
             dst; amt].
Proof.
  unfold print_payment, print_payment_with, push. intros H.
  destruct args as [|amount [|]]; try discriminate H.
  destruct pushed as [[dst| |]|]; try discriminate H. cbn [bind] in H.
  apply bind_Ok_inv in H as (amt & Hamt & Hout).
  exists amount, dst, amt. repeat split; [exact Hamt | now injection Hout].
Qed.

Lemma print_payment_arity (E : Env) pushed args :
  length args <> 1 ->
  print_payment E pushed args = Throw "Payment calls require payment amount.".
Proof.
  intros H. unfold print_payment, print_payment_with.
  destruct args as [|a [|]]; [reflexivity | now elim H | reflexivity].
Qed.

(** C7, as the sources have it: [>>] is rejected on unsigned operands too. *)
Lemma shift_right_unsigned_is_fatal :
  visit (TestFixture.env [] "Map_2") TestFixture.top TestFixture.a_sar_b CNull
  = Throw "Unsupported binary operator:>>".
Proof. reflexivity. Qed.

(** C7, amended. Once both operands are translated, a binary operation with
    the operator [SAR] ([>>]), [SHR] ([>>>]) or [Exp] ([**]) raises a fatal
    error, whatever the types of the operands; every other binary operation
    becomes [CBinaryOp] of the translated operands under the operator's
    name. Once its operand is translated, [Delete] raises a fatal error and
    every other unary operation becomes [CUnaryOp] of the translated
    operand under the operator's name. *)
Theorem operators_are_mapped_or_fatal (E : Env) (fl : Flags) :
  (forall type l op r sub s1 s2,
     visit E fl l sub = Ok s1 ->
     visit E fl r s1 = Ok s2 ->
     (In op [SAR; SHR; Exp] ->
        visit E fl (BinaryOperation type l op r) sub
        = Throw ("Unsupported binary operator:" ++ friendlyName E op))
     /\ (~ In op [SAR; SHR; Exp] ->
        visit E fl (BinaryOperation type l op r) sub
        = Ok (CBinaryOp s1 (friendlyName E op) s2)))
  /\
  (forall type op is_prefix e sub s,
     visit E fl e sub = Ok s ->
     (op = Delete ->
        visit E fl (UnaryOperation type op is_prefix e) sub
        = Throw "Delete not yet supported.")
     /\ (op <> Delete ->
        visit E fl (UnaryOperation type op is_prefix e) sub
        = Ok (CUnaryOp (friendlyName E op) s is_prefix))).
Proof.
  split.
  - intros type l op r sub s1 s2 H1 H2.
    pose proof (generate_binary_op_Ok E fl l op r sub H1 H2) as Hb.
    unfold generate_binary_op in Hb. cbn [visit]. rewrite Hb.
    assert (Hun : unsupported_binary op = true <-> In op [SAR; SHR; Exp]).
    { unfold unsupported_binary. rewrite !orb_true_iff, !Token_eqb_eq.
      cbn [In]. intuition congruence. }
    split; intros Hop.
    + now rewrite (proj2 Hun Hop).
    + destruct (unsupported_binary op); [|reflexivity].
      now elim Hop; apply Hun.
  - intros type op is_prefix e sub s Hs. cbn [visit]. rewrite Hs. cbn [bind].
    split; intros Hop.
    + now rewrite (proj2 (Token_eqb_eq op Delete) Hop).
    + destruct (Token_eqb op Delete) eqn:Heq; [|reflexivity].
      now apply Token_eqb_eq in Heq.
Qed.

Lemma operators_are_mapped_or_fatal_witness :
  visit (TestFixture.env [] "Map_2") TestFixture.top
        (BinaryOperation TestFixture.uint256 (TestFixture.var "a" TestFixture.uint256)
                         Add (TestFixture.var "b" TestFixture.uint256)) CNull
  = Ok (CBinaryOp (CMemberAccess (CIdentifier "self->user_a" false) "v") "+"
                  (CMemberAccess (CIdentifier "self->user_b" false) "v")).
Proof.
  refine (proj2 (proj1 (operators_are_mapped_or_fatal
                          (TestFixture.env [] "Map_2") TestFixture.top)
                       TestFixture.uint256
                       (TestFixture.var "a" TestFixture.uint256) Add
                       (TestFixture.var "b" TestFixture.uint256) CNull
                       (CMemberAccess (CIdentifier "self->user_a" false) "v")
                       (CMemberAccess (CIdentifier "self->user_b" false) "v")
                       eq_refl eq_refl) _).
  cbn [In]. intros [H|[H|[H|[]]]]; discriminate H.
Defined.

Local Close Scope string_scope.

(** ** MainFunctionGenerator *)

Section MainFunctionFacts.
Import CodeGen CodeGenStmt MainFunctionGenerator.

Variable G : MainFunctionGenerator.t.

Lemma numbered_add_case cases body :
  numbered cases -> numbered (add_case cases (size cases) body).
Proof.
  unfold numbered, add_case, size. intros H.
  rewrite map_app, length_app, H, Nat.add_comm. cbn [length map fst Nat.add].
  now rewrite seq_S.
Qed.

(** One pass of the inner loop: the bodies of the specializations are
    appended in order, each under the next free label. *)
Lemma add_actor_spec actor : forall state,
  numbered (fst state) ->
  let state' := add_actor G state actor in
  numbered (fst state')
  /\ map snd (fst state') =
     map snd (fst state)
     ++ map (fun spec => build_case G spec (actor_decl actor)) (specs actor)
  /\ snd state' = snd state + length (specs actor).
Proof.
  unfold add_actor. induction (specs actor) as [|spec l IH]; intros state Hn.
  - cbn. now rewrite app_nil_r, Nat.add_0_r.
  - cbn [fold_left].
    destruct (IH (add_case (fst state) (size (fst state))
                           (build_case G spec (actor_decl actor)),
                  snd state + 1))
      as (H1 & H2 & H3); [now apply numbered_add_case|].
    cbn [fst snd] in *. split; [exact H1|]. split.
    + rewrite H2. unfold add_case. rewrite map_app. cbn [map snd].
      now rewrite <- app_assoc.
    + rewrite H3. cbn [length]. lia.
Qed.

Lemma fold_add_actor_spec l : forall state,
  numbered (fst state) ->
  let state' := fold_left (add_actor G) l state in
  numbered (fst state')
  /\ map snd (fst state') =
     map snd (fst state)
     ++ flat_map (fun actor =>
                    map (fun spec => build_case G spec (actor_decl actor))
                        (specs actor)) l
  /\ snd state' = snd state + length (flat_map specs l).
Proof.
  induction l as [|actor l IH]; intros state Hn.
  - cbn. now rewrite app_nil_r, Nat.add_0_r.
  - cbn [fold_left flat_map].
    destruct (add_actor_spec actor state Hn) as (H1 & H2 & H3).
    destruct (IH _ H1) as (K1 & K2 & K3). cbn zeta. split; [exact K1|]. split.
    + rewrite K2, H2. now rewrite <- app_assoc.
    + rewrite K3, H3, length_app. lia.
Qed.

Lemma length_pairs : length (pairs G) = length (flat_map specs (actors G)).
Proof.
  unfold pairs. induction (actors G) as [|a l IH]; cbn; [reflexivity|].
  now rewrite !length_app, length_map, IH.
Qed.

Lemma bodies_pairs :
  flat_map (fun actor =>
              map (fun spec => build_case G spec (actor_decl actor))
                  (specs actor)) (actors G)
  = map (fun p => build_case G (snd p) (actor_decl (fst p))) (pairs G).
Proof.
  unfold pairs. induction (actors G) as [|a l IH]; cbn [flat_map map];
    [reflexivity|].
  rewrite map_app, map_map, IH. reflexivity.
Qed.

(** What the loop of [print_main] leaves behind. *)
Lemma collect_cases_spec :
  numbered (fst (collect_cases G))
  /\ map snd (fst (collect_cases G))
     = map (fun p => build_case G (snd p) (actor_decl (fst p))) (pairs G)
  /\ snd (collect_cases G) = length (pairs G)
  /\ length (fst (collect_cases G)) = length (pairs G).
Proof.
  unfold collect_cases.
  destruct (fold_add_actor_spec (actors G) ([], 0) eq_refl) as (H1 & H2 & H3).
  cbn [fst snd map app Nat.add] in *. rewrite bodies_pairs in H2.
  rewrite <- length_pairs in H3.
  repeat split; try assumption.
  rewrite <- (length_map snd), H2. apply length_map.
Qed.

(** A label within the numbering is the one of the case at that position,
    and control enters the switch there. *)
Lemma enter_numbered (cases : list (nat * CBlockList)) : forall k v,
  map fst cases = seq k (length cases) ->
  k <= v < k + length cases ->
  exists body rest,
    nth_error cases (v - k) = Some (v, body)
    /\ enter cases v = Some ((v, body) :: rest).
Proof.
  induction cases as [|[n body] cases IH]; intros k v Hl Hk.
  - cbn in Hk. lia.
  - cbn [map fst length seq] in Hl. injection Hl as -> Hl.
    cbn [enter fst]. destruct (Nat.eqb_spec k v) as [->|ne].
    + exists body, cases. rewrite Nat.sub_diag. now split.
    + destruct (IH (S k) v Hl) as (b & rest & Hn & He);
        [cbn [length] in Hk; lia|].
      exists b, rest. split; [|exact He].
      replace (v - k) with (S (v - S k)) by lia. exact Hn.
Qed.

(** A case that holds a [break] among its statements leaves the switch. *)
Lemma until_break_In (body : CBlockList) :
  In CBreak body -> snd (until_break body) = true.
Proof.
  induction body as [|c body IH]; intros Hin; [destruct Hin|].
  destruct Hin as [->|Hin]; [reflexivity|].
  specialize (IH Hin). cbn [until_break].
  destruct c; try reflexivity;
    destruct (until_break body) as [run broke]; exact IH.
Qed.

Lemma flow_break default_ v body rest :
  In CBreak body ->
  flow default_ ((v, body) :: rest) = (fst (until_break body), false).
Proof.
  intros Hin. apply until_break_In in Hin. cbn [flow snd].
  destruct (until_break body) as [run broke]. cbn [snd fst] in *.
  now rewrite Hin.
Qed.

(** A label that no case has takes control to the default case. *)
Lemma enter_none (cases : list (nat * CBlockList)) v :
  ~ In v (map fst cases) -> enter cases v = None.
Proof.
  induction cases as [|[n body] cases IH]; intros Hnot; [reflexivity|].
  cbn [enter fst]. destruct (Nat.eqb_spec n v) as [->|ne].
  - elim Hnot. now left.
  - apply IH. intros Hin. apply Hnot. now right.
Qed.

(** Every case that [build_case] builds holds its [break]. *)
Lemma build_case_breaks spec id_ : In CBreak (build_case G spec id_).
Proof.
  unfold build_case. rewrite !in_app_iff. do 5 right. right. right. now left.
Qed.

(** [expand_interference] in closed form: for every map, the assignment
    and the invariant of every cell of its coordinate space, in
    lexicographic order of the cells. *)
Lemma expand_interference_eq :
  expand_interference G =
  flat_map
    (fun map =>
       let offset :=
         if negb (invar_type_is_universal G)
         then addresses_implicit_count G else 0 in
       let WIDTH := addresses_count G in
       let DEPTH := key_types_size map in
       if (WIDTH =? 0) || (DEPTH =? 0) || (WIDTH <=? offset) then []
       else
         flat_map
           (fun cell =>
              let DATA :=
                CMemberAccess (path map)
                              ("data" ++ KeyIterator.suffix_of cell)%string in
              [stmt (assign DATA
                       (value_nd map
                          (display map ++ "::" ++ KeyIterator.suffix_of cell)%string));
               apply_invariant G DATA map])
           (KeyIterator.tuples offset WIDTH DEPTH))
    (m_maps G).
Proof.
  unfold expand_interference. apply flat_map_ext. intros map. cbn zeta.
  unfold KeyIterator.suffix.
  now rewrite (do_while_enough
                 (fun cell =>
                    [stmt (assign
                             (CMemberAccess (path map)
                                ("data" ++ KeyIterator.suffix_of cell)%string)
                             (value_nd map
                                (display map ++ "::"
                                 ++ KeyIterator.suffix_of cell)%string));
                     apply_invariant G
                       (CMemberAccess (path map)
                          ("data" ++ KeyIterator.suffix_of cell)%string) map])).
Qed.

(** [print_main] in closed form. *)
Lemma print_main_eq :
  print_main G =
  if length (pairs G) =? 0
  then Runtime.Throw "Bundle has no public or external calls."
  else
    let call_cases := fst (collect_cases G) in
    Runtime.Ok
      (mkCFuncDef (decl (mkVar "void" "run_model" false)) []
         (CBlock
            ((stategen_declare G ++ actors_declare G ++ map_constants G
              ++ assign_addresses G ++ initialize G)
             ++ [log G "[Entering transaction loop]";
                 CWhileLoop
                   (CBlock
                      ([stmt (CFuncCall "sol_on_transaction" []);
                        CIf (CFuncCall "sol_is_using_reps" [])
                            (CBlock (expand_interference G)) CNullStmt]
                       ++ stategen_update_global G
                       ++ [decl next_case;
                           stmt (assign (id next_case)
                                   (nd_range G 0 (length call_cases) "next_call"));
                           CSwitch (id next_case) (default_case G) call_cases]))
                   (CFuncCall "sol_continue" []) false]))).
Proof.
  destruct collect_cases_spec as (_ & _ & Hcount & _).
  unfold print_main. destruct (collect_cases G) as [cases count].
  cbn [fst snd] in *. now rewrite Hcount.
Qed.

Lemma last_two (X : Type) (l : list X) (a b d : X) : last (l ++ [a; b]) d = b.
Proof.
  change (l ++ [a; b]) with (l ++ [a] ++ [b]).
  rewrite app_assoc. apply last_last.
Qed.

Lemma last_three (X : Type) (l : list X) (a b c d : X) :
  last (l ++ [a; b; c]) d = c.
Proof.
  change (l ++ [a; b; c]) with (l ++ [a; b] ++ [c]).
  rewrite app_assoc. apply last_last.
Qed.

(** The loop body and the switch of the emitted function. *)
Lemma print_main_switch f :
  print_main G = Runtime.Ok f ->
  0 < length (pairs G)
  /\ fd_id f = decl (mkVar "void" "run_model" false)
  /\ loop_body f =
     Some (([stmt (CFuncCall "sol_on_transaction" []);
             CIf (CFuncCall "sol_is_using_reps" [])
                 (CBlock (expand_interference G)) CNullStmt]
            ++ stategen_update_global G)
           ++ [decl next_case;
               stmt (assign (id next_case)
                       (nd_range G 0 (length (fst (collect_cases G)))
                                 "next_call"));
               CSwitch (id next_case) (default_case G) (fst (collect_cases G))])
  /\ switch_of f = Some (default_case G, fst (collect_cases G)).
Proof.
  rewrite print_main_eq. destruct (Nat.eqb_spec (length (pairs G)) 0) as [e|ne];
    [discriminate|].
  cbn zeta. intros H. injection H as <-.
  assert (Hloop : forall tr,
    loop_body
      (mkCFuncDef (decl (mkVar "void" "run_model" false)) []
         (CBlock
            ((stategen_declare G ++ actors_declare G ++ map_constants G
              ++ assign_addresses G ++ initialize G)
             ++ [log G "[Entering transaction loop]";
                 CWhileLoop (CBlock tr) (CFuncCall "sol_continue" []) false])))
    = Some tr).
  { intros tr. unfold loop_body. cbn [fd_body]. now rewrite last_two. }
  split; [lia|]. split; [reflexivity|]. split.
  - rewrite Hloop. reflexivity.
  - pose proof (last_three
                  ([stmt (CFuncCall "sol_on_transaction" []);
                    CIf (CFuncCall "sol_is_using_reps" [])
                        (CBlock (expand_interference G)) CNullStmt]
                   ++ stategen_update_global G)
                  (decl next_case)
                  (stmt (assign (id next_case)
                           (nd_range G 0 (length (fst (collect_cases G)))
                                     "next_call")))
                  (CSwitch (id next_case) (default_case G)
                           (fst (collect_cases G)))
                  CNullStmt) as Hlast.
    cbn [app] in Hlast.
    unfold switch_of. rewrite Hloop, Hlast. reflexivity.
Qed.

End MainFunctionFacts.

(** The interference block of the small model: three addresses, of which
    the first is implicit, and a map with one key give the two cells
    [data_1] and [data_2]. *)
Example expand_interference_small :
  MainFunctionGenerator.expand_interference
    (HarnessFixture.model [HarnessFixture.contract_0])
  = let cell (suffix : string) :=
      CodeGen.CMemberAccess
        (CodeGen.CMemberAccess (CodeGen.CIdentifier "contract_0" false)
                               "user_balances")
        ("data" ++ suffix)%string in
    let value (suffix : string) :=
      CodeGen.CFuncCall "nd_int256_t"
        [CodeGen.CStringLiteral ("A::balances::" ++ suffix)%string] in
    let invariant (suffix : string) :=
      HarnessFixture.call "sol_require"
        [CodeGen.CFuncCall "Inv_0" [cell suffix]; CodeGen.ZERO] in
    [CodeGenStmt.stmt (CodeGen.assign (cell "_1") (value "_1"));
     invariant "_1";
     CodeGenStmt.stmt (CodeGen.assign (cell "_2") (value "_2"));
     invariant "_2"]%string.
Proof. reflexivity. Qed.

(** C8. [print_main] fails with a fatal error exactly when the model has no
    (actor, function) pair; it never fails otherwise. With at least one pair
    it emits the function [run_model], whose transaction loop ends in a
    switch with one case per pair, in the order of the pairs, the case of a
    pair being built by [build_case]. *)
Theorem print_main_fatal_iff_no_pairs (G : MainFunctionGenerator.t) :
  ((exists what, MainFunctionGenerator.print_main G = Runtime.Throw what)
   <-> length (MainFunctionGenerator.pairs G) = 0)
  /\ MainFunctionGenerator.print_main G <> Runtime.Crash
  /\ (0 < length (MainFunctionGenerator.pairs G) ->
      exists f default_ cases,
        MainFunctionGenerator.print_main G = Runtime.Ok f
        /\ CodeGenStmt.fd_id f
           = CodeGenStmt.decl (CodeGenStmt.mkVar "void" "run_model" false)
        /\ MainFunctionGenerator.switch_of f = Some (default_, cases)
        /\ length cases = length (MainFunctionGenerator.pairs G)
        /\ map snd cases
           = map (fun p => MainFunctionGenerator.build_case G (snd p)
                             (MainFunctionGenerator.actor_decl (fst p)))
                 (MainFunctionGenerator.pairs G)).
Proof.
  pose proof (print_main_eq G) as Heq.
  destruct (collect_cases_spec G) as (_ & Hbodies & _ & Hlen).
  destruct (Nat.eqb_spec (length (MainFunctionGenerator.pairs G)) 0) as [e|ne];
    cbn zeta in Heq.
  - split; [|split].
    + split; [intros _; exact e | intros _; eexists; exact Heq].
    + rewrite Heq. discriminate.
    + intros Hpos. lia.
  - split; [|split].
    + split; [intros [what Hw]; rewrite Heq in Hw; discriminate Hw | intros; contradiction].
    + rewrite Heq. discriminate.
    + intros _.
      destruct (print_main_switch G Heq) as (_ & Hid & _ & Hsw).
      eexists. exists (MainFunctionGenerator.default_case G).
      exists (fst (MainFunctionGenerator.collect_cases G)).
      split; [exact Heq|]. split; [reflexivity|]. split; [exact Hsw|].
      split; assumption.
Qed.

Lemma print_main_fatal_iff_no_pairs_witness :
  (exists f default_ cases,
     MainFunctionGenerator.print_main
       (HarnessFixture.model [HarnessFixture.contract_0])
     = Runtime.Ok f
     /\ MainFunctionGenerator.switch_of f = Some (default_, cases)
     /\ length cases = 2)
  /\ MainFunctionGenerator.print_main (HarnessFixture.model [])
     = Runtime.Throw "Bundle has no public or external calls.".
Proof.
  split.
  - destruct (proj2 (proj2 (print_main_fatal_iff_no_pairs
                              (HarnessFixture.model [HarnessFixture.contract_0])))
                    ltac:(cbn; lia))
      as (f & d & cases & Hf & _ & Hsw & Hlen & _).
    exists f, d, cases. repeat split; assumption.
  - destruct (proj2 (proj1 (print_main_fatal_iff_no_pairs (HarnessFixture.model [])))
                    eq_refl) as [what Hw].
    rewrite Hw. vm_compute in Hw. injection Hw as <-. reflexivity.
Defined.

(** A case without a [break] runs on into what follows it, and the last
    one into the default case; a value without a case goes there at once. *)
Example case_without_break_falls_into_default :
  let log_ := CodeGenStmt.stmt (CodeGen.CFuncCall "sol_log" []) in
  let fail := CodeGenStmt.stmt (CodeGen.CFuncCall "sol_require" [CodeGen.ZERO]) in
  CodeGenStmt.switch_run [fail] [(0, [log_]); (1, [log_; CodeGenStmt.CBreak])] 1
  = ([log_], false)
  /\ CodeGenStmt.switch_run [fail] [(0, [log_; CodeGenStmt.CBreak]); (1, [log_])] 1
     = ([log_; fail], true)
  /\ CodeGenStmt.switch_run [fail] [(0, [log_; CodeGenStmt.CBreak])] 1
     = ([fail], true).
Proof. cbn zeta. repeat split. Qed.

(** C10. In an emitted [run_model] the cases of the switch carry the labels
    [0 .. case_count - 1], each being the size of the switch when the case
    was added; [next_call] is assigned [nd_range(0, case_count)] right
    before the switch. So for every value [v < case_count] that this
    assignment can leave in the [uint8_t] [next_call], control enters the
    switch at the case of that label, which is the case at that position;
    it runs the statements of this case up to its [break] and leaves the
    switch there, since [build_case] ends every case with a [break]: it
    neither falls into another case nor comes to the default case, which
    requires false with the message [Model failure, next_call out of
    bounds.]. A value from [case_count] on would come to the default
    case. *)
Theorem default_case_unreachable
  (G : MainFunctionGenerator.t) (f : CodeGenStmt.CFuncDef)
  (default_ : CodeGenStmt.CBlockList)
  (cases : list (nat * CodeGenStmt.CBlockList)) :
  MainFunctionGenerator.print_main G = Runtime.Ok f ->
  MainFunctionGenerator.switch_of f = Some (default_, cases) ->
  map fst cases = seq 0 (length cases)
  /\ default_ = [MainFunctionGenerator.add_require G CodeGen.ZERO
                   "Model failure, next_call out of bounds."]
  /\ (exists before,
        MainFunctionGenerator.loop_body f =
        Some (before ++
              [CodeGenStmt.decl MainFunctionGenerator.next_case;
               CodeGenStmt.stmt
                 (CodeGen.assign
                    (CodeGenStmt.id MainFunctionGenerator.next_case)
                    (MainFunctionGenerator.nd_range G 0 (length cases) "next_call"));
               CodeGenStmt.CSwitch
                 (CodeGenStmt.id MainFunctionGenerator.next_case) default_ cases]))
  /\ (forall v, v < length cases ->
        let next_call := MainFunctionGenerator.next_call_value v in
        exists body,
          nth_error cases next_call = Some (next_call, body)
          /\ In CodeGenStmt.CBreak body
          /\ CodeGenStmt.switch_run default_ cases next_call
             = (fst (CodeGenStmt.until_break body), false))
  /\ (forall v, length cases <= v ->
        CodeGenStmt.switch_run default_ cases v = (default_, true)).
Proof.
  intros Hf Hsw.
  destruct (print_main_switch G Hf) as (_ & _ & Hloop & Hsw').
  rewrite Hsw' in Hsw. injection Hsw as <- <-.
  destruct (collect_cases_spec G) as (Hnum & Hbodies & _).
  split; [exact Hnum|]. split; [reflexivity|]. split; [|split].
  - eexists. exact Hloop.
  - intros v Hv. cbn zeta.
    assert (Hw : 0 <= MainFunctionGenerator.next_call_value v
                 < 0 + length (fst (MainFunctionGenerator.collect_cases G))).
    { unfold MainFunctionGenerator.next_call_value.
      pose proof (Nat.Div0.mod_le v 256). lia. }
    destruct (enter_numbered _ Hnum Hw) as (body & rest & Hnth & Henter).
    rewrite Nat.sub_0_r in Hnth.
    assert (Hbreak : In CodeGenStmt.CBreak body).
    { assert (Hin : In body (map snd (fst (MainFunctionGenerator.collect_cases G)))).
      { apply nth_error_In in Hnth. now apply (in_map snd) in Hnth. }
      rewrite Hbodies in Hin. apply in_map_iff in Hin as (p & <- & _).
      apply build_case_breaks. }
    exists body. split; [exact Hnth|]. split; [exact Hbreak|].
    unfold CodeGenStmt.switch_run. rewrite Henter.
    now apply flow_break.
  - intros v Hv. unfold CodeGenStmt.switch_run.
    rewrite enter_none; [reflexivity|].
    unfold CodeGenStmt.numbered in Hnum. rewrite Hnum, in_seq. lia.
Qed.

Lemma default_case_unreachable_witness :
  exists f default_ cases,
    MainFunctionGenerator.print_main
      (HarnessFixture.model [HarnessFixture.contract_0])
    = Runtime.Ok f
    /\ MainFunctionGenerator.switch_of f = Some (default_, cases)
    /\ map fst cases = [0; 1]
    /\ snd (CodeGenStmt.switch_run default_ cases 1) = false.
Proof.
  eexists. eexists. eexists.
  split; [reflexivity|]. split; [reflexivity|].
  destruct (@default_case_unreachable
              (HarnessFixture.model [HarnessFixture.contract_0])
              _ _ _ eq_refl eq_refl) as (Hlabels & _ & _ & Hrun & _).
  split; [exact Hlabels|].
  destruct (Hrun 1 ltac:(cbn; lia)) as (body & _ & _ & Hsw).
  exact (f_equal snd Hsw).
Defined.

(** ** StateGenerator *)

Section StateGeneratorFacts.
Import CodeGen CodeGenStmt StateGenerator.
Local Open Scope string_scope.
Local Open Scope Z_scope.

Lemma exec_block_nil s nd : exec_block [] s nd = Some (s, nd).
Proof. reflexivity. Qed.

Lemma exec_block_cons c l s nd :
  exec_block (c :: l) s nd =
  match exec c s nd with
  | Some (s', nd') => exec_block l s' nd'
  | None => None
  end.
Proof. reflexivity. Qed.

Lemma exec_assign x rhs s nd :
  exec (stmt (assign (access (CIdentifier x false) "v") rhs)) s nd =
  match eval rhs s nd with
  | Some (z, nd') => Some (set s x z, nd')
  | None => None
  end.
Proof. reflexivity. Qed.

Lemma eval_range lo hi msg s nd :
  eval (range lo hi msg) s nd =
  choose (fun v => (Z.of_nat lo <=? v) && (v <? Z.of_nat hi)) nd.
Proof. reflexivity. Qed.

Lemma eval_increase x strict msg s nd :
  eval (increase (access (CIdentifier x false) "v") strict msg) s nd =
  choose (fun v => if strict then s x <? v else s x <=? v) nd.
Proof. now destruct strict. Qed.

Lemma choose_Some accepts nd v nd' :
  choose accepts nd = Some (v, nd') -> accepts v = true /\ nd = v :: nd'.
Proof.
  destruct nd as [|w nd0]; cbn; [discriminate|].
  destruct (accepts w) eqn:Hw; [|discriminate].
  intros H. injection H as <- <-. now split.
Qed.

(** One assignment of a chosen value. *)
Lemma exec_assign_choice x rhs accepts s nd s' nd' :
  (forall s0 nd0, eval rhs s0 nd0 = choose (accepts s0) nd0) ->
  exec (stmt (assign (access (CIdentifier x false) "v") rhs)) s nd = Some (s', nd') ->
  exists v, accepts s v = true /\ nd = v :: nd' /\ s' = set s x v.
Proof.
  intros Hrhs. rewrite exec_assign, Hrhs.
  destruct (choose (accepts s) nd) as [[v nd0]|] eqn:Hc; [|discriminate].
  intros H. injection H as <- <-.
  apply choose_Some in Hc as [Hv ->]. now exists v.
Qed.

Ltac run_step H :=
  rewrite exec_block_cons in H;
  match type of H with
  | match ?c with _ => _ end = _ =>
      let E := fresh "Hstep" in
      destruct c as [[? ?]|] eqn:E; [|discriminate H]
  end.

Variable G : StateGenerator.t.
Hypothesis Horder : order G = callstate_order.

(** [update] without lockstep: three choices are taken, for the sender and
    for the two clocks, which are advanced without condition. *)
Lemma update_without_lockstep s nd s' nd' :
  M_USE_LOCKSTEP_TIME G = false ->
  exec_block (update G) s nd = Some (s', nd') ->
  exists a b t,
    nd = a :: b :: t :: nd'
    /\ Z.of_nat (minaddr G) <= a < Z.of_nat (size G)
    /\ s "blocknum" <= b /\ s "timestamp" <= t
    /\ s' = set (set (set (set s "sender" a) "value" 0) "blocknum" b) "timestamp" t.
Proof.
  intros Hlock H. unfold update in H. rewrite Hlock, Horder in H.
  cbn [callstate_order flat_map update_field field name app] in H.
  rewrite Hlock in H. cbn [app] in H.
  run_step H.
  apply exec_assign_choice
    with (accepts := fun _ v => (Z.of_nat (minaddr G) <=? v) && (v <? Z.of_nat (size G)))
    in Hstep as (a & Ha & -> & ->); [|intros; apply eval_range].
  run_step H. rewrite exec_assign in Hstep. cbn [eval ZERO] in Hstep.
  injection Hstep as <- <-.
  run_step H.
  apply exec_assign_choice with (accepts := fun s0 v => s0 "blocknum" <=? v)
    in Hstep as (b & Hb & -> & ->); [|intros; apply eval_increase].
  run_step H.
  apply exec_assign_choice with (accepts := fun s0 v => s0 "timestamp" <=? v)
    in Hstep as (t & Ht & -> & ->); [|intros; apply eval_increase].
  rewrite exec_block_nil in H. injection H as <- <-.
  exists a, b, t. cbn in Hb, Ht. apply andb_prop in Ha as [Ha1 Ha2].
  repeat split; try reflexivity; lia.
Qed.

Lemma exec_if_take_step c s nd :
  exec (CIf (id M_STEPVAR) (CBlock [c]) CNullStmt) s nd =
  if s "take_step" =? 0 then Some (s, nd) else exec c s nd.
Proof.
  cbn [exec eval id M_STEPVAR var_name var_is_pointer].
  destruct (s "take_step" =? 0); [reflexivity|].
  now destruct (exec c s nd) as [[? ?]|].
Qed.

(** [update] with lockstep: [take_step] is chosen in [0, 2), then the
    sender; the clocks are advanced, and then strictly, only if [take_step]
    is set. *)
Lemma update_with_lockstep s nd s' nd' :
  M_USE_LOCKSTEP_TIME G = true ->
  exec_block (update G) s nd = Some (s', nd') ->
  exists k a,
    0 <= k < 2
    /\ Z.of_nat (minaddr G) <= a < Z.of_nat (size G)
    /\ let s1 := set (set (set s "take_step" k) "sender" a) "value" 0 in
       (k = 0 /\ nd = k :: a :: nd' /\ s' = s1
        \/ k <> 0 /\ exists b t,
             nd = k :: a :: b :: t :: nd'
             /\ s "blocknum" < b /\ s "timestamp" < t
             /\ s' = set (set s1 "blocknum" b) "timestamp" t).
Proof.
  intros Hlock H. unfold update in H. rewrite Hlock, Horder in H.
  cbn [callstate_order flat_map update_field field name app] in H.
  rewrite Hlock in H. cbn [app] in H.
  run_step H.
  change (stmt (assign (id M_STEPVAR) (range 0 2 "take_step")))
    with (stmt (assign (CIdentifier "take_step" false) (range 0 2 "take_step")))
    in Hstep.
  assert (Hk : exists k, 0 <= k < 2 /\ nd = k :: l /\ s0 = set s "take_step" k).
  { cbn [exec stmt assign cell] in Hstep. rewrite eval_range in Hstep.
    destruct (choose _ nd) as [[k nd0]|] eqn:Hc; [|discriminate Hstep].
    injection Hstep as <- <-. apply choose_Some in Hc as [Hk ->].
    apply andb_prop in Hk as [Hk1 Hk2]. cbn in Hk1, Hk2. exists k.
    repeat split; try reflexivity; lia. }
  destruct Hk as (k & Hk & -> & ->). clear Hstep.
  run_step H.
  apply exec_assign_choice
    with (accepts := fun _ v => (Z.of_nat (minaddr G) <=? v) && (v <? Z.of_nat (size G)))
    in Hstep as (a & Ha & -> & ->); [|intros; apply eval_range].
  run_step H. rewrite exec_assign in Hstep. cbn [eval ZERO] in Hstep.
  injection Hstep as <- <-.
  apply andb_prop in Ha as [Ha1 Ha2].
  exists k, a. split; [exact Hk|]. split; [lia|]. cbn zeta.
  run_step H. rewrite exec_if_take_step in Hstep.
  run_step H. rewrite exec_if_take_step in Hstep0.
  rewrite exec_block_nil in H. injection H as <- <-.
  change (set (set (set s "take_step" k) "sender" a) "value" 0 "take_step")
    with k in Hstep.
  destruct (Z.eqb_spec k 0) as [->|Hne].
  - injection Hstep as <- <-.
    change (set (set (set s "take_step" 0) "sender" a) "value" 0 "take_step")
      with 0 in Hstep0.
    cbn [Z.eqb] in Hstep0. injection Hstep0 as <- <-. now left.
  - right. split; [exact Hne|].
    apply exec_assign_choice with (accepts := fun s0 v => s0 "blocknum" <? v)
      in Hstep as (b & Hb & -> & ->); [|intros; apply eval_increase].
    change (set (set (set (set s "take_step" k) "sender" a) "value" 0)
                "blocknum" b "take_step") with k in Hstep0.
    destruct (Z.eqb_spec k 0) as [e|_]; [contradiction|].
    apply exec_assign_choice with (accepts := fun s0 v => s0 "timestamp" <? v)
      in Hstep0 as (t & Ht & -> & ->); [|intros; apply eval_increase].
    exists b, t. cbn in Hb, Ht. repeat split; try reflexivity; lia.
Qed.

(** [declare] leaves [paid] at 1. *)
Lemma declare_sets_paid s nd s' nd' :
  exec_block (declare G) s nd = Some (s', nd') -> s' "paid" = 1.
Proof.
  unfold declare. rewrite Horder. intros H.
  destruct (M_USE_LOCKSTEP_TIME G) eqn:Hlock;
    cbn [callstate_order flat_map declare_field field name tname type app] in H;
    rewrite Hlock in H; cbn [app] in H.
  - destruct nd as [|v1 [|v2 nd0]]; try discriminate H.
    cbn in H. injection H as <- <-. reflexivity.
  - cbn in H. injection H as <- <-. reflexivity.
Qed.

Lemma minaddr_positive :
  (1 <= contract_count G)%nat \/ In 0%nat (literals G) -> (1 <= minaddr G)%nat.
Proof.
  unfold minaddr. intros [Hc|Hl]; [lia|].
  replace (existsb (Nat.eqb 0) (literals G)) with true; [lia|].
  symmetry. apply existsb_exists. exists 0%nat. now split.
Qed.

(** The facts of one update, in both modes. *)
Lemma update_facts s nd s' nd' :
  exec_block (update G) s nd = Some (s', nd') ->
  s "blocknum" <= s' "blocknum" /\ s "timestamp" <= s' "timestamp"
  /\ (M_USE_LOCKSTEP_TIME G = true ->
      (s' "take_step" = 0
       /\ s' "blocknum" = s "blocknum" /\ s' "timestamp" = s "timestamp")
      \/ (s' "take_step" = 1
          /\ s "blocknum" < s' "blocknum" /\ s "timestamp" < s' "timestamp"))
  /\ s' "value" = 0
  /\ Z.of_nat (minaddr G) <= s' "sender" < Z.of_nat (size G)
  /\ s' "paid" = s "paid" /\ s' "origin" = s "origin".
Proof.
  intros H. destruct (M_USE_LOCKSTEP_TIME G) eqn:Hlock.
  - apply (update_with_lockstep _ _ Hlock) in H
      as (k & a & Hk & Ha & [(-> & _ & ->)|(Hne & b & t & _ & Hb & Ht & ->)]);
      cbn; repeat split; lia.
  - apply (update_without_lockstep _ _ Hlock) in H
      as (a & b & t & _ & Ha & Hb & Ht & ->).
    cbn. repeat split; try lia.
Qed.

(** Over any number of updates the clocks do not go back, and [paid] and
    [origin] keep their values. *)
Lemma updates_facts n : forall s nd s' nd',
  updates G n s nd = Some (s', nd') ->
  s "blocknum" <= s' "blocknum" /\ s "timestamp" <= s' "timestamp"
  /\ s' "paid" = s "paid" /\ s' "origin" = s "origin".
Proof.
  induction n as [|n IH]; intros s nd s' nd' H; cbn [updates] in H.
  - injection H as <- <-. repeat split; lia.
  - destruct (exec_block (update G) s nd) as [[s1 nd1]|] eqn:H1; [|discriminate H].
    apply update_facts in H1 as (Hb & Ht & _ & _ & _ & Hp & Ho).
    apply IH in H as (Hb' & Ht' & Hp' & Ho').
    rewrite Hp', Ho', Hp, Ho. repeat split; lia.
Qed.

End StateGeneratorFacts.

(** C6, as the sources have it: without lockstep the clocks are advanced in
    every update. The generator has lockstep disabled; the emitted update
    holds the two steps without a guard, and running it takes [blocknum]
    from 0 to 5 and [timestamp] from 0 to 7. *)
Lemma clocks_advance_without_lockstep :
  let G := StateGenerator.over_callstate false 1 3 [] in
  let v (x : string) := CodeGen.access (CodeGen.CIdentifier x false) "v" in
  StateGenerator.M_USE_LOCKSTEP_TIME G = false
  /\ StateGenerator.update G
     = [CodeGenStmt.stmt
          (CodeGen.assign (v "sender") (StateGenerator.range 1 3 "sender"));
        CodeGenStmt.stmt (CodeGen.assign (v "value") CodeGen.ZERO);
        CodeGenStmt.stmt
          (CodeGen.assign (v "blocknum")
             (StateGenerator.increase (v "blocknum") false "blocknum"));
        CodeGenStmt.stmt
          (CodeGen.assign (v "timestamp")
             (StateGenerator.increase (v "timestamp") false "timestamp"))]%string
  /\ match StateGenerator.exec_block (StateGenerator.update G)
                                     StateGenerator.zero [1; 5; 7]%Z with
     | Some (s', _) =>
         StateGenerator.zero "blocknum"%string = 0%Z
         /\ s' "blocknum"%string = 5%Z /\ s' "timestamp"%string = 7%Z
     | None => False
     end.
Proof. cbn zeta. split; [reflexivity|]. split; [reflexivity|]. vm_compute. repeat split. Qed.

(** C6, amended. In the update emitted for an iteration of the harness
    loop, over the call state [sender, value, blocknum, timestamp, paid,
    origin]: [blocknum] and [timestamp] never decrease; with lockstep they
    change only if the non-deterministic [take_step] is set, and then
    strictly increase; without lockstep they are advanced, not strictly, in
    every update. [value] is reset to 0. [sender] is a non-deterministic
    address from the first one after the contracts (and after address 0 if
    that is a literal) up to the size of the address space, hence not 0 if
    there is a contract or 0 is a literal. [paid] and [origin] are left as
    they are, over any number of updates, and [paid] is 1 after the
    declaration. *)
Theorem update_call_state
  (G : StateGenerator.t) (s s' : StateGenerator.Store) (nd nd' : list Z) :
  StateGenerator.order G = StateGenerator.callstate_order ->
  StateGenerator.exec_block (StateGenerator.update G) s nd = Some (s', nd') ->
  (s "blocknum" <= s' "blocknum" /\ s "timestamp" <= s' "timestamp")%Z%string
  /\ (StateGenerator.M_USE_LOCKSTEP_TIME G = true ->
      (s' "take_step" = 0
       /\ s' "blocknum" = s "blocknum" /\ s' "timestamp" = s "timestamp")
      \/ (s' "take_step" = 1
          /\ s "blocknum" < s' "blocknum"
          /\ s "timestamp" < s' "timestamp"))%Z%string
  /\ (StateGenerator.M_USE_LOCKSTEP_TIME G = false ->
      exists a b t, nd = a :: b :: t :: nd'
                    /\ s' "blocknum"%string = b /\ s' "timestamp"%string = t)
  /\ s' "value"%string = 0%Z
  /\ (Z.of_nat (StateGenerator.minaddr G) <= s' "sender"%string
      < Z.of_nat (StateGenerator.size G))%Z
  /\ ((1 <= StateGenerator.contract_count G
       \/ In 0 (StateGenerator.literals G)) -> s' "sender"%string <> 0%Z)
  /\ (s' "paid" = s "paid" /\ s' "origin" = s "origin")%string
  /\ (forall n s2 nd2,
        StateGenerator.updates G n s' nd' = Some (s2, nd2) ->
        (s' "blocknum" <= s2 "blocknum" /\ s' "timestamp" <= s2 "timestamp"
         /\ s2 "paid" = s "paid" /\ s2 "origin" = s "origin")%Z%string)
  /\ (forall s0 nd0 s1 nd1,
        StateGenerator.exec_block (StateGenerator.declare G) s0 nd0
        = Some (s1, nd1) ->
        s1 "paid"%string = 1%Z).
Proof.
  intros Horder H.
  destruct (update_facts G Horder _ _ H) as (Hb & Ht & Hstep & Hv & Hs & Hp & Ho).
  split; [now split|]. split; [exact Hstep|]. split.
  { intros Hlock.
    destruct (update_without_lockstep G Horder _ _ Hlock H)
      as (a & b & t & Hnd & _ & _ & _ & ->).
    exists a, b, t. now repeat split. }
  split; [exact Hv|]. split; [exact Hs|]. split.
  { intros Hpos. pose proof (minaddr_positive G Hpos). lia. }
  split; [now split|]. split.
  - intros n s2 nd2 Hn.
    destruct (updates_facts G Horder _ _ _ Hn) as (Hb2 & Ht2 & Hp2 & Ho2).
    rewrite Hp2, Ho2, Hp, Ho. now repeat split.
  - intros s0 nd0 s1 nd1. apply (declare_sets_paid G Horder).
Qed.

Lemma update_call_state_witness :
  exists s',
    StateGenerator.exec_block
      (StateGenerator.update (StateGenerator.over_callstate true 1 3 []))
      StateGenerator.zero [1; 2; 5; 7]%Z = Some (s', [])
    /\ s' "take_step"%string = 1%Z
    /\ (0 < s' "blocknum"%string)%Z
    /\ s' "sender"%string <> 0%Z.
Proof.
  eexists. split; [reflexivity|].
  pose proof (@update_call_state
                (StateGenerator.over_callstate true 1 3 [])
                StateGenerator.zero _ [1; 2; 5; 7]%Z [] eq_refl eq_refl)
    as (_ & Hstep & _ & _ & _ & Hsender & _).
  split; [reflexivity|]. split; [reflexivity|].
  apply Hsender. left. cbn. lia.
Defined.

(** ** The modifier chain *)

Section ModifierFacts.
Import CodeGen CodeGenStmt ModifierBlockConverter.

Variable F : Factory.

Lemma target_events_lower next : forall s,
  target_events (lower F next s) =
  map (fun ev => match ev with
                 | Some e => e
                 | None => lower_placeholder F next
                 end) (source_events s).
Proof.
  fix IH 1. intros [| |e|stmts|cond tcase fcase|cond body];
    cbn [lower source_events target_events stmt map].
  - reflexivity.
  - unfold lower_return. now destruct (m_rv F).
  - reflexivity.
  - induction stmts as [|s l IHl]; cbn [map flat_map]; [reflexivity|].
    now rewrite map_app, IH, IHl.
  - now rewrite map_app, !IH.
  - apply IH.
Qed.

Lemma target_events_body next body :
  flat_map target_events (map (lower F next) body) =
  map (fun ev => match ev with
                 | Some e => e
                 | None => lower_placeholder F next
                 end) (flat_map source_events body).
Proof.
  induction body as [|s l IH]; [reflexivity|].
  cbn [map flat_map]. now rewrite map_app, target_events_lower, IH.
Qed.

Lemma target_events_enter : flat_map target_events (enter F) = [].
Proof. unfold enter. now destruct (m_rv F). Qed.

End ModifierFacts.

(** C4. Spec-modelled: the bodies of the modifier converter are outside the
    sources. For a function with the name [name] and [n] modifiers that are
    not constructor calls: with [n = 0] the exported method is the base
    body; with [n > 0] it wraps the function of the first modifier; in the
    body generated for the [i]-th modifier every placeholder, and nothing
    else, is replaced by the code that calls the function of modifier
    [i + 1], or for the last modifier the [_base] function; the other
    expression statements stay as they are. Constructor calls among the
    invocations get no function. *)
Theorem modifier_chain
  (func : ModifierBlockConverter.FunctionDefinition) (name : string) :
  let F := ModifierBlockConverter.make func name in
  let n := ModifierBlockConverter.len F in
  (n = 0 ->
     ModifierBlockConverter.exported_method F
     = (name, ModifierBlockConverter.BaseBody))
  /\ (0 < n ->
     ModifierBlockConverter.exported_method F
     = (name, ModifierBlockConverter.Wraps
                (ModifierBlockConverter.modifier_function F 0)))
  /\ n = length (filter (fun inv =>
                           match ModifierBlockConverter.definition inv with
                           | Some _ => true
                           | None => false
                           end)
                        (ModifierBlockConverter.modifiers func))
  /\ (forall i, i < n ->
       let next :=
         if S i <? n then ModifierBlockConverter.modifier_function F (S i)
         else ModifierBlockConverter.base_function F in
       exists body block,
         nth_error (ModifierBlockConverter.m_filtered_mods F) i = Some body
         /\ ModifierBlockConverter.generate F i = Some block
         /\ ModifierBlockConverter.callee
              (ModifierBlockConverter.lower_placeholder F next) = Some next
         /\ ModifierBlockConverter.target_events block
            = map (fun ev =>
                     match ev with
                     | Some e => e
                     | None => ModifierBlockConverter.lower_placeholder F next
                     end)
                  (flat_map ModifierBlockConverter.source_events body)).
Proof.
  intros F n. split; [|split; [|split]].
  - unfold n, ModifierBlockConverter.len, ModifierBlockConverter.exported_method,
      ModifierBlockConverter.empty.
    destruct (ModifierBlockConverter.m_filtered_mods F); [reflexivity | discriminate].
  - unfold n, ModifierBlockConverter.len, ModifierBlockConverter.exported_method,
      ModifierBlockConverter.empty.
    destruct (ModifierBlockConverter.m_filtered_mods F); cbn; [lia | reflexivity].
  - unfold n, F, ModifierBlockConverter.len, ModifierBlockConverter.make. cbn.
    induction (ModifierBlockConverter.modifiers func) as [|inv l IH];
      [reflexivity|].
    cbn. destruct (ModifierBlockConverter.definition inv); cbn; now rewrite IH.
  - intros i Hi next.
    destruct (nth_error (ModifierBlockConverter.m_filtered_mods F) i)
      as [body|] eqn:Hnth.
    + exists body. eexists. split; [reflexivity|].
      unfold ModifierBlockConverter.generate. rewrite Hnth.
      split; [reflexivity|]. split.
      * unfold ModifierBlockConverter.lower_placeholder.
        now destruct (ModifierBlockConverter.m_rv F).
      * cbn [ModifierBlockConverter.target_events].
        rewrite flat_map_app, target_events_enter. cbn [app].
        apply target_events_body.
    + apply nth_error_None in Hnth. unfold n, ModifierBlockConverter.len in Hi. lia.
Qed.

Lemma modifier_chain_witness :
  ModifierBlockConverter.exported_method ModifierBlockConverter.test_f
  = ("Method_A_Funcf"%string,
     ModifierBlockConverter.Wraps "Method_A_Funcf_mod0"%string)
  /\ exists body block,
       nth_error (ModifierBlockConverter.m_filtered_mods
                    ModifierBlockConverter.test_f) 1 = Some body
       /\ ModifierBlockConverter.generate ModifierBlockConverter.test_f 1
          = Some block
       /\ ModifierBlockConverter.callee
            (ModifierBlockConverter.lower_placeholder
               ModifierBlockConverter.test_f "Method_A_Funcf_base"%string)
          = Some "Method_A_Funcf_base"%string
       /\ ModifierBlockConverter.target_events block
          = [CodeGen.CFuncCall "Method_A_Funcf_base"%string
               ModifierBlockConverter.test_args].
Proof.
  pose proof (modifier_chain
                (ModifierBlockConverter.m_func ModifierBlockConverter.test_f)
                "Method_A_Funcf"%string) as (_ & Hwrap & _ & Hbody).
  split.
  - exact (Hwrap (le_S _ _ (le_n 1))).
  - destruct (Hbody 1 (le_n 2)) as (body & block & H1 & H2 & H3 & H4).
    exists body, block. vm_compute in H1. injection H1 as <-.
    repeat split; assumption.
Defined.

(* ====================================================================== *)
(** * Further properties of the translated sources *)
(* ====================================================================== *)

(** ** KeyIterator: the states between the calls of [next] *)

Lemma after_add a b it :
  KeyIterator.after (a + b) it = KeyIterator.after a (KeyIterator.after b it).
Proof.
  induction a as [|a IH]; cbn [Nat.add KeyIterator.after];
    [reflexivity | now rewrite IH].
Qed.

Lemma advance_bounds w o stack :
  Forall (fun x => o <= x < w) stack ->
  Forall (fun x => o <= x < w) (KeyIterator.advance w stack)
  /\ length (KeyIterator.advance w stack) <= length stack.
Proof.
  induction 1 as [|back rest Hb Hr [IH1 IH2]]; cbn [KeyIterator.advance length].
  - split; [constructor | lia].
  - destruct (Nat.eqb_spec (S back) w).
    + split; [exact IH1 | lia].
    + split; [constructor; [lia | assumption] | cbn [length]; lia].
Qed.

(** One call of [next] on an iterator within its bounds. *)
Lemma next_bounds w d o stack :
  length stack <= d -> Forall (fun x => o <= x < w) stack ->
  exists stack',
    snd (KeyIterator.next (KeyIterator.mk w d o stack)) = KeyIterator.mk w d o stack'
    /\ length stack' <= d /\ Forall (fun x => o <= x < w) stack'.
Proof.
  intros Hlen Hall. unfold KeyIterator.next.
  cbn [KeyIterator.M_WIDTH KeyIterator.M_DEPTH KeyIterator.M_WIDTH_OFFSET
       KeyIterator.m_indices].
  destruct ((w =? 0) || (d =? 0) || (w <=? o)) eqn:Hdeg.
  - exists stack. now repeat split.
  - apply orb_false_elim in Hdeg as [Hdeg Ho].
    apply orb_false_elim in Hdeg as [Hw Hd].
    apply Nat.eqb_neq in Hd. apply Nat.leb_gt in Ho.
    unfold KeyIterator.is_full.
    cbn [KeyIterator.M_DEPTH KeyIterator.m_indices snd].
    replace (0 <? d) with true by (symmetry; apply Nat.ltb_lt; lia).
    cbn [andb]. destruct (Nat.eqb_spec (length stack) d) as [e|ne]; cbn [negb].
    + destruct (advance_bounds Hall) as [H1 H2].
      exists (KeyIterator.advance w stack). repeat split; [lia | assumption].
    + exists (o :: stack). repeat split; [cbn [length]; lia|].
      constructor; [lia | assumption].
Qed.

(** X1. However often [next] has been called on a fresh
    [KeyIterator(w, d, o)], the constants are as they were given, [size()]
    is at most the depth, and every index lies in [o, w): when [next]
    returns, no index is left at the width or beyond it. *)
Theorem KeyIterator_next_keeps_bounds (w d o k : nat) :
  let it := KeyIterator.after k (KeyIterator.create w d o) in
  KeyIterator.M_WIDTH it = w
  /\ KeyIterator.M_DEPTH it = d
  /\ KeyIterator.M_WIDTH_OFFSET it = o
  /\ KeyIterator.size it <= d
  /\ Forall (fun x => o <= x < w) (KeyIterator.m_indices it).
Proof.
  cbn zeta.
  assert (H : exists stack,
             KeyIterator.after k (KeyIterator.create w d o)
             = KeyIterator.mk w d o stack
             /\ length stack <= d /\ Forall (fun x => o <= x < w) stack).
  { induction k as [|k (stack & IHk & Hlen & Hall)].
    - exists []. repeat split; [cbn; lia | constructor].
    - cbn [KeyIterator.after]. rewrite IHk. now apply next_bounds. }
  destruct H as (stack & -> & Hlen & Hall).
  unfold KeyIterator.size. cbn. now repeat split.
Qed.

Section KeyIteratorRun.
Import KeyIterator.

Variables W D O : nat.
Hypothesis depth_pos : 1 <= D.
Hypothesis offset_lt : O < W.

Let st (p : list nat) : t := mk W D O p.

Lemma next_st p :
  next (st p) =
  let stack := if negb (length p =? D) then O :: p else advance W p in
  (negb (is_empty stack), st stack).
Proof.
  unfold next, st. cbn [M_WIDTH M_DEPTH M_WIDTH_OFFSET m_indices].
  rewrite (guard_false depth_pos offset_lt).
  now rewrite is_full_st by assumption.
Qed.

Lemma calls_pos span k : 1 <= calls span k.
Proof. destruct k; cbn [calls]; lia. Qed.

(** The calls below one prefix: after [calls (W - O) k] of them the stack
    is advanced past the prefix, and before that it lies above it. *)
Lemma after_prefix k : forall p,
  length p + k = D ->
  after (calls (W - O) k) (st p) = st (advance W p)
  /\ forall j, 1 <= j < calls (W - O) k ->
       exists q x, after j (st p) = st (q ++ x :: p).
Proof.
  induction k as [|k IH]; intros p Hlen.
  - cbn [calls]. split.
    + cbn [after]. rewrite next_st. cbn zeta.
      replace (length p =? D) with true by (symmetry; apply Nat.eqb_eq; lia).
      reflexivity.
    + intros j Hj. lia.
  - assert (Hpush : after 1 (st p) = st (O :: p)).
    { cbn [after]. rewrite next_st. cbn zeta.
      replace (length p =? D) with false by (symmetry; apply Nat.eqb_neq; lia).
      reflexivity. }
    set (c := calls (W - O) k).
    assert (Hc : 1 <= c) by apply calls_pos.
    assert (sweep : forall m x, x + m = W -> 1 <= m ->
      after (m * c) (st (x :: p)) = st (advance W p)
      /\ forall j, j < m * c -> exists q y, after j (st (x :: p)) = st (q ++ y :: p)).
    { induction m as [|m IHm]; intros x Hx Hm; [lia|].
      destruct (IH (x :: p)) as [A1 A2]; [cbn [length]; lia|]. fold c in A1, A2.
      cbn [advance] in A1.
      split.
      - cbn [Nat.mul]. rewrite Nat.add_comm, after_add, A1.
        destruct (Nat.eqb_spec (S x) W) as [e|ne].
        + assert (m = 0) by lia. subst m. reflexivity.
        + apply IHm; lia.
      - intros j Hj. cbn [Nat.mul] in Hj.
        destruct (Nat.lt_ge_cases j c) as [Hlt|Hge].
        + destruct j as [|j].
          * exists [], x. reflexivity.
          * destruct (A2 (S j)) as (q & y & Hq); [lia|].
            exists (q ++ [y]), x. rewrite Hq. now rewrite <- app_assoc.
        + replace j with ((j - c) + c) by lia.
          rewrite after_add, A1.
          destruct (Nat.eqb_spec (S x) W) as [e|ne].
          * assert (m = 0) by lia. subst m. cbn in Hj. lia.
          * apply IHm; [lia | lia |]. nia. }
    destruct (sweep (W - O) O) as [S1 S2]; [lia | lia|].
    split.
    + change (calls (W - O) (S k)) with (1 + (W - O) * c).
      rewrite Nat.add_comm, after_add, Hpush. exact S1.
    + intros j Hj. change (calls (W - O) (S k)) with (1 + (W - O) * c) in Hj.
      replace j with ((j - 1) + 1) by lia.
      rewrite after_add, Hpush. apply S2. lia.
Qed.

End KeyIteratorRun.

(** X2. For [1 <= d] and [o < w], a fresh [KeyIterator(w, d, o)] is back in
    its fresh state after exactly [calls (w - o) d] calls of [next]: that
    call is the first one to return false, every call before it returns
    true, and from there the iterator repeats its run, so that it can serve
    a second loop. *)
Theorem KeyIterator_next_restarts (w d o : nat) :
  1 <= d -> o < w ->
  let n := KeyIterator.calls (w - o) d in
  let fresh := KeyIterator.create w d o in
  KeyIterator.after n fresh = fresh
  /\ (forall j, j < n ->
        fst (KeyIterator.next (KeyIterator.after j fresh)) = negb (S j =? n))
  /\ (forall j, KeyIterator.after (j + n) fresh = KeyIterator.after j fresh).
Proof.
  intros Hd Ho. cbn zeta.
  destruct (after_prefix Hd Ho d []) as [Hend Hmid]; [reflexivity|].
  cbn [KeyIterator.advance] in Hend.
  change (KeyIterator.mk w d o []) with (KeyIterator.create w d o) in *.
  split; [exact Hend|]. split.
  - intros j Hj.
    assert (Hst : exists p, KeyIterator.after j (KeyIterator.create w d o)
                            = KeyIterator.mk w d o p).
    { destruct j as [|j]; [now exists []|].
      destruct (Hmid (S j)) as (q & x & Hq); [lia|]. now exists (q ++ [x]). }
    destruct Hst as (p & Hp).
    assert (Hflag : fst (KeyIterator.next (KeyIterator.mk w d o p))
                    = negb (KeyIterator.is_empty
                              (KeyIterator.m_indices
                                 (snd (KeyIterator.next (KeyIterator.mk w d o p)))))).
    { now rewrite (next_st Hd Ho). }
    rewrite Hp, Hflag, <- Hp.
    change (snd (KeyIterator.next
                   (KeyIterator.after j (KeyIterator.create w d o))))
      with (KeyIterator.after (S j) (KeyIterator.create w d o)).
    destruct (Nat.eqb_spec (S j) (KeyIterator.calls (w - o) d)) as [e|ne].
    + rewrite e, Hend. reflexivity.
    + destruct (Hmid (S j)) as (q & x & Hq); [lia|]. rewrite Hq.
      cbn [KeyIterator.m_indices]. now destruct q.
  - intros j. now rewrite after_add, Hend.
Qed.

Lemma KeyIterator_next_restarts_witness :
  KeyIterator.after 7 (KeyIterator.create 3 2 1) = KeyIterator.create 3 2 1
  /\ fst (KeyIterator.next (KeyIterator.after 6 (KeyIterator.create 3 2 1)))
     = false.
Proof.
  destruct (@KeyIterator_next_restarts 3 2 1 ltac:(lia) ltac:(lia))
    as (Hend & Hflag & _).
  split; [exact Hend | exact (Hflag 6 ltac:(cbn; lia))].
Defined.

(** ** KeyIterator: the suffix names the cell *)

Section SuffixFacts.
Local Open Scope string_scope.

Lemma append_assoc (a b c : string) : (a ++ b) ++ c = a ++ (b ++ c).
Proof. induction a as [|x a IH]; cbn; [reflexivity | now rewrite IH]. Qed.

Lemma append_nil_r (a : string) : a ++ "" = a.
Proof. induction a as [|x a IH]; cbn; [reflexivity | now rewrite IH]. Qed.

Lemma suffix_of_fold l : forall acc,
  fold_left (fun s idx => s ++ "_" ++ Std.to_string idx) l acc
  = acc ++ KeyIterator.suffix_of l.
Proof.
  unfold KeyIterator.suffix_of.
  induction l as [|x l IH]; intros acc; cbn [fold_left].
  - now rewrite append_nil_r.
  - rewrite (IH (acc ++ "_" ++ Std.to_string x)).
    rewrite (IH ("" ++ "_" ++ Std.to_string x)).
    cbn [append]. now rewrite !append_assoc.
Qed.

Lemma suffix_of_cons x l :
  KeyIterator.suffix_of (x :: l)
  = "_" ++ Std.to_string x ++ KeyIterator.suffix_of l.
Proof.
  unfold KeyIterator.suffix_of at 1. cbn [fold_left].
  rewrite suffix_of_fold. reflexivity.
Qed.

(** The decimal digits of a number hold no underscore. *)
Lemma digits_free d :
  Forall (fun c => c <> "_"%char)
         (list_ascii_of_string (NilEmpty.string_of_uint d)).
Proof.
  induction d; cbn [NilEmpty.string_of_uint list_ascii_of_string];
    constructor; try assumption; discriminate.
Qed.

Lemma to_string_inj n m : Std.to_string n = Std.to_string m -> n = m.
Proof.
  unfold Std.to_string. intros H. apply Unsigned.to_uint_inj.
  apply (f_equal NilEmpty.uint_of_string) in H.
  rewrite !NilEmpty.usu in H. now injection H.
Qed.

(** Two texts free of the separator, each followed by nothing or by the
    separator, are cut at the same place. *)
Lemma cut_at_separator a : forall b r1 r2,
  Forall (fun c => c <> "_"%char) (list_ascii_of_string a) ->
  Forall (fun c => c <> "_"%char) (list_ascii_of_string b) ->
  (r1 = "" \/ exists r, r1 = String "_" r) ->
  (r2 = "" \/ exists r, r2 = String "_" r) ->
  a ++ r1 = b ++ r2 -> a = b /\ r1 = r2.
Proof.
  induction a as [|x a IH]; intros [|y b] r1 r2 Ha Hb H1 H2 Heq;
    cbn [append list_ascii_of_string] in *.
  - now split.
  - exfalso. inversion Hb as [|? ? Hy _].
    destruct H1 as [E|(r & E)]; rewrite E in Heq; [discriminate|].
    injection Heq as Hc _. congruence.
  - exfalso. inversion Ha as [|? ? Hx _].
    destruct H2 as [E|(r & E)]; rewrite E in Heq; [discriminate|].
    injection Heq as Hc _. congruence.
  - injection Heq as Hxy Heq.
    inversion Ha as [|? ? _ Ha']. inversion Hb as [|? ? _ Hb'].
    destruct (IH b r1 r2 Ha' Hb' H1 H2 Heq) as [E1 E2].
    split; congruence.
Qed.

Lemma suffix_of_head l :
  KeyIterator.suffix_of l = ""
  \/ exists r, KeyIterator.suffix_of l = String "_" r.
Proof.
  destruct l as [|x l]; [now left|].
  right. rewrite suffix_of_cons. cbn [append]. eauto.
Qed.

Lemma suffix_of_inj l1 : forall l2,
  KeyIterator.suffix_of l1 = KeyIterator.suffix_of l2 -> l1 = l2.
Proof.
  induction l1 as [|x l1 IH]; intros [|y l2] H.
  - reflexivity.
  - rewrite suffix_of_cons in H. discriminate H.
  - rewrite suffix_of_cons in H. discriminate H.
  - rewrite !suffix_of_cons in H. cbn [append] in H. injection H as H.
    apply cut_at_separator in H as [Hxy Hl];
      try apply digits_free; try apply suffix_of_head.
    apply to_string_inj in Hxy. apply IH in Hl. congruence.
Qed.

End SuffixFacts.

(** X3. [suffix()] names the position of the iterator: two iterators with
    the same suffix hold the same indices. The underscore before every
    index keeps [1, 2] and [12] apart. *)
Theorem KeyIterator_suffix_injective (a b : KeyIterator.t) :
  KeyIterator.suffix a = KeyIterator.suffix b ->
  KeyIterator.m_indices a = KeyIterator.m_indices b.
Proof.
  unfold KeyIterator.suffix, KeyIterator.indices. intros H.
  apply suffix_of_inj in H. now apply rev_inj.
Qed.

Lemma KeyIterator_suffix_injective_witness :
  KeyIterator.suffix (KeyIterator.mk 3 2 1 [2; 1]) = "_1_2"%string
  /\ KeyIterator.m_indices (KeyIterator.mk 3 2 1 [2; 1])
     = KeyIterator.m_indices (KeyIterator.mk 5 2 0 [2; 1]).
Proof.
  split; [reflexivity|].
  apply (@KeyIterator_suffix_injective (KeyIterator.mk 3 2 1 [2; 1])
           (KeyIterator.mk 5 2 0 [2; 1])).
  reflexivity.
Defined.

(** ** ExpressionConverter: what the printers reject *)

Local Open Scope string_scope.

(** A cast hands on the conversion of its operand, or builds a node on it. *)
Lemma print_cast_not_null
  (E : Env) (fl : Flags) (type : Type_) (BASE_EXPR : Expression)
  (m_subexpr out : CExpr) :
  (forall fl' sub' out', visit E fl' BASE_EXPR sub' = Ok out' -> out' <> CNull) ->
  print_cast E fl type [BASE_EXPR] m_subexpr = Ok out ->
  out <> CNull.
Proof.
  unfold print_cast, print_cast_with. intros Hnn H.
  destruct (integer_of_rational (annotation_type BASE_EXPR))
    as [base_type|]; try discriminate H.
  destruct (integer_of_rational type) as [cast_type|]; try discriminate H.
  destruct (is_FixedPoint cast_type || is_FixedPoint base_type);
    try discriminate H.
  apply bind_Ok_inv in H as (sub & Hsub & H). apply Hnn in Hsub.
  destruct base_type; try discriminate H;
    destruct cast_type; try discriminate H;
    repeat match type of H with
           | (if ?b then _ else _) = _ => destruct b
           end;
    try discriminate H;
    try (injection H as <-; (assumption || discriminate)).
  exact (Hnn _ _ _ H).
Qed.

(** X4. [print_cast] sets [m_subexpr] only for one operand whose type (the
    integer type behind a rational) and target type are both among address,
    integer, bool and contract, in one of the pairs of [cast_supported];
    every other cast ends in a [runtime_error] (or in the null [integerType]
    of the target). The operand is converted with the flags of the caller,
    and the result is that conversion as it is, or under a C cast to [int]
    or [unsigned int], or its address member, or, for an address cast to a
    signed integer, a second conversion of the operand. *)
Theorem print_cast_supported_only
  (E : Env) (fl : Flags) (type : Type_) (arguments : list Expression)
  (m_subexpr out : CExpr) :
  print_cast E fl type arguments m_subexpr = Ok out ->
  exists BASE_EXPR base_type cast_type sub,
    arguments = [BASE_EXPR]
    /\ integer_of_rational (annotation_type BASE_EXPR) = Some base_type
    /\ integer_of_rational type = Some cast_type
    /\ ExpressionSupport.cast_supported base_type cast_type = true
    /\ visit E fl BASE_EXPR m_subexpr = Ok sub
    /\ (out = sub
        \/ out = CCast sub "int"
        \/ out = CCast sub "unsigned int"
        \/ out = CMemberAccess (CMemberAccess sub (address_member E)) "v"
        \/ visit E fl BASE_EXPR sub = Ok out).
Proof.
  unfold print_cast, print_cast_with. intros H.
  destruct arguments as [|BASE_EXPR [|]]; try discriminate H.
  destruct (integer_of_rational (annotation_type BASE_EXPR))
    as [base_type|] eqn:Hbase; try discriminate H.
  destruct (integer_of_rational type) as [cast_type|] eqn:Hcast;
    try discriminate H.
  destruct (is_FixedPoint cast_type || is_FixedPoint base_type);
    try discriminate H.
  apply bind_Ok_inv in H as (sub & Hsub & H).
  exists BASE_EXPR, base_type, cast_type, sub.
  destruct base_type; try discriminate H;
    destruct cast_type; try discriminate H;
    repeat match type of H with
           | (if ?b then _ else _) = _ => destruct b
           end;
    try discriminate H;
    (repeat split; try reflexivity; try assumption);
    try (injection H as <-); auto 6.
Qed.

Lemma print_cast_supported_only_witness :
  exists sub,
    visit (TestFixture.env [] "") TestFixture.top
          (TestFixture.var "a" TestFixture.uint256) CNull = Ok sub
    /\ ExpressionSupport.cast_supported TestFixture.uint256 TestFixture.int256
       = true.
Proof.
  destruct (@print_cast_supported_only
              (TestFixture.env [] "") TestFixture.top TestFixture.int256
              [TestFixture.var "a" TestFixture.uint256] CNull
              (CCast (CMemberAccess (CIdentifier "self->user_a" false) "v") "int")
              eq_refl)
    as (BASE_EXPR & base_type & cast_type & sub & Hargs & Hb & Hc & Hs & Hv & _).
  injection Hargs as <-. exists sub. split; [exact Hv | reflexivity].
Defined.

(** X5. A call is converted only if its annotated kind is set and, for a
    function call proper, only if the called expression has a function type
    of a kind with a printer: internal, external and bare calls, contract
    creation, [send] and [transfer], [assert] and [require], and the
    [MetaType] call, which leaves [m_subexpr] as it is. Every other kind of
    function (delegate calls, hashes, logging, [selfdestruct], [revert],
    array operations, the ABI coders, [gasleft], ...) ends in a
    [runtime_error]. *)
Theorem function_call_supported_only
  (E : Env) (fl : Flags) (type : Type_) (KIND : FunctionCallKind)
  (expression : Expression) (arguments : list Expression)
  (m_subexpr out : CExpr) :
  visit E fl (FunctionCall type KIND expression arguments) m_subexpr = Ok out ->
  KIND <> Unset
  /\ (KIND = FunctionCallKind_FunctionCall ->
      exists kind,
        annotation_type expression = FunctionType kind
        /\ ExpressionSupport.kind_supported kind = true
        /\ (kind = MetaType -> out = m_subexpr)).
Proof.
  intros H. cbn [visit] in H. split.
  - intros ->. discriminate H.
  - intros ->. unfold print_function_with in H.
    destruct (annotation_type expression) as [| | | | | | | | | |kind| | | | | | | |];
      try discriminate H.
    exists kind. split; [reflexivity|].
    destruct kind; try discriminate H; split; try reflexivity;
      try discriminate.
    intros _. now injection H.
Qed.

Lemma function_call_supported_only_witness :
  exists kind,
    annotation_type
      (MemberAccess (FunctionType Transfer) TestFixture.dst "transfer")
    = FunctionType kind
    /\ ExpressionSupport.kind_supported kind = true.
Proof.
  destruct (@function_call_supported_only
              (TestFixture.env ["dst"] "") TestFixture.top TupleType
              FunctionCallKind_FunctionCall
              (MemberAccess (FunctionType Transfer) TestFixture.dst "transfer")
              [TestFixture.number "5"] CNull
              (CFuncCall "_pay"
                 [CReference (CMemberAccess (CIdentifier "self" true)
                                            "model_balance");
                  CFuncCall "Init_sol_address_t"
                    [CMemberAccess (CIdentifier "func_user_dst" false) "v"];
                  CFuncCall "Init_sol_uint256_t" [CIntLiteral 5]])
              eq_refl) as [_ Hkind].
  destruct (Hkind eq_refl) as (kind & Htype & Hsup & _).
  exists kind. now split.
Defined.

(** X6. A member access is converted only on a base of category address,
    contract, struct, magic or type: on a string literal, an array or a
    byte array every member, [length] included, ends in a [runtime_error],
    and so does every other category. On an address the only member is
    [balance], and only of an identifier of contract type. If a reference
    is asked for, the result is a reference, whatever the base is. *)
Theorem member_access_supported_only
  (E : Env) (fl : Flags) (type : Type_) (expression : Expression)
  (memberName : string) (m_subexpr out : CExpr) :
  visit E fl (MemberAccess type expression memberName) m_subexpr = Ok out ->
  ExpressionSupport.member_base_supported
    (category (annotation_type expression)) = true
  /\ (category (annotation_type expression) = Address ->
      memberName = "balance"
      /\ exists id, NodeSniffer_Identifier E expression true = Some id
                    /\ is_Contract (id_type id) = true)
  /\ (m_find_ref fl = true -> exists inner, out = CReference inner).
Proof.
  intros H. cbn [visit] in H.
  apply bind_Ok_inv in H as ([sub auto_unwrapped] & Hr & Hout).
  split; [|split].
  - destruct (category (annotation_type expression)); try reflexivity;
      try discriminate Hr.
    + unfold print_array_member in Hr.
      now destruct (String.eqb memberName "length").
    + unfold print_array_member in Hr.
      now destruct (String.eqb memberName "length").
    + unfold print_array_member in Hr.
      now destruct (String.eqb memberName "length").
  - intros Hcat. rewrite Hcat in Hr.
    apply bind_Ok_inv in Hr as (x & Hx & _).
    unfold print_address_member in Hx.
    destruct (String.eqb_spec memberName "balance") as [->|]; [|discriminate Hx].
    split; [reflexivity|].
    destruct (NodeSniffer_Identifier E expression true) as [id|];
      [|discriminate Hx].
    exists id. split; [reflexivity|].
    now destruct (is_Contract (id_type id)).
  - intros Href. rewrite Href in Hout. injection Hout as <-. now exists sub.
Qed.

Lemma member_access_supported_only_witness :
  visit (TestFixture.env [] "") (mkFlags true false None)
        (MemberAccess (AddressType true)
           (TestFixture.var "msg" (MagicType "msg")) "sender") CNull
  = Ok (CReference (CIdentifier "sender" false))
  /\ exists inner : CExpr,
       CReference (CIdentifier "sender" false) = CReference inner.
Proof.
  split; [reflexivity|].
  destruct (@member_access_supported_only
              (TestFixture.env [] "") (mkFlags true false None)
              (AddressType true) (TestFixture.var "msg" (MagicType "msg"))
              "sender" CNull (CReference (CIdentifier "sender" false))
              eq_refl) as (_ & _ & Href).
  exact (Href eq_refl).
Defined.

(** The arguments of a struct constructor are pushed one per member. *)
Lemma push_members_Ok (E : Env) args : forall members out,
  push_members E (visit E) members args = Ok out ->
  length out = length args
  /\ (args = [] \/ exists ms, members = Some ms /\ length args <= length ms).
Proof.
  induction args as [|ARG args IH]; intros members out H; cbn [push_members] in H.
  - injection H as <-. split; [reflexivity | now left].
  - destruct members as [[|TYPE ms]|]; try discriminate H.
    apply bind_Ok_inv in H as (arg & _ & H).
    apply bind_Ok_inv in H as (rest & Hrest & H).
    injection H as <-. apply IH in Hrest as [Hlen Hms].
    split; [cbn [length]; now rewrite Hlen|].
    right. exists (TYPE :: ms). split; [reflexivity|]. cbn [length].
    destruct Hms as [->|(ms' & Hms' & Hle)]; [cbn; lia|].
    injection Hms' as <-. lia.
Qed.

Lemma push_members_Crash (E : Env) args : forall ms,
  length ms < length args ->
  (forall ARG, In ARG args -> exists r, convert E false ARG = Ok r) ->
  push_members E (visit E) (Some ms) args = Crash.
Proof.
  induction args as [|ARG args IH]; intros ms Hlen Hconv; cbn [length] in Hlen.
  - lia.
  - cbn [push_members]. destruct ms as [|TYPE ms]; [reflexivity|].
    destruct (Hconv ARG) as (r & Hr); [now left|].
    unfold push_with. unfold convert in Hr. rewrite Hr. cbn [bind].
    rewrite IH; [reflexivity | cbn [length] in Hlen; lia|].
    intros A HA. apply Hconv. now right.
Qed.

(** X7. [print_struct_ctor] reads the member of the struct definition at the
    index of each argument. If it builds the call [Init_<struct>], the
    call has one argument per argument of the constructor, and the
    definition has at least as many members (or there is no argument at
    all). With more arguments than members, once the arguments convert, and
    with an identifier that refers to no struct definition and at least one
    argument, the read goes past the members or through a null pointer; no
    [runtime_error] guards it. *)
Theorem print_struct_ctor_arity
  (E : Env) (expression : Expression) (arguments : list Expression) :
  (forall out,
     print_struct_ctor E expression arguments = Ok out ->
     exists struct_ref args,
       NodeSniffer_Identifier E expression false = Some struct_ref
       /\ out = CFuncCall ("Init_" ++ get_name E (IdentifierExpr struct_ref)) args
       /\ length args = length arguments
       /\ (arguments = []
           \/ exists members,
                struct_members E struct_ref = Some members
                /\ length arguments <= length members))
  /\ (forall struct_ref,
        NodeSniffer_Identifier E expression false = Some struct_ref ->
        (forall ARG, In ARG arguments -> exists r, convert E false ARG = Ok r) ->
        match struct_members E struct_ref with
        | Some members => length members < length arguments
        | None => arguments <> []
        end ->
        print_struct_ctor E expression arguments = Crash).
Proof.
  unfold print_struct_ctor, print_struct_ctor_with. split.
  - intros out H.
    destruct (NodeSniffer_Identifier E expression false) as [struct_ref|];
      [|discriminate H].
    apply bind_Ok_inv in H as (args & Hargs & H). injection H as <-.
    apply push_members_Ok in Hargs as [Hlen Hms].
    exists struct_ref, args. now repeat split.
  - intros struct_ref -> Hconv Hms.
    destruct (struct_members E struct_ref) as [members|].
    + now rewrite push_members_Crash.
    + destruct arguments as [|ARG arguments]; [now elim Hms | reflexivity].
Qed.

Lemma print_struct_ctor_arity_witness :
  let E := ExpressionSupport.with_struct_members
             (TestFixture.env [] "S") (fun _ => Some [TestFixture.int256]) in
  let S := TestFixture.var "S" (TypeType (StructType "S")) in
  print_struct_ctor E S [TestFixture.number "1"]
  = Ok (CFuncCall "Init_S" [CFuncCall "Init_sol_int256_t" [CIntLiteral 1]])
  /\ print_struct_ctor E S [TestFixture.number "1"; TestFixture.number "2"]
     = Crash.
Proof.
  cbn zeta. split; [reflexivity|].
  apply (proj2 (@print_struct_ctor_arity
                  (ExpressionSupport.with_struct_members
                     (TestFixture.env [] "S") (fun _ => Some [TestFixture.int256]))
                  (TestFixture.var "S" (TypeType (StructType "S")))
                  [TestFixture.number "1"; TestFixture.number "2"])
               (mkIdentifier "S" (TypeType (StructType "S"))) eq_refl).
  - intros ARG [<-|[<-|[]]]; eexists; reflexivity.
  - cbn. lia.
Defined.

(** X8. An index access on a base that is no mapping is rejected when it is
    read ("IndexAccess applied to unsupported type."), but not when it is
    assigned to: for [base[i] = rhs] with [base] an array, say, once the
    right-hand side is converted and [get_name] has answered,
    [generate_mapping_call] takes the key type of the null result of its
    cast to [MappingType]. *)
Theorem assignment_to_unmapped_index
  (E : Env) (fl : Flags) (t t' : Type_) (base idx rhs : Expression)
  (m_subexpr : CExpr) :
  category (annotation_type base) <> Mapping ->
  visit E fl (IndexAccess t base idx) m_subexpr
  = Throw "IndexAccess applied to unsupported type."
  /\ (forall r,
        let lhs := IndexAccess t base idx in
        let ID := LValueSniffer_Identifier E lhs in
        match ID with Some id => is_Contract (id_type id) | None => false end
        = false ->
        visit E (set_find_ref fl
                   (match ID with Some id => is_pointer E id | None => false end))
              rhs m_subexpr = Ok r ->
        visit E fl (Assignment t' lhs Assign rhs) m_subexpr = Crash).
Proof.
  intros Hcat. split.
  - cbn [visit]. destruct (category (annotation_type base)); try reflexivity.
    now elim Hcat.
  - cbn zeta. intros r HID Hrhs. cbn [visit]. rewrite HID.
    cbn [Token_eqb negb]. rewrite Hrhs. cbn [bind].
    unfold generate_mapping_call_with.
    destruct (annotation_type base); try reflexivity. now elim Hcat.
Qed.

Lemma assignment_to_unmapped_index_witness :
  let arr := TestFixture.var "arr" (ArrayType TestFixture.int256) in
  visit (TestFixture.env [] "") TestFixture.top
        (Assignment TestFixture.int256
           (IndexAccess TestFixture.int256 arr (TestFixture.number "1"))
           Assign (TestFixture.number "2")) CNull
  = Crash.
Proof.
  cbn zeta.
  apply (proj2 (@assignment_to_unmapped_index
                  (TestFixture.env [] "") TestFixture.top
                  TestFixture.int256 TestFixture.int256
                  (TestFixture.var "arr" (ArrayType TestFixture.int256))
                  (TestFixture.number "1") (TestFixture.number "2") CNull
                  ltac:(discriminate))
               (CIntLiteral 2) eq_refl eq_refl).
Defined.

(** ** ExpressionConverter: the result is a node *)

Lemma generate_mapping_call_shape (E : Env) _op _id base idx v out :
  generate_mapping_call E _op _id base idx v = Ok out ->
  exists name args, out = CFuncCall name args.
Proof.
  unfold generate_mapping_call, generate_mapping_call_with. intros H.
  destruct (annotation_type base); try discriminate H.
  apply bind_Ok_inv in H as (b & _ & H).
  apply bind_Ok_inv in H as (k & _ & H).
  injection H as <-. eauto.
Qed.

Ltac bind_inv H :=
  repeat (let x := fresh "x" in
          let Hx := fresh "Hx" in
          apply bind_Ok_inv in H as (x & Hx & H)).

(** X9. The visitors build a node of their own for every expression but
    the empty tuple and the [MetaType] call, which leave [m_subexpr] as it
    was, and the calls printed by [print_method] and [print_contract_ctor]:
    for an expression of [builds_node], a conversion that succeeds never
    yields the null pointer, whatever [m_subexpr] held before. A null
    right-hand side is what makes [generate_mapping_call] leave the value
    out of a [Write]. *)
Theorem visit_builds_node (E : Env) :
  forall (e : Expression) (fl : Flags) (m_subexpr out : CExpr),
    ExpressionSupport.builds_node E e = true ->
    visit E fl e m_subexpr = Ok out ->
    out <> CNull.
Proof.
  fix IH 1. intros e fl m_subexpr out Hb Hv.
  destruct e as [t c a b|t lhs op rhs|t inl comps|t op pre sub|t l op r
                |t KIND callee args|t base m|t base idx|id|t tok val den];
    cbn [visit] in Hv; cbn [ExpressionSupport.builds_node] in Hb.
  - bind_inv Hv. injection Hv as <-. discriminate.
  - destruct (match LValueSniffer_Identifier E lhs with
              | Some id => is_Contract (id_type id)
              | None => false
              end).
    + exact (IH rhs _ _ _ Hb Hv).
    + apply bind_Ok_inv in Hv as (r & _ & Hv).
      destruct lhs; try (bind_inv Hv; injection Hv as <-; discriminate).
      apply generate_mapping_call_shape in Hv as (name & args & ->).
      discriminate.
  - destruct inl; [discriminate Hv|].
    destruct comps as [|component [|]]; try discriminate Hb.
    exact (IH component _ _ _ Hb Hv).
  - bind_inv Hv. destruct (Token_eqb op Delete); [discriminate Hv|].
    injection Hv as <-. discriminate.
  - unfold generate_binary_op_with in Hv. bind_inv Hv.
    destruct (Token_eqb op SAR || Token_eqb op SHR || Token_eqb op Exp);
      [discriminate Hv|].
    injection Hv as <-. discriminate.
  - destruct KIND; try discriminate Hb.
    + unfold print_function_with in Hv.
      destruct (annotation_type callee) as [| | | | | | | | | |kind| | | | | | | |];
        try discriminate Hb.
      destruct kind; try discriminate Hb.
      * unfold print_payment_with in Hv.
        destruct args as [|AMT [|]]; try discriminate Hv.
        destruct (match callee with
                  | MemberAccess _ DST _
                  | TupleExpression _ _ [MemberAccess _ DST _] =>
                      Some (push_with E (visit E) false (Some ARG1_TYPE) DST)
                  | _ => None
                  end); [|discriminate Hv].
        bind_inv Hv. injection Hv as <-. discriminate.
      * unfold print_payment_with in Hv.
        destruct args as [|AMT [|]]; try discriminate Hv.
        destruct (match callee with
                  | MemberAccess _ DST _
                  | TupleExpression _ _ [MemberAccess _ DST _] =>
                      Some (push_with E (visit E) false (Some ARG1_TYPE) DST)
                  | _ => None
                  end); [|discriminate Hv].
        bind_inv Hv. injection Hv as <-. discriminate.
      * unfold print_assertion_with in Hv.
        destruct args; [discriminate Hv|].
        bind_inv Hv. injection Hv as <-. discriminate.
      * unfold print_assertion_with in Hv.
        destruct args; [discriminate Hv|].
        bind_inv Hv. injection Hv as <-. discriminate.
    + destruct args as [|BASE_EXPR [|]]; try discriminate Hb.
      eapply print_cast_not_null; [|exact Hv].
      intros fl' sub' out'. exact (IH BASE_EXPR fl' sub' out' Hb).
    + unfold print_struct_ctor_with in Hv.
      destruct (NodeSniffer_Identifier E callee false); [|discriminate Hv].
      bind_inv Hv. injection Hv as <-. discriminate.
  - apply bind_Ok_inv in Hv as ([sub auto_unwrapped] & Hr & Hv).
    destruct (m_find_ref fl); [injection Hv as <-; discriminate|].
    destruct (is_wrapped_type E t && negb auto_unwrapped);
      injection Hv as <-; [discriminate|].
    destruct (category (annotation_type base)); try discriminate Hr.
    + apply bind_Ok_inv in Hr as (x & Hx & Hr). injection Hr as <- _.
      unfold print_address_member in Hx.
      destruct (String.eqb m "balance"); [|discriminate Hx].
      destruct (NodeSniffer_Identifier E base true) as [id|]; [|discriminate Hx].
      destruct (is_Contract (id_type id)); [|discriminate Hx].
      injection Hx as <-. discriminate.
    + apply bind_Ok_inv in Hr as (x & Hx & _). unfold print_array_member in Hx.
      now destruct (String.eqb m "length").
    + apply bind_Ok_inv in Hr as (x & Hx & _). unfold print_array_member in Hx.
      now destruct (String.eqb m "length").
    + apply bind_Ok_inv in Hr as (x & Hx & _). unfold print_array_member in Hx.
      now destruct (String.eqb m "length").
    + apply bind_Ok_inv in Hr as (x & Hx & Hr). injection Hr as <- _.
      unfold print_adt_member_with in Hx. bind_inv Hx.
      injection Hx as <-. discriminate.
    + apply bind_Ok_inv in Hr as (x & Hx & Hr). injection Hr as <- _.
      unfold print_adt_member_with in Hx. bind_inv Hx.
      injection Hx as <-. discriminate.
    + apply bind_Ok_inv in Hr as (x & Hx & Hr). injection Hr as <- _.
      unfold print_enum_member in Hx.
      destruct (memberValue E (annotation_type base) m); [|discriminate Hx].
      injection Hx as <-. discriminate.
    + injection Hr as <- _. discriminate.
  - destruct (category (annotation_type base)); try discriminate Hv.
    apply bind_Ok_inv in Hv as (call & Hcall & Hv).
    destruct (is_wrapped_type E t); injection Hv as <-; [discriminate|].
    destruct (m_find_ref fl); [|destruct (m_lval fl)].
    + apply generate_mapping_call_shape in Hcall as (name & args & ->).
      discriminate.
    + bind_inv Hcall. injection Hcall as <-. discriminate.
    + apply generate_mapping_call_shape in Hcall as (name & args & ->).
      discriminate.
  - injection Hv as <-. unfold visit_Identifier.
    destruct (m_find_ref fl); [discriminate|].
    destruct (is_wrapped_type E (id_type id)); discriminate.
  - unfold visit_Literal in Hv.
    destruct tok; try discriminate Hv; injection Hv as <-; discriminate.
Qed.

Lemma visit_builds_node_witness :
  visit (TestFixture.env [] "Map_2") TestFixture.top TestFixture.a_1_is_2 CNull
  = Ok (CFuncCall "Write_Map_2"
          [CReference (CIdentifier "self->user_a" false);
           CFuncCall "Init_sol_int256_t" [CIntLiteral 1];
           CFuncCall "Init_sol_int256_t" [CIntLiteral 2]])
  /\ CFuncCall "Write_Map_2"
       [CReference (CIdentifier "self->user_a" false);
        CFuncCall "Init_sol_int256_t" [CIntLiteral 1];
        CFuncCall "Init_sol_int256_t" [CIntLiteral 2]] <> CNull.
Proof.
  split; [reflexivity|].
  exact (@visit_builds_node (TestFixture.env [] "Map_2") TestFixture.a_1_is_2
           TestFixture.top CNull _ eq_refl eq_refl).
Defined.

Local Close Scope string_scope.

(** ** MainFunctionGenerator: the maps of the model *)

Section MapDiscoveryFacts.
Import CodeGenStmt MainFunctionGenerator MapDiscovery.

Variable rewrite : string -> bool -> ExpressionConverter.VarContext -> string.

(** [identify_maps] appends to [m_maps]: one map for every map below the
    declaration, numbered on from the size of [m_maps]. *)
Lemma identify_maps_appends :
  forall (_decl : VariableDeclaration) (_path : CExpr) (_display : string)
         (m_maps : list MapData),
  exists new,
    identify_maps rewrite _path _display _decl m_maps = m_maps ++ new
    /\ length new = count_maps _decl
    /\ map map_id new = seq (length m_maps) (length new).
Proof.
  fix IH 1. intros _decl _path _display m_maps.
  destruct _decl as [name fields|name entry|name];
    cbn [identify_maps count_maps decl_name].
  - set (path' := CMemberAccess _path
                    (rewrite name false ExpressionConverter.STRUCT)).
    set (display' := (_display ++ "::" ++ name)%string).
    revert m_maps. induction fields as [|child fields IHf]; intros m_maps.
    + exists []. now rewrite app_nil_r.
    + destruct (IH child path' display' m_maps) as (n1 & E1 & L1 & S1).
      rewrite E1.
      destruct (IHf (m_maps ++ n1)) as (n2 & E2 & L2 & S2).
      exists (n1 ++ n2). rewrite E2. split; [now rewrite app_assoc|].
      split; [rewrite length_app; lia|].
      rewrite map_app, S1, S2, !length_app. now rewrite seq_app.
  - eexists. split; [reflexivity|]. now split.
  - exists []. now rewrite app_nil_r.
Qed.

Lemma identify_state_variables (actor : Deployed) l : forall m_maps,
  exists new,
    fold_left
      (fun m_maps decl =>
         identify_maps rewrite (id (deployed_decl actor)) (contract_name actor)
                       decl m_maps) l m_maps
    = m_maps ++ new
    /\ length new = list_sum (map count_maps l)
    /\ map map_id new = seq (length m_maps) (length new).
Proof.
  induction l as [|decl l IHl]; intros m_maps; cbn [fold_left map list_sum].
  - exists []. now rewrite app_nil_r.
  - destruct (identify_maps_appends decl (id (deployed_decl actor))
                (contract_name actor) m_maps) as (n1 & E1 & L1 & S1).
    rewrite E1. destruct (IHl (m_maps ++ n1)) as (n2 & E2 & L2 & S2).
    exists (n1 ++ n2). rewrite E2. split; [now rewrite app_assoc|].
    split; [rewrite length_app; unfold list_sum in *; cbn [fold_right]; lia|].
    rewrite map_app, S1, S2, !length_app. now rewrite seq_app.
Qed.

Lemma identify_actors l : forall m_maps,
  exists new,
    fold_left
      (fun m_maps actor =>
         fold_left
           (fun m_maps decl =>
              identify_maps rewrite (id (deployed_decl actor))
                            (contract_name actor) decl m_maps)
           (state_variables actor) m_maps) l m_maps
    = m_maps ++ new
    /\ length new
       = list_sum (map (fun actor =>
                          list_sum (map count_maps (state_variables actor))) l)
    /\ map map_id new = seq (length m_maps) (length new).
Proof.
  induction l as [|actor l IHl]; intros m_maps; cbn [fold_left map list_sum].
  - exists []. now rewrite app_nil_r.
  - destruct (identify_state_variables actor (state_variables actor) m_maps)
      as (n1 & E1 & L1 & S1).
    rewrite E1. destruct (IHl (m_maps ++ n1)) as (n2 & E2 & L2 & S2).
    exists (n1 ++ n2). rewrite E2. split; [now rewrite app_assoc|].
    split; [rewrite length_app; unfold list_sum in *; cbn [fold_right]; lia|].
    rewrite map_app, S1, S2, !length_app. now rewrite seq_app.
Qed.

End MapDiscoveryFacts.

(** X10. The constructor registers the maps with dense ids: [m_maps] holds
    one entry for every map among the state variables of the actors and
    below their structures, in the order in which they are met, and the
    entry at position [i] has the id [i]. A call of [identify_maps] only
    appends to [m_maps]. *)
Theorem identify_maps_dense_ids
  (rewrite : string -> bool -> ExpressionConverter.VarContext -> string)
  (actors : list MapDiscovery.Deployed) :
  let m_maps := MapDiscovery.identify_all rewrite actors in
  map MainFunctionGenerator.map_id m_maps = seq 0 (length m_maps)
  /\ length m_maps
     = list_sum
         (map (fun actor =>
                 list_sum (map MapDiscovery.count_maps
                               (MapDiscovery.state_variables actor))) actors)
  /\ (forall i map_, nth_error m_maps i = Some map_ ->
                     MainFunctionGenerator.map_id map_ = i)
  /\ (forall _decl _path _display before,
        exists new,
          MapDiscovery.identify_maps rewrite _path _display _decl before
          = before ++ new).
Proof.
  cbn zeta. unfold MapDiscovery.identify_all.
  destruct (identify_actors rewrite actors []) as (new & E & L & S).
  cbn [app length] in E, S. rewrite E.
  split; [exact S|]. split; [exact L|]. split.
  - intros i map_ Hi.
    assert (Hlt : i < length new) by (apply nth_error_Some; congruence).
    apply (map_nth_error MainFunctionGenerator.map_id) in Hi.
    rewrite S in Hi.
    assert (Hs : nth_error (seq 0 (length new)) i = Some i).
    { rewrite nth_error_nth' with (d := 0) by (now rewrite length_seq).
      now rewrite seq_nth. }
    congruence.
  - intros _decl _path _display before.
    destruct (identify_maps_appends rewrite _decl _path _display before)
      as (n & En & _). now exists n.
Qed.

Example identify_maps_of_example_actor :
  map (fun m => (MainFunctionGenerator.map_id m,
                 MainFunctionGenerator.display m,
                 MainFunctionGenerator.key_types_size m))
      (MapDiscovery.identify_all (fun name _ _ => ("user_" ++ name)%string)
                                 [MapDiscovery.example_actor])
  = [(0, "A::a", 1); (1, "A::s::m", 2)]%string.
Proof. reflexivity. Qed.

(** ** MainFunctionGenerator: the invariants *)

Lemma print_invariants_loop_all is_struct ctype maps :
  forallb (fun m => negb (is_struct m)) maps = true ->
  MapDiscovery.print_invariants_loop is_struct ctype maps
  = (map (MapDiscovery.invariant ctype) maps, Runtime.Ok tt).
Proof.
  induction maps as [|m maps IH]; cbn [forallb MapDiscovery.print_invariants_loop map];
    [reflexivity|].
  intros H. apply andb_prop in H as [Hm Hrest].
  destruct (is_struct m); [discriminate Hm|]. now rewrite IH.
Qed.

Lemma print_invariants_loop_struct is_struct ctype pre m post :
  forallb (fun m => negb (is_struct m)) pre = true ->
  is_struct m = true ->
  MapDiscovery.print_invariants_loop is_struct ctype (pre ++ m :: post)
  = (map (MapDiscovery.invariant ctype) pre,
     Runtime.Throw "Struct invariants are not yet supported."%string).
Proof.
  intros Hpre Hm.
  induction pre as [|p pre IH];
    cbn [forallb MapDiscovery.print_invariants_loop map app] in *.
  - now rewrite Hm.
  - apply andb_prop in Hpre as [Hp Hrest].
    destruct (is_struct p); [discriminate Hp|]. now rewrite IH.
Qed.

(** X11. [print_invariants] writes nothing if the rule of the invariants is
    [None]. Otherwise, if no map has a struct as its value type, it writes
    for every map of [m_maps], in order, a function [int Inv_<id>(<type> v)]
    that returns 1, and this is the function that [apply_invariant] calls
    for that map. At the first map with a struct as its value type it ends
    in the [runtime_error] "Struct invariants are not yet supported.",
    after the functions of the maps before it have been written. *)
Theorem print_invariants_defines_what_is_applied
  (G : MainFunctionGenerator.t)
  (value_type_is_struct : MainFunctionGenerator.MapData -> bool)
  (get_simple_ctype : MainFunctionGenerator.MapData -> string) :
  let print := MapDiscovery.print_invariants value_type_is_struct get_simple_ctype in
  let m_maps := MainFunctionGenerator.m_maps G in
  print true m_maps = ([], Runtime.Ok tt)
  /\ (forallb (fun m => negb (value_type_is_struct m)) m_maps = true ->
      exists written,
        print false m_maps = (written, Runtime.Ok tt)
        /\ length written = length m_maps
        /\ forall map_ _data,
             In map_ m_maps ->
             exists name inv,
               In inv written
               /\ CodeGenStmt.fd_id inv
                  = CodeGenStmt.decl (CodeGenStmt.mkVar "int" name false)
               /\ CodeGenStmt.fd_params inv
                  = [CodeGenStmt.decl
                       (CodeGenStmt.mkVar (get_simple_ctype map_) "v" false)]
               /\ CodeGenStmt.fd_body inv
                  = CodeGenStmt.CBlock [CodeGenStmt.CReturn CodeGen.ONE]
               /\ MainFunctionGenerator.apply_invariant G _data map_
                  = MainFunctionGenerator.add_require_nomsg G
                      (CFuncCall name [_data]))
  /\ (forall pre map_ post,
        m_maps = pre ++ map_ :: post ->
        forallb (fun m => negb (value_type_is_struct m)) pre = true ->
        value_type_is_struct map_ = true ->
        print false m_maps
        = (map (MapDiscovery.invariant get_simple_ctype) pre,
           Runtime.Throw "Struct invariants are not yet supported."%string)).
Proof.
  cbn zeta. unfold MapDiscovery.print_invariants.
  split; [reflexivity|]. split.
  - intros Hall. rewrite (print_invariants_loop_all _ _ _ Hall).
    eexists. split; [reflexivity|]. split; [apply length_map|].
    intros map_ _data Hin.
    exists ("Inv_" ++ Std.to_string (MainFunctionGenerator.map_id map_))%string,
           (MapDiscovery.invariant get_simple_ctype map_).
    split; [now apply in_map|]. now repeat split.
  - intros pre map_ post -> Hpre Hm.
    now apply print_invariants_loop_struct.
Qed.

Lemma print_invariants_defines_what_is_applied_witness :
  let G := HarnessFixture.model [] in
  exists written,
    MapDiscovery.print_invariants (fun _ => false) (fun _ => "sol_int256_t"%string)
      false (MainFunctionGenerator.m_maps G) = (written, Runtime.Ok tt)
    /\ length written = 1
  /\ MapDiscovery.print_invariants (fun _ => true) (fun _ => "sol_int256_t"%string)
       false (MainFunctionGenerator.m_maps G)
     = ([], Runtime.Throw "Struct invariants are not yet supported."%string).
Proof.
  cbn zeta.
  destruct (@print_invariants_defines_what_is_applied
              (HarnessFixture.model []) (fun _ => false)
              (fun _ => "sol_int256_t"%string)) as (_ & Hall & _).
  destruct (Hall eq_refl) as (written & Hw & Hlen & _).
  exists written. split; [exact Hw|]. split; [exact Hlen|].
  destruct (@print_invariants_defines_what_is_applied
              (HarnessFixture.model []) (fun _ => true)
              (fun _ => "sol_int256_t"%string)) as (_ & _ & Hstruct).
  exact (Hstruct [] HarnessFixture.balances [] eq_refl eq_refl eq_refl).
Defined.

Lemma identify_maps_dense_ids_witness :
  exists map_,
    nth_error (MapDiscovery.identify_all
                 (fun name _ _ => ("user_" ++ name)%string)
                 [MapDiscovery.example_actor]) 1 = Some map_
    /\ MainFunctionGenerator.map_id map_ = 1.
Proof.
  eexists. split; [reflexivity|].
  destruct (@identify_maps_dense_ids
              (fun name _ _ => ("user_" ++ name)%string)
              [MapDiscovery.example_actor]) as (_ & _ & Hid & _).
  exact (Hid 1 _ eq_refl).
Defined.

(** ** MainFunctionGenerator: the cases of the switch *)

Section BuildCaseFacts.
Import CodeGenStmt MainFunctionGenerator.
Local Open Scope string_scope.

Lemma length_outputs rvs : forall i, length (outputs i rvs) = length rvs.
Proof.
  induction rvs as [|rv rvs IH]; intros i; cbn [outputs length];
    [reflexivity | now rewrite IH].
Qed.

Lemma length_inputs args : forall n, length (inputs n args) = length args.
Proof.
  induction args as [|arg args IH]; intros n; cbn [inputs length];
    [reflexivity|].
  destruct (String.eqb (param_name arg) ""); cbn [length]; now rewrite IH.
Qed.

Lemma outputs_names rvs : forall i,
  map var_name (outputs i rvs)
  = map (fun k => "rv_" ++ Std.to_string k) (seq i (length rvs)).
Proof.
  induction rvs as [|rv rvs IH]; intros i; cbn [outputs length seq map];
    [reflexivity | now rewrite IH].
Qed.

Lemma NoDup_map_inj (X Y : Type) (f : X -> Y) (l : list X) :
  (forall a b, In a l -> In b l -> f a = f b -> a = b) ->
  NoDup l -> NoDup (map f l).
Proof.
  intros Hinj Hnd.
  induction Hnd as [|x l Hx Hnd IH]; cbn [map]; constructor.
  - intros Hin. apply in_map_iff in Hin as (y & Hy & Hin).
    assert (y = x) by (apply Hinj; [now right | now left | assumption]).
    now subst y.
  - apply IH. intros a b Ha Hb. apply Hinj; now right.
Qed.

Lemma append_inj_l (a b c : string) : a ++ b = a ++ c -> b = c.
Proof.
  induction a as [|x a IH]; cbn [append]; intros H; [exact H|].
  injection H as H. now apply IH.
Qed.

(** A declared input is a placeholder of a number not yet given, or the
    argument of a named parameter. *)
Lemma inputs_names args : forall n name,
  In name (map (fun i => var_name (fst i)) (inputs n args)) ->
  (exists k, n <= k /\ name = "placeholder_" ++ Std.to_string k)
  \/ (exists arg, In arg args /\ param_name arg <> ""
                  /\ name = "arg_" ++ param_name arg).
Proof.
  induction args as [|arg args IH]; intros n name Hin; cbn [inputs] in Hin.
  - destruct Hin.
  - destruct (String.eqb_spec (param_name arg) "") as [e|ne];
      cbn [map fst var_name In] in Hin.
    + destruct Hin as [<-|Hin]; [left; exists n; now split|].
      apply IH in Hin as [(k & Hk & ->)|(a & Ha & Hne & ->)].
      * left. exists k. split; [lia | reflexivity].
      * right. exists a. split; [now right | now split].
    + destruct Hin as [<-|Hin]; [right; exists arg; split; [now left | now split]|].
      apply IH in Hin as [(k & Hk & ->)|(a & Ha & Hne & ->)].
      * left. exists k. now split.
      * right. exists a. split; [now right | now split].
Qed.

Lemma inputs_NoDup args : forall n,
  NoDup (filter (fun name => negb (String.eqb name ""))
                (map param_name args)) ->
  NoDup (map (fun i => var_name (fst i)) (inputs n args)).
Proof.
  induction args as [|arg args IH]; intros n Hnd;
    cbn [inputs map filter] in *; [constructor|].
  destruct (String.eqb_spec (param_name arg) "") as [e|ne];
    cbn [negb map fst var_name] in *.
  - constructor; [|now apply IH].
    intros Hin. apply inputs_names in Hin as [(k & Hk & Hin)|(a & _ & _ & Hin)].
    + apply append_inj_l in Hin. apply to_string_inj in Hin. lia.
    + discriminate Hin.
  - inversion Hnd as [|? ? Hx Hrest]; subst.
    constructor; [|now apply IH].
    intros Hin. apply inputs_names in Hin as [(k & _ & Hin)|(a & Ha & Hne & Hin)].
    + discriminate Hin.
    + apply append_inj_l in Hin. apply Hx. apply filter_In. split.
      * rewrite Hin. now apply in_map.
      * rewrite Hin. now destruct (String.eqb_spec (param_name a) "").
Qed.

End BuildCaseFacts.

(** X12. Every case of the switch of [run_model] is the body that
    [build_case] builds for a function of an actor of the model. That body
    ends with the call of the function, the log of its success and a
    [break], so that no case falls through to the next one; the call passes
    the contract, the call state, a reference to an output for each return
    value after the first, and the inputs, one per parameter. *)
Theorem cases_call_and_break
  (G : MainFunctionGenerator.t) (f : CodeGenStmt.CFuncDef)
  (label : nat) (body : CodeGenStmt.CBlockList) :
  MainFunctionGenerator.print_main G = Runtime.Ok f ->
  (exists default_ cases,
     MainFunctionGenerator.switch_of f = Some (default_, cases)
     /\ In (label, body) cases) ->
  exists actor spec before args,
    In actor (MainFunctionGenerator.actors G)
    /\ In spec (MainFunctionGenerator.specs actor)
    /\ body = MainFunctionGenerator.build_case G spec
                (MainFunctionGenerator.actor_decl actor)
    /\ body = before
              ++ [CodeGenStmt.stmt
                    (CFuncCall (MainFunctionGenerator.spec_name0 spec) args);
                  MainFunctionGenerator.log G "[Call successful]"%string;
                  CodeGenStmt.CBreak]
    /\ last body CodeGenStmt.CNullStmt = CodeGenStmt.CBreak
    /\ length args
       = 1 + length (MainFunctionGenerator.push_state_to G)
         + (length (MainFunctionGenerator.returnParameters spec) - 1)
         + length (MainFunctionGenerator.parameters spec).
Proof.
  intros Hmain (default_ & cases & Hswitch & Hin).
  destruct (print_main_switch G Hmain) as (_ & _ & _ & Hsw).
  rewrite Hsw in Hswitch. injection Hswitch as _ <-.
  destruct (collect_cases_spec G) as (_ & Hbodies & _ & _).
  apply (in_map snd) in Hin. rewrite Hbodies in Hin. cbn [snd] in Hin.
  apply in_map_iff in Hin as ([actor spec] & Hbody & Hpair).
  cbn [fst snd] in Hbody.
  unfold MainFunctionGenerator.pairs in Hpair.
  apply in_flat_map in Hpair as (actor' & Hactor & Hspec).
  apply in_map_iff in Hspec as (spec' & Heq & Hspec). injection Heq as <- <-.
  exists actor', spec'.
  unfold MainFunctionGenerator.build_case in Hbody.
  rewrite !app_assoc in Hbody.
  eexists. eexists. split; [exact Hactor|]. split; [exact Hspec|].
  split; [subst body; unfold MainFunctionGenerator.build_case;
          now rewrite !app_assoc|].
  split; [symmetry; exact Hbody|]. split.
  - rewrite <- Hbody. apply last_three.
  - rewrite !length_app, !length_map, length_outputs, length_inputs.
    cbn [length].
    destruct (MainFunctionGenerator.returnParameters spec'); cbn [tl length]; lia.
Qed.

Lemma cases_call_and_break_witness :
  let G := HarnessFixture.model [HarnessFixture.contract_0] in
  let body :=
    MainFunctionGenerator.build_case G HarnessFixture.g
      (MainFunctionGenerator.actor_decl HarnessFixture.contract_0) in
  exists f,
    MainFunctionGenerator.print_main G = Runtime.Ok f
    /\ last body CodeGenStmt.CNullStmt = CodeGenStmt.CBreak.
Proof.
  cbn zeta. eexists. split; [reflexivity|].
  destruct (@cases_call_and_break
              (HarnessFixture.model [HarnessFixture.contract_0]) _ 1
              (MainFunctionGenerator.build_case
                 (HarnessFixture.model [HarnessFixture.contract_0])
                 HarnessFixture.g
                 (MainFunctionGenerator.actor_decl HarnessFixture.contract_0))
              eq_refl)
    as (actor & spec & before & args & _ & _ & _ & _ & Hlast & _).
  { eexists. eexists. split; [reflexivity|]. right. left. reflexivity. }
  exact Hlast.
Defined.

(** X13. The variables that [build_case] declares in a case are pairwise
    distinct: the outputs [rv_<i>], the inputs [arg_<name>] of the named
    parameters and the inputs [placeholder_<n>] of the unnamed ones, as long
    as no two parameters share a name. *)
Theorem build_case_names_distinct (spec : MainFunctionGenerator.FunctionSpecialization) :
  NoDup (filter (fun name => negb (String.eqb name ""))
                (map MainFunctionGenerator.param_name
                     (MainFunctionGenerator.parameters spec))) ->
  NoDup
    (map CodeGenStmt.var_name
         (MainFunctionGenerator.outputs 1
            (tl (MainFunctionGenerator.returnParameters spec)))
     ++ map (fun i => CodeGenStmt.var_name (fst i))
            (MainFunctionGenerator.inputs 0
               (MainFunctionGenerator.parameters spec))).
Proof.
  intros Hnd. apply NoDup_app.
  - rewrite outputs_names. apply NoDup_map_inj; [|apply seq_NoDup].
    intros a b _ _ H. apply append_inj_l in H. now apply to_string_inj.
  - now apply inputs_NoDup.
  - intros name Hout Hin. rewrite outputs_names in Hout.
    apply in_map_iff in Hout as (k & <- & _).
    apply inputs_names in Hin as [(j & _ & Hin)|(a & _ & _ & Hin)];
      discriminate Hin.
Qed.

Lemma build_case_names_distinct_witness :
  NoDup
    (map CodeGenStmt.var_name
         (MainFunctionGenerator.outputs 1
            (tl (MainFunctionGenerator.returnParameters HarnessFixture.g)))
     ++ map (fun i => CodeGenStmt.var_name (fst i))
            (MainFunctionGenerator.inputs 0
               (MainFunctionGenerator.parameters HarnessFixture.g))).
Proof.
  apply (@build_case_names_distinct HarnessFixture.g).
  cbn. constructor; [intros [] | constructor].
Defined.

(** ** MainFunctionGenerator: the cells of a map *)

(** X14. [expand_interference] writes, for every map of the model and every
    cell of a list of cells of that map, the assignment of a
    non-deterministic value to the field [data<suffix>] of the cell followed
    by the invariant of the map on that field. The cells of a map have one
    index per key, each from the offset (the number of implicit addresses,
    or 0 for universal invariants) up to the number of addresses; there are
    [(count - offset) ^ keys] of them, none if the map has no key or no
    address is left; and no two cells of a map share their field, so that
    every field is assigned exactly once. *)
Theorem expand_interference_cells (G : MainFunctionGenerator.t) :
  let offset :=
    if negb (MainFunctionGenerator.invar_type_is_universal G)
    then MainFunctionGenerator.addresses_implicit_count G else 0 in
  let WIDTH := MainFunctionGenerator.addresses_count G in
  let FIELD (cell : list nat) := ("data" ++ KeyIterator.suffix_of cell)%string in
  exists cells : MainFunctionGenerator.MapData -> list (list nat),
    MainFunctionGenerator.expand_interference G
    = flat_map
        (fun map_ =>
           flat_map
             (fun cell =>
                let DATA :=
                  CMemberAccess (MainFunctionGenerator.path map_) (FIELD cell) in
                [CodeGenStmt.stmt
                   (assign DATA
                      (MainFunctionGenerator.value_nd map_
                         (MainFunctionGenerator.display map_ ++ "::"
                          ++ KeyIterator.suffix_of cell)%string));
                 MainFunctionGenerator.apply_invariant G DATA map_])
             (cells map_))
        (MainFunctionGenerator.m_maps G)
    /\ forall map_,
         let DEPTH := MainFunctionGenerator.key_types_size map_ in
         NoDup (map FIELD (cells map_))
         /\ (forall cell, In cell (cells map_) ->
               length cell = DEPTH
               /\ Forall (fun x => offset <= x < WIDTH) cell)
         /\ length (cells map_)
            = if (WIDTH =? 0) || (DEPTH =? 0) || (WIDTH <=? offset) then 0
              else (WIDTH - offset) ^ DEPTH.
Proof.
  cbn zeta.
  set (offset := if negb (MainFunctionGenerator.invar_type_is_universal G)
                 then MainFunctionGenerator.addresses_implicit_count G else 0).
  set (WIDTH := MainFunctionGenerator.addresses_count G).
  exists (fun map_ =>
            let DEPTH := MainFunctionGenerator.key_types_size map_ in
            if (WIDTH =? 0) || (DEPTH =? 0) || (WIDTH <=? offset) then []
            else KeyIterator.tuples offset WIDTH DEPTH).
  split.
  - rewrite expand_interference_eq. apply flat_map_ext. intros map_. cbn zeta.
    fold offset. fold WIDTH.
    now destruct ((WIDTH =? 0) || (MainFunctionGenerator.key_types_size map_ =? 0)
                  || (WIDTH <=? offset)).
  - intros map_. cbn zeta.
    destruct ((WIDTH =? 0) || (MainFunctionGenerator.key_types_size map_ =? 0)
              || (WIDTH <=? offset)).
    + split; [constructor|]. split; [intros cell []|reflexivity].
    + split; [|split].
      * apply NoDup_map_inj; [|apply tuples_NoDup].
        intros a b _ _ H. apply append_inj_l in H. now apply suffix_of_inj.
      * intros cell Hin. now apply tuples_In in Hin.
      * apply tuples_length.
Qed.

Lemma expand_interference_cells_witness :
  exists cells : MainFunctionGenerator.MapData -> list (list nat),
    length (cells HarnessFixture.balances) = 2
    /\ NoDup (map (fun cell => ("data" ++ KeyIterator.suffix_of cell)%string)
                  (cells HarnessFixture.balances))
    /\ forall cell, In cell (cells HarnessFixture.balances) ->
                    Forall (fun x => 1 <= x < 3) cell.
Proof.
  destruct (@expand_interference_cells (HarnessFixture.model []))
    as (cells & _ & Hcells).
  exists cells. destruct (Hcells HarnessFixture.balances) as (Hnd & Hin & Hlen).
  split; [exact Hlen|]. split; [exact Hnd|].
  intros cell Hcell. exact (proj2 (Hin cell Hcell)).
Defined.

(** ** StateGenerator: the variables of the emitted blocks *)

Section BlockShapeFacts.
Import CodeGenStmt StateGenerator BlockShape.
Local Open Scope string_scope.

Variable G : StateGenerator.t.

Lemma assigned_update_field fld :
  flat_map assigned (update_field G fld)
  = if is_updated fld then [name fld] else [].
Proof.
  unfold update_field, is_updated.
  destruct (field fld); try reflexivity;
    destruct (M_USE_LOCKSTEP_TIME G); reflexivity.
Qed.

Lemma declared_declare_field fld :
  flat_map declared (declare_field G fld) = [name fld]
  /\ flat_map assigned (declare_field G fld)
     = if is_initialised fld then [name fld] else [].
Proof.
  unfold declare_field, is_initialised.
  destruct (field fld); split; try reflexivity;
    destruct (M_USE_LOCKSTEP_TIME G); reflexivity.
Qed.

Lemma flat_map_fields (f : FieldData -> CBlockList) (g : CStmt -> list string)
      (keep : FieldData -> bool) l :
  (forall fld, flat_map g (f fld) = if keep fld then [name fld] else []) ->
  flat_map g (flat_map f l) = map name (filter keep l).
Proof.
  intros H. induction l as [|fld l IH]; cbn [flat_map filter map];
    [reflexivity|].
  rewrite flat_map_app, H, IH. now destruct (keep fld).
Qed.

End BlockShapeFacts.

(** X15. Whatever the order of the call state is, [update] writes each of
    its fields but [paid] and [origin] exactly once, in the order of the
    call state, after [take_step] if time runs in lockstep; it never writes
    [paid] or [origin], and it declares nothing. *)
Theorem update_writes_each_field_once (G : StateGenerator.t) :
  flat_map BlockShape.assigned (StateGenerator.update G)
  = (if StateGenerator.M_USE_LOCKSTEP_TIME G then ["take_step"%string] else [])
    ++ map StateGenerator.name
           (filter BlockShape.is_updated (StateGenerator.order G))
  /\ flat_map BlockShape.declared (StateGenerator.update G) = []
  /\ (forall fld,
        In (StateGenerator.name fld)
           (map StateGenerator.name
                (filter BlockShape.is_updated (StateGenerator.order G))) ->
        exists fld', In fld' (StateGenerator.order G)
                     /\ StateGenerator.name fld' = StateGenerator.name fld
                     /\ StateGenerator.field fld' <> StateGenerator.Paid
                     /\ StateGenerator.field fld' <> StateGenerator.Origin).
Proof.
  unfold StateGenerator.update. split; [|split].
  - rewrite flat_map_app.
    rewrite (flat_map_fields (StateGenerator.update_field G)
               BlockShape.assigned BlockShape.is_updated);
      [|apply assigned_update_field].
    now destruct (StateGenerator.M_USE_LOCKSTEP_TIME G).
  - rewrite flat_map_app.
    rewrite (flat_map_fields (StateGenerator.update_field G)
               BlockShape.declared (fun _ => false)).
    + destruct (StateGenerator.M_USE_LOCKSTEP_TIME G); cbn;
        induction (StateGenerator.order G); auto.
    + intros fld. unfold StateGenerator.update_field.
      destruct (StateGenerator.field fld); try reflexivity;
        destruct (StateGenerator.M_USE_LOCKSTEP_TIME G); reflexivity.
  - intros fld Hin. apply in_map_iff in Hin as (fld' & Hname & Hin).
    apply filter_In in Hin as [Hin Hup]. exists fld'.
    unfold BlockShape.is_updated in Hup.
    repeat split; try assumption;
      intros Hf; rewrite Hf in Hup; discriminate Hup.
Qed.

Lemma update_writes_each_field_once_witness :
  flat_map BlockShape.assigned
    (StateGenerator.update (StateGenerator.over_callstate true 1 3 []))
  = ["take_step"; "sender"; "value"; "blocknum"; "timestamp"]%string.
Proof.
  exact (proj1 (@update_writes_each_field_once
                  (StateGenerator.over_callstate true 1 3 []))).
Defined.

(** X16. Whatever the order of the call state is, [declare] declares each
    of its fields exactly once, in the order of the call state, after
    [take_step] if time runs in lockstep, and gives a value to [blocknum],
    [timestamp] and [paid] only: [sender], [value] and [origin] are left
    without a value until the first update. *)
Theorem declare_declares_each_field_once (G : StateGenerator.t) :
  flat_map BlockShape.declared (StateGenerator.declare G)
  = (if StateGenerator.M_USE_LOCKSTEP_TIME G then ["take_step"%string] else [])
    ++ map StateGenerator.name (StateGenerator.order G)
  /\ flat_map BlockShape.assigned (StateGenerator.declare G)
     = map StateGenerator.name
           (filter BlockShape.is_initialised (StateGenerator.order G)).
Proof.
  unfold StateGenerator.declare. split; rewrite flat_map_app.
  - rewrite (flat_map_fields (StateGenerator.declare_field G)
               BlockShape.declared (fun _ => true)).
    + assert (Hf : forall l : list StateGenerator.FieldData,
                     filter (fun _ => true) l = l).
      { induction l as [|x l IH]; cbn [filter]; congruence. }
      rewrite Hf. now destruct (StateGenerator.M_USE_LOCKSTEP_TIME G).
    + intros fld. apply declared_declare_field.
  - rewrite (flat_map_fields (StateGenerator.declare_field G)
               BlockShape.assigned BlockShape.is_initialised).
    + now destruct (StateGenerator.M_USE_LOCKSTEP_TIME G).
    + intros fld. apply declared_declare_field.
Qed.

(** ** StateGenerator: an update without clients *)

Section BlockedUpdate.
Import CodeGenStmt StateGenerator.
Local Open Scope Z_scope.

Lemma exec_block_app a : forall b s nd,
  exec_block (a ++ b) s nd =
  match exec_block a s nd with
  | Some (s', nd') => exec_block b s' nd'
  | None => None
  end.
Proof.
  induction a as [|c a IH]; intros b s nd; cbn [app].
  - now rewrite exec_block_nil.
  - rewrite !exec_block_cons.
    destruct (exec c s nd) as [[s' nd']|]; [apply IH | reflexivity].
Qed.

Lemma choose_empty_range lo hi nd :
  (hi <= lo)%nat ->
  choose (fun v => (Z.of_nat lo <=? v) && (v <? Z.of_nat hi)) nd = None.
Proof.
  intros H. destruct nd as [|v nd]; cbn [choose]; [reflexivity|].
  destruct (Z.leb_spec (Z.of_nat lo) v); cbn [andb]; [|reflexivity].
  destruct (Z.ltb_spec v (Z.of_nat hi)); [lia | reflexivity].
Qed.

Variable G : StateGenerator.t.
Hypothesis no_client : (size G <= minaddr G)%nat.

Lemma update_fields_blocked l :
  (exists fld, In fld l /\ field fld = Sender) ->
  forall s nd, exec_block (flat_map (update_field G) l) s nd = None.
Proof.
  induction l as [|f l IH]; intros (fld & Hin & Hs) s nd; [destruct Hin|].
  cbn [flat_map]. rewrite exec_block_app.
  destruct Hin as [->|Hin].
  - unfold update_field. rewrite Hs. rewrite exec_block_cons, exec_assign.
    rewrite eval_range. now rewrite choose_empty_range.
  - destruct (exec_block (update_field G f) s nd) as [[s' nd']|];
      [|reflexivity].
    apply IH. now exists fld.
Qed.

End BlockedUpdate.

(** X17. If the address space has no client, that is if its size does not
    exceed the first address after the contracts (and after address 0 if
    that is a literal), the range of the sender is empty and the emitted
    update cannot be passed: whatever values the non-deterministic
    primitives return, no run of the update of a call state with a sender
    comes to its end. *)
Theorem update_blocked_without_clients
  (G : StateGenerator.t) (s : StateGenerator.Store) (nd : list Z) :
  StateGenerator.size G <= StateGenerator.minaddr G ->
  (exists fld, In fld (StateGenerator.order G)
               /\ StateGenerator.field fld = StateGenerator.Sender) ->
  StateGenerator.exec_block (StateGenerator.update G) s nd = None.
Proof.
  intros Hsize Hsender. unfold StateGenerator.update.
  rewrite exec_block_app.
  destruct (StateGenerator.exec_block _ s nd) as [[s' nd']|]; [|reflexivity].
  now apply update_fields_blocked.
Qed.

Lemma update_blocked_without_clients_witness :
  StateGenerator.exec_block
    (StateGenerator.update (StateGenerator.over_callstate false 3 3 []))
    StateGenerator.zero [3; 5; 7]%Z = None.
Proof.
  apply (@update_blocked_without_clients
           (StateGenerator.over_callstate false 3 3 [])
           StateGenerator.zero [3; 5; 7]%Z).
  - cbn. lia.
  - eexists. split; [left; reflexivity | reflexivity].
Defined.

(** ** MainFunction_1: the text of the first pass *)

Section MainFunction1Facts.
Import MainFunction_1.
Local Open Scope string_scope.

Lemma visit_functions_forward l : forall i,
  visit_functions true i l = ("", i).
Proof.
  induction l as [|f l IH]; intros i; cbn [visit_functions]; [reflexivity|].
  cbn [visit_FunctionDefinition negb andb]. now rewrite IH.
Qed.

(** The declarations of the functions that are no constructors, each
    under its number. *)
Lemma visit_functions_define l : forall i,
  visit_functions false i l =
  (fold_right
     (fun kf text => print_args (fst kf) (parameters (snd kf)) ++ text) ""
     (combine (seq i (length (declaring l))) (declaring l)),
   i + length (declaring l)).
Proof.
  induction l as [|f l IH]; intros i; cbn [visit_functions declaring filter].
  - cbn. now rewrite Nat.add_0_r.
  - unfold visit_FunctionDefinition. cbn [negb andb].
    destruct (isConstructor f); cbn [negb].
    + rewrite IH. reflexivity.
    + rewrite IH. cbn [length seq combine fold_right fst snd].
      fold (declaring l). f_equal; [|lia].
      now rewrite Nat.add_1_r.
Qed.

Lemma map_fst_combine_seq (X : Type) (l : list X) : forall i,
  map fst (combine (seq i (length l)) l) = seq i (length l).
Proof.
  induction l as [|x l IH]; intros i; cbn [length seq combine map fst];
    [reflexivity | now rewrite IH].
Qed.

Lemma arg_id_inj i j a b :
  arg_id i a = arg_id j b -> i = j /\ name a = name b.
Proof.
  unfold arg_id. intros H.
  apply cut_at_separator in H as [Hij Hab].
  - split; [now apply to_string_inj | now injection Hab].
  - apply digits_free.
  - apply digits_free.
  - right. now exists (name a).
  - right. now exists (name b).
Qed.

Lemma arg_ids_NoDup (l : list (nat * FunctionDefinition)) :
  NoDup (map fst l) ->
  (forall kf, In kf l -> NoDup (map name (parameters (snd kf)))) ->
  NoDup (flat_map (fun kf => map (arg_id (fst kf)) (parameters (snd kf))) l).
Proof.
  induction l as [|[k f] l IH]; intros Hk Hp; cbn [flat_map map fst snd] in *;
    [constructor|].
  inversion Hk as [|? ? Hnotin Hk']; subst.
  apply NoDup_app.
  - specialize (Hp (k, f) (or_introl eq_refl)). cbn [snd] in Hp.
    induction (parameters f) as [|a ps IHps]; cbn [map] in *; [constructor|].
    inversion Hp as [|? ? Ha Hps]; subst. constructor; [|now apply IHps].
    intros Hin. apply in_map_iff in Hin as (b & Hb & Hin).
    apply arg_id_inj in Hb as [_ Hb]. apply Ha. rewrite <- Hb.
    now apply in_map.
  - apply IH; [assumption|]. intros kf Hin. apply Hp. now right.
  - intros x Hx Hin. apply in_map_iff in Hx as (a & <- & _).
    apply in_flat_map in Hin as ([k' f'] & Hkf & Hin). cbn [fst snd] in Hin.
    apply in_map_iff in Hin as (b & Hb & _).
    apply arg_id_inj in Hb as [-> _].
    apply Hnotin. change k with (fst (k, f')). now apply in_map.
Qed.

End MainFunction1Facts.

(** X18. The first pass of the early printer. As a forward declaration it
    writes [struct CallState;] once per contract and nothing else, and the
    counter [i] stays as it is. As a definition it declares the arguments
    of every function that is no constructor, those of the [k]-th such
    function of the source unit under the number [i + k], between the
    opening of [main] and the start of the [while (nd())] loop of its
    contract; the counter ends at [i] plus the number of these functions. *)
Theorem MainFunction_1_print_counts
  (i : nat) (m_ast : list MainFunction_1.ContractDefinition)
  (c : MainFunction_1.ContractDefinition) :
  MainFunction_1.print true i m_ast
  = (fold_right (fun _ text => ("struct CallState;" ++ text)%string)
                ""%string m_ast, i)
  /\ snd (MainFunction_1.print false i m_ast)
     = i + length (flat_map
                     (fun c => MainFunction_1.declaring
                                 (MainFunction_1.definedFunctions c)) m_ast)
  /\ MainFunction_1.accept false i c
     = let fs := MainFunction_1.declaring (MainFunction_1.definedFunctions c) in
       ((MainFunction_1.visit_ContractDefinition false
         ++ fold_right
              (fun kf text =>
                 MainFunction_1.print_args (fst kf)
                   (MainFunction_1.parameters (snd kf)) ++ text)
              "" (combine (seq i (length fs)) fs)
         ++ MainFunction_1.endVisit_ContractDefinition false c)%string,
        i + length fs).
Proof.
  split; [|split].
  - revert i. induction m_ast as [|c' l IH]; intros i;
      cbn [MainFunction_1.print fold_right]; [reflexivity|].
    unfold MainFunction_1.accept. rewrite visit_functions_forward, IH.
    reflexivity.
  - revert i. induction m_ast as [|c' l IH]; intros i;
      cbn [MainFunction_1.print flat_map length snd]; [lia|].
    unfold MainFunction_1.accept. rewrite visit_functions_define.
    specialize (IH (i + length (MainFunction_1.declaring
                                  (MainFunction_1.definedFunctions c')))).
    destruct (MainFunction_1.print false _ l) as [rest i''].
    cbn [snd] in *. rewrite IH, length_app. lia.
  - unfold MainFunction_1.accept. now rewrite visit_functions_define.
Qed.

Example MainFunction_1_print_example :
  fst (MainFunction_1.print false 0 [MainFunction_1.example])
  = ("struct CallState{int sender;unsigned int value;unsigned int blocknum;};"
     ++ "int main(void){"
     ++ "int 0_a;" ++ "int 1_a;int 1_b;"
     ++ "struct A contract;struct CallState globalstate;"
     ++ "Ctor_A(&contract,&globalstate);struct CallState nextGS;"
     ++ "while (nd()){")%string.
Proof. reflexivity. Qed.

(** X19. The number before the name keeps the arguments of the functions
    apart: if no function has two parameters of the same name, no two of
    the declarations that the first pass writes for a contract declare the
    same name, although functions share the names of their parameters. *)
Theorem MainFunction_1_names_distinct
  (i : nat) (c : MainFunction_1.ContractDefinition) :
  (forall f, In f (MainFunction_1.definedFunctions c) ->
             NoDup (map MainFunction_1.name (MainFunction_1.parameters f))) ->
  let fs := MainFunction_1.declaring (MainFunction_1.definedFunctions c) in
  NoDup (flat_map
           (fun kf => map (MainFunction_1.arg_id (fst kf))
                          (MainFunction_1.parameters (snd kf)))
           (combine (seq i (length fs)) fs)).
Proof.
  intros Hf. cbn zeta. apply arg_ids_NoDup.
  - rewrite map_fst_combine_seq. apply seq_NoDup.
  - intros [k f] Hin. cbn [snd]. apply in_combine_r in Hin.
    apply Hf. unfold MainFunction_1.declaring in Hin.
    now apply filter_In in Hin as [Hin _].
Qed.

Lemma MainFunction_1_names_distinct_witness :
  let fs := MainFunction_1.declaring
              (MainFunction_1.definedFunctions MainFunction_1.example) in
  NoDup (flat_map
           (fun kf => map (MainFunction_1.arg_id (fst kf))
                          (MainFunction_1.parameters (snd kf)))
           (combine (seq 0 (length fs)) fs)).
Proof.
  cbn zeta.
  apply (@MainFunction_1_names_distinct 0 MainFunction_1.example).
  intros f [<-|[<-|[<-|[]]]]; cbn; repeat constructor; cbn; intuition discriminate.
Defined.

(** ** StateGenerator: the call state after its declaration *)

(** X20. Running the declaration of the call state [sender, value,
    blocknum, timestamp, paid, origin]: without lockstep no
    non-deterministic value is taken and both clocks start at 0; with
    lockstep the clocks start at two non-deterministic values, taken in the
    order [blocknum], [timestamp]. In both modes [sender], [value] and
    [origin] get no value, and the declaration always runs to its end when
    the values it asks for are there. *)
Theorem declare_starts_clocks
  (G : StateGenerator.t) (s : StateGenerator.Store) (nd : list Z) :
  StateGenerator.order G = StateGenerator.callstate_order ->
  (StateGenerator.M_USE_LOCKSTEP_TIME G = false ->
   exists s',
     StateGenerator.exec_block (StateGenerator.declare G) s nd = Some (s', nd)
     /\ s' "blocknum"%string = 0%Z /\ s' "timestamp"%string = 0%Z
     /\ s' "sender"%string = s "sender"%string
     /\ s' "value"%string = s "value"%string
     /\ s' "origin"%string = s "origin"%string)
  /\ (StateGenerator.M_USE_LOCKSTEP_TIME G = true ->
      forall b t nd',
        nd = b :: t :: nd' ->
        exists s',
          StateGenerator.exec_block (StateGenerator.declare G) s nd
          = Some (s', nd')
          /\ s' "blocknum"%string = b /\ s' "timestamp"%string = t
          /\ s' "sender"%string = s "sender"%string
          /\ s' "value"%string = s "value"%string
          /\ s' "origin"%string = s "origin"%string).
Proof.
  intros Horder. unfold StateGenerator.declare. rewrite Horder.
  split; intros Hlock.
  - cbn [StateGenerator.callstate_order flat_map StateGenerator.declare_field
         StateGenerator.field StateGenerator.name StateGenerator.tname
         StateGenerator.type app].
    rewrite Hlock. cbn [app]. eexists. split; [reflexivity|].
    now repeat split.
  - intros b t nd' ->.
    cbn [StateGenerator.callstate_order flat_map StateGenerator.declare_field
         StateGenerator.field StateGenerator.name StateGenerator.tname
         StateGenerator.type app].
    rewrite Hlock. cbn [app]. eexists. split; [reflexivity|].
    now repeat split.
Qed.

Lemma declare_starts_clocks_witness :
  exists s',
    StateGenerator.exec_block
      (StateGenerator.declare (StateGenerator.over_callstate true 1 3 []))
      StateGenerator.zero [4; 9]%Z = Some (s', [])
    /\ s' "blocknum"%string = 4%Z /\ s' "timestamp"%string = 9%Z.
Proof.
  destruct (@declare_starts_clocks
              (StateGenerator.over_callstate true 1 3 [])
              StateGenerator.zero [4; 9]%Z eq_refl) as [_ Hlock].
  destruct (Hlock eq_refl 4%Z 9%Z [] eq_refl) as (s' & Hrun & Hb & Ht & _).
  exists s'. now repeat split.
Defined.

(** ** ExpressionConverter: the last assignment *)

Local Open Scope string_scope.

Lemma bind_ext (A B : Type) (c : Result A) (k k' : A -> Result B) :
  (forall a, k a = k' a) -> bind c k = bind c k'.
Proof. intros H. destruct c; cbn [bind]; [apply H | reflexivity | reflexivity]. Qed.

(** X21. [m_last_assignment], which [visit(Assignment)] sets for an
    assignment to a contract variable, is read by [print_contract_ctor]
    only. For an expression that reaches neither that printer nor
    [print_method] (the two printers that take the flags as they are), but
    in pushed arguments, the conversion is the same whatever
    [m_last_assignment] holds, failures included. *)
Theorem last_assignment_only_for_calls (E : Env) :
  forall (e : Expression),
    ExpressionSupport.no_printed_call e = true ->
    forall (fl : Flags) (m_subexpr : CExpr) (id : option Identifier),
      visit E (set_last_assignment fl id) e m_subexpr = visit E fl e m_subexpr.
Proof.
  fix IH 1. intros e Hb fl m_subexpr id.
  destruct e as [t c a b|t lhs op rhs|t inl comps|t op pre sub|t l op r
                |t KIND callee args|t base m|t base idx|x|t tok val den];
    cbn [visit]; cbn [ExpressionSupport.no_printed_call] in Hb.
  - apply andb_prop in Hb as [Hb Hb3]. apply andb_prop in Hb as [Hb1 Hb2].
    rewrite (IH c Hb1). apply bind_ext. intros s1.
    rewrite (IH a Hb2). apply bind_ext. intros s2.
    rewrite (IH b Hb3). reflexivity.
  - apply andb_prop in Hb as [Hl Hr].
    destruct (match LValueSniffer_Identifier E lhs with
              | Some id0 => is_Contract (id_type id0)
              | None => false
              end); [reflexivity|].
    set (ref := match LValueSniffer_Identifier E lhs with
                | Some id0 => is_pointer E id0
                | None => false
                end).
    change (set_find_ref (set_last_assignment fl id) ref)
      with (set_last_assignment (set_find_ref fl ref) id).
    change (set_lval (set_last_assignment fl id) true)
      with (set_last_assignment (set_lval fl true) id).
    assert (Hrhs : forall s,
      (if negb (Token_eqb op Assign)
       then generate_binary_op_with E (visit E)
              (set_last_assignment (set_find_ref fl ref) id) lhs
              (AssignmentToBinaryOp E op) rhs s
       else visit E (set_last_assignment (set_find_ref fl ref) id) rhs s)
      = (if negb (Token_eqb op Assign)
         then generate_binary_op_with E (visit E) (set_find_ref fl ref) lhs
                (AssignmentToBinaryOp E op) rhs s
         else visit E (set_find_ref fl ref) rhs s)).
    { intros s. destruct (negb (Token_eqb op Assign)); [|apply (IH rhs Hr)].
      unfold generate_binary_op_with. rewrite (IH lhs Hl).
      apply bind_ext. intros s1. now rewrite (IH rhs Hr). }
    rewrite Hrhs. apply bind_ext. intros r.
    pose proof (fun s => IH lhs Hl (set_lval fl true) s id) as Hlhs.
    clear Hrhs Hl.
    destruct lhs; try reflexivity; now rewrite Hlhs.
  - destruct inl; [reflexivity|].
    destruct comps as [|component [|]]; try reflexivity.
    apply (IH component Hb).
  - now rewrite (IH sub Hb).
  - apply andb_prop in Hb as [Hl Hr].
    unfold generate_binary_op_with. rewrite (IH l Hl).
    apply bind_ext. intros s1. now rewrite (IH r Hr).
  - destruct KIND; try reflexivity.
    + unfold print_function_with.
      destruct (annotation_type callee) as [| | | | | | | | | |kind| | | | | | | |];
        try reflexivity.
      destruct kind; try reflexivity; discriminate Hb.
    + unfold print_cast_with.
      destruct args as [|BASE_EXPR [|]]; try reflexivity.
      destruct (integer_of_rational (annotation_type BASE_EXPR)); [|reflexivity].
      destruct (integer_of_rational t); [|reflexivity].
      destruct (is_FixedPoint _ || is_FixedPoint _); [reflexivity|].
      rewrite (IH BASE_EXPR Hb). apply bind_ext. intros s.
      now rewrite (IH BASE_EXPR Hb).
  - change (set_find_ref (set_last_assignment fl id) false)
      with (set_last_assignment (set_find_ref fl false) id).
    unfold print_adt_member_with, print_address_member, visit_Identifier.
    rewrite (IH base Hb). reflexivity.
  - reflexivity.
  - reflexivity.
  - reflexivity.
Qed.

Lemma last_assignment_only_for_calls_witness :
  visit (TestFixture.env [] "Map_2")
        (set_last_assignment TestFixture.top
           (Some (mkIdentifier "c" (ContractType "C"))))
        TestFixture.a_1_add_2 CNull
  = visit (TestFixture.env [] "Map_2") TestFixture.top
          TestFixture.a_1_add_2 CNull.
Proof.
  apply (@last_assignment_only_for_calls (TestFixture.env [] "Map_2")
           TestFixture.a_1_add_2 eq_refl).
Defined.

Local Close Scope string_scope.
